(** * Sia renter: host reputation decay and piece availability

    A shallow embedding of
      - modules/renter/hostdb/hostentry.go  (interaction counters, decay)
      - modules/renter/files.go             (availability, expiry, rename)
    together with the properties stated about them.

    Go's [float64] is modelled by the IEEE 754 binary64 instance of the
    specification floats of the standard library ([SpecFloat], precision 53,
    maximal exponent 1024); [uint64] and [types.BlockHeight] are integers
    with their wrap-around modulo 2^64 written out; Go maps are finite maps.
    Every floating-point operation is rounded on its own, to nearest with
    ties to even (no fused multiply-add).  A package constant is the
    [float64] it is converted to where it meets a [float64] operand; a
    product of two package constants is a constant expression, which Go
    evaluates exactly and rounds once, and is a [float64] of its own.
    The values of floats are rationals. *)

From Stdlib Require Import ZArith Lia Bool List QArith Qpower Lqa Qminmax.
From Stdlib Require Import Floats.SpecFloat.
From stdpp Require Import gmap strings list fin_maps.

Local Open Scope Z_scope.

(** ** Machine integers *)

Module U64.

Definition modulus : Z := 2 ^ 64.

(** Reduction of an integer to the range of [uint64]. *)
Definition wrap (z : Z) : Z := z mod modulus.

Definition in_range (z : Z) : Prop := 0 <= z < modulus.

Definition add (a b : Z) : Z := wrap (a + b).
Definition sub (a b : Z) : Z := wrap (a - b).

(** [x++] *)
Definition incr (a : Z) : Z := add a 1.

End U64.

(** ** Binary64 arithmetic *)

Module F64.

Definition prec : Z := 53.
Definition emax : Z := 1024.

Definition float64 : Type := spec_float.

Definition add : float64 -> float64 -> float64 := SFadd prec emax.
Definition mul : float64 -> float64 -> float64 := SFmul prec emax.
Definition div : float64 -> float64 -> float64 := SFdiv prec emax.

(** Go's [x > y] on floats: false as soon as one side is a NaN. *)
Definition gt (x y : float64) : bool := SFltb y x.

(** [float64(n)] for an unsigned integer [n]: the nearest binary64 value,
    ties to even. *)
Definition of_uint64 (n : Z) : float64 := binary_normalize prec emax n 0 false.

(** The integer part of a finite float, fraction discarded (towards 0). *)
Definition trunc (x : float64) : option Z :=
  match x with
  | S754_zero _ => Some 0
  | S754_finite s m e =>
      let a := match e with
               | Zneg p => Z.shiftr (Zpos m) (Zpos p)
               | _ => Z.shiftl (Zpos m) e
               end in
      Some (if s then - a else a)
  | _ => None
  end.

Section Conversion.

(** The Go specification leaves [uint64(x)] implementation-dependent when
    the integer part of [x] is not a [uint64] (NaN, infinities, negative
    or too large values): the conversion succeeds with some value of the
    type.  That value is a parameter. *)
Variable unrepresentable : float64 -> Z.

Definition to_uint64 (x : float64) : Z :=
  match trunc x with
  | Some z => if (0 <=? z) && (z <? U64.modulus) then z
              else U64.wrap (unrepresentable x)
  | None => U64.wrap (unrepresentable x)
  end.

End Conversion.

(** A decimal literal [p/q] with [p], [q] below 2^53: both are exact in
    binary64, so the correctly rounded quotient is the float nearest to the
    literal. *)
Definition ratio (p q : Z) : float64 := div (of_uint64 p) (of_uint64 q).

End F64.

Declare Scope f64_scope.
Delimit Scope f64_scope with f64.
Infix "+" := F64.add : f64_scope.
Infix "*" := F64.mul : f64_scope.
Infix "/" := F64.div : f64_scope.
Infix ">" := F64.gt : f64_scope.

(** ** hostdb: host entries and their interaction counters *)

Module hostdb.

Import F64.

(** [types.BlockHeight] is a [uint64]. *)
Definition BlockHeight : Type := Z.

(** The host directory indexes hosts by the bytes of their public key. *)
Definition SiaPublicKey : Type := string.

(** The fields of [modules.HostDBEntry] used by the decay engine. *)
Record HostDBEntry : Type := mkHostDBEntry {
  PublicKey : SiaPublicKey;
  HistoricSuccessfulInteractions : Z;
  HistoricFailedInteractions : Z;
  RecentSuccessfulInteractions : Z;
  RecentFailedInteractions : Z;
  LastHistoricUpdate : BlockHeight
}.

Section Decay.

(** [math.Pow] of Go's standard library. *)
Variable math_Pow : float64 -> float64 -> float64.

(** Result of [uint64(x)] where Go leaves it to the implementation. *)
Variable unrepresentable : float64 -> Z.

(** Package constants of hostdb, each with the value it has where it meets a
    [float64] operand. *)
Variable historicInteractionDecay : float64.
Variable historicInteractionDecayLimit : float64.
Variable recentInteractionWeightLimit : float64.

(** The constant expression [recentInteractionWeightLimit *
    historicInteractionDecayLimit] of lines 50 and 51.  Both operands are
    package constants, so Go evaluates the product when it compiles the
    package, exactly, and rounds it to [float64] once: the expression is a
    [float64] of its own, which need not be the rounded product of the two
    constants above.  (It is that product when the constants are declared
    with type [float64].) *)
Variable weightLimitTimesDecayLimit : float64.

(** Lines 41-55: the recent counters, clamped against the historic ones. *)
Definition clampRecent (hsi hfi rsi rfi : float64) : float64 * float64 :=
  if (hsi + hfi > historicInteractionDecayLimit)%f64 then
    if (rsi + rfi > recentInteractionWeightLimit * (hsi + hfi))%f64 then
      let adjustment :=
        (recentInteractionWeightLimit * (hsi + hfi) / (rsi + rfi))%f64 in
      ((rsi * adjustment)%f64, (rfi * adjustment)%f64)
    else (rsi, rfi)
  else
    if (rsi + rfi > weightLimitTimesDecayLimit)%f64 then
      let adjustment := (weightLimitTimesDecayLimit / (rsi + rfi))%f64 in
      ((rsi * adjustment)%f64, (rfi * adjustment)%f64)
    else (rsi, rfi).

(** Lines 25-34: the historic counters after the decay of one block. *)
Definition decayOneBlock (host : HostDBEntry) : float64 * float64 :=
  let hsi := of_uint64 (HistoricSuccessfulInteractions host) in
  let hfi := of_uint64 (HistoricFailedInteractions host) in
  if (hsi + hfi > historicInteractionDecayLimit)%f64 then
    let decay := historicInteractionDecay in
    ((hsi * decay)%f64, (hfi * decay)%f64)
  else (hsi, hfi).

(** Lines 59-64: the decay of the remaining blocks. *)
Definition decayRest (passedTime : Z) (hsi hfi : float64)
  : float64 * float64 :=
  if (1 <? passedTime) && (hsi + hfi > historicInteractionDecayLimit)%f64
  then
    let decay :=
      math_Pow historicInteractionDecay
               (of_uint64 (U64.sub passedTime 1)) in
    ((hsi * decay)%f64, (hfi * decay)%f64)
  else (hsi, hfi).

Definition updateHostHistoricInteractions
           (host : HostDBEntry) (bh : BlockHeight) : HostDBEntry :=
  let passedTime := U64.sub bh (LastHistoricUpdate host) in
  if passedTime =? 0 then host
  else
    let '(hsi, hfi) := decayOneBlock host in
    let rsi := of_uint64 (RecentSuccessfulInteractions host) in
    let rfi := of_uint64 (RecentFailedInteractions host) in
    let '(rsi, rfi) := clampRecent hsi hfi rsi rfi in
    let hsi := (hsi + rsi)%f64 in
    let hfi := (hfi + rfi)%f64 in
    let '(hsi, hfi) := decayRest passedTime hsi hfi in
    {| PublicKey := PublicKey host;
       HistoricSuccessfulInteractions := to_uint64 unrepresentable hsi;
       HistoricFailedInteractions := to_uint64 unrepresentable hfi;
       RecentSuccessfulInteractions := 0;
       RecentFailedInteractions := 0;
       LastHistoricUpdate := bh |}.

(** Lines 89-92 and 110-113: the read-modify-write on the fetched copy. *)
Definition recordSuccessful (host : HostDBEntry) (bh : BlockHeight)
  : HostDBEntry :=
  let host := updateHostHistoricInteractions host bh in
  {| PublicKey := PublicKey host;
     HistoricSuccessfulInteractions := HistoricSuccessfulInteractions host;
     HistoricFailedInteractions := HistoricFailedInteractions host;
     RecentSuccessfulInteractions :=
       U64.incr (RecentSuccessfulInteractions host);
     RecentFailedInteractions := RecentFailedInteractions host;
     LastHistoricUpdate := LastHistoricUpdate host |}.

Definition recordFailed (host : HostDBEntry) (bh : BlockHeight)
  : HostDBEntry :=
  let host := updateHostHistoricInteractions host bh in
  {| PublicKey := PublicKey host;
     HistoricSuccessfulInteractions := HistoricSuccessfulInteractions host;
     HistoricFailedInteractions := HistoricFailedInteractions host;
     RecentSuccessfulInteractions := RecentSuccessfulInteractions host;
     RecentFailedInteractions :=
       U64.incr (RecentFailedInteractions host);
     LastHistoricUpdate := LastHistoricUpdate host |}.

(** Modelled from the spec: the host directory ([hdb.hostTree], package
    hosttree) is missing from the sources.  It is an indexed collection of
    host records: [Select] looks a record up by public key and reports
    whether it was found (the found flag is the [option]); [Modify]
    replaces the stored record keyed by the identity of its argument. *)
Definition Select (tree : gmap SiaPublicKey HostDBEntry)
           (key : SiaPublicKey) : option HostDBEntry :=
  tree !! key.

Definition Modify (tree : gmap SiaPublicKey HostDBEntry)
           (host : HostDBEntry) : gmap SiaPublicKey HostDBEntry :=
  match tree !! PublicKey host with
  | Some _ => <[PublicKey host := host]> tree
  | None => tree
  end.

(** The fields of [HostDB] read by the two increment functions; the mutex
    [mu] serialises the calls and is not represented. *)
Record HostDB : Type := mkHostDB {
  hostTree : gmap SiaPublicKey HostDBEntry;
  blockHeight : BlockHeight;
  online : bool
}.

Definition IncrementSuccessfulInteractions
           (hdb : HostDB) (key : SiaPublicKey) : HostDB :=
  match Select (hostTree hdb) key with
  | None => hdb
  | Some host =>
      let host := recordSuccessful host (blockHeight hdb) in
      {| hostTree := Modify (hostTree hdb) host;
         blockHeight := blockHeight hdb;
         online := online hdb |}
  end.

Definition IncrementFailedInteractions
           (hdb : HostDB) (key : SiaPublicKey) : HostDB :=
  match Select (hostTree hdb) key with
  | None => hdb
  | Some host =>
      if negb (online hdb) then hdb
      else
        let host := recordFailed host (blockHeight hdb) in
        {| hostTree := Modify (hostTree hdb) host;
           blockHeight := blockHeight hdb;
           online := online hdb |}
  end.

(** *** Sequences of operations *)

(** What can happen to one record: a bare decay application, or one of
    the two increments, each at the block height current at that time. *)
Inductive interaction : Type :=
| Decay (bh : BlockHeight)
| Successful (bh : BlockHeight)
| Failed (bh : BlockHeight).

Definition height_of (i : interaction) : BlockHeight :=
  match i with Decay bh | Successful bh | Failed bh => bh end.

Definition interact (host : HostDBEntry) (i : interaction) : HostDBEntry :=
  match i with
  | Decay bh => updateHostHistoricInteractions host bh
  | Successful bh => recordSuccessful host bh
  | Failed bh => recordFailed host bh
  end.

Definition interactions (host : HostDBEntry) (l : list interaction)
  : HostDBEntry :=
  fold_left interact l host.

(** What can happen to the tracker: the two calls, and the two fields the
    rest of the package writes (a new block height, the connectivity
    flag). *)
Inductive call : Type :=
| CallSuccessful (key : SiaPublicKey)
| CallFailed (key : SiaPublicKey)
| SetBlockHeight (bh : BlockHeight)
| SetOnline (b : bool).

Definition perform (hdb : HostDB) (c : call) : HostDB :=
  match c with
  | CallSuccessful key => IncrementSuccessfulInteractions hdb key
  | CallFailed key => IncrementFailedInteractions hdb key
  | SetBlockHeight bh =>
      {| hostTree := hostTree hdb; blockHeight := bh;
         online := online hdb |}
  | SetOnline b =>
      {| hostTree := hostTree hdb; blockHeight := blockHeight hdb;
         online := b |}
  end.

Definition calls (hdb : HostDB) (l : list call) : HostDB :=
  fold_left perform l hdb.

End Decay.

End hostdb.

(** ** renter: files and their pieces *)

Module renter.

Definition BlockHeight : Type := Z.

(** [types.FileContract]: the storage-proof window opens at [WindowStart]. *)
Record FileContract : Type := mkFileContract {
  WindowStart : BlockHeight
}.

Record filePiece : Type := mkFilePiece {
  Active : bool;
  Repairing : bool;
  Contract : FileContract;
  ContractID : string;
  HostIP : string;
  StartIndex : Z;
  EndIndex : Z;
  PieceIndex : Z;
  PieceChecksum : string
}.

(** The back reference [renter *Renter] only serves to reach the lock and
    the block height of the renter; the height is passed where needed. *)
Record file : Type := mkFile {
  Name : string;
  EncryptionKey : string;
  Checksum : string;
  ErasureScheme : string;
  PiecesRequired : Z;
  OptimalRecoveryPieces : Z;
  TotalPieces : Z;
  Pieces : list filePiece
}.

(** The [for ... range f.Pieces] loop of [Available], [active] being the
    count so far.  [active] never exceeds the length of the slice, so the
    [int] does not overflow. *)
Fixpoint Available_loop (required active : Z) (pieces : list filePiece)
  : bool :=
  match pieces with
  | [] => false
  | piece :: rest =>
      let active := if Active piece then active + 1 else active in
      if required <=? active then true
      else Available_loop required active rest
  end.

Definition Available (f : file) : bool :=
  Available_loop (PiecesRequired f) 0 (Pieces f).

Definition Nickname (f : file) : string := Name f.

Fixpoint Repairing_loop (pieces : list filePiece) : bool :=
  match pieces with
  | [] => false
  | piece :: rest => if Repairing piece then true else Repairing_loop rest
  end.

Definition IsRepairing (f : file) : bool := Repairing_loop (Pieces f).

Definition TimeRemaining (f : file) (blockHeight : BlockHeight)
  : BlockHeight :=
  match Pieces f with
  | [] => 0
  | piece :: _ =>
      if WindowStart (Contract piece) <? blockHeight then 0
      else U64.sub (WindowStart (Contract piece)) blockHeight
  end.

(** The number of pieces whose [Active] flag is set. *)
Definition activeCount (pieces : list filePiece) : Z :=
  Z.of_nat (length (filter (fun p => Active p = true) pieces)).

(** Modelled from the spec: [r.save] is the external persistence hook, a
    durability checkpoint; the renter records how many were taken. *)
Record Renter : Type := mkRenter {
  files : gmap string file;
  blockHeight : BlockHeight;
  checkpoints : nat
}.

Definition save (r : Renter) : Renter :=
  {| files := files r; blockHeight := blockHeight r;
     checkpoints := S (checkpoints r) |}.

(** [for i := range r.files], each file copied into the result.  Go leaves
    the order in which a map is run over unspecified: the files come here in
    the order of [map_to_list], and what is proved of the list is proved of
    every rearrangement of it. *)
Definition FileList (r : Renter) : list file :=
  (map_to_list (files r)).*2.

(** [errors.New]: an error is its message. *)
Definition error : Type := string.

Definition ErrNotFound : error := "no file found by that name".
Definition ErrAlreadyExists : error := "file of new name already exists".

Definition setName (entry : file) (newName : string) : file :=
  {| Name := newName;
     EncryptionKey := EncryptionKey entry;
     Checksum := Checksum entry;
     ErasureScheme := ErasureScheme entry;
     PiecesRequired := PiecesRequired entry;
     OptimalRecoveryPieces := OptimalRecoveryPieces entry;
     TotalPieces := TotalPieces entry;
     Pieces := Pieces entry |}.

(** The renter after the call, and the returned error ([None] is [nil]). *)
Definition Rename (r : Renter) (currentName newName : string)
  : Renter * option error :=
  match files r !! currentName with
  | None => (r, Some ErrNotFound)
  | Some entry =>
      match files r !! newName with
      | Some _ => (r, Some ErrAlreadyExists)
      | None =>
          let fs := delete currentName (files r) in
          let entry := setName entry newName in
          let fs := <[newName := entry]> fs in
          (save {| files := fs; blockHeight := blockHeight r;
                   checkpoints := checkpoints r |}, None)
      end
  end.

End renter.

(** ** The values of floats *)

(** Powers of two with integer exponents, as rationals. *)
Definition pow2 (e : Z) : Q := (2 ^ e)%Q.

(** The value of a float without its sign; 0 for what is not a number. *)
Definition magnitude (z : spec_float) : Q :=
  match z with
  | S754_finite _ m e => (inject_Z (Zpos m) * pow2 e)%Q
  | _ => 0%Q
  end.

(** Zero or a positive finite number, in canonical form. *)
Definition nonneg_finite (z : spec_float) : Prop :=
  valid_binary 53 1024 z = true /\
  (z = S754_zero false \/ exists m e, z = S754_finite false m e).

(** The result of a rounding, in the form the operations are specified:
    a non-negative finite float within a relative 2^-53 and an absolute
    2^-1075 of the exact value. *)
Definition rounds_to (z : spec_float) (x : Q) : Prop :=
  nonneg_finite z /\
  (magnitude z <= x + (x * pow2 (-53) + pow2 (-1075)))%Q /\
  (x - (x * pow2 (-53) + pow2 (-1075)) <= magnitude z)%Q.

(** [x] lies in the half-open unit [[m*u, (m+1)*u]] at the place the round
    bit [r] and the sticky bit [s] tell. *)
Definition located (x : Q) (m : Z) (u : Q) (r s : bool) : Prop :=
  match r, s with
  | false, false => (x == inject_Z m * u)%Q
  | false, true =>
      (inject_Z m * u <= x /\ x <= (inject_Z m + (1 # 2)) * u)%Q
  | true, false => (x == (inject_Z m + (1 # 2)) * u)%Q
  | true, true =>
      ((inject_Z m + (1 # 2)) * u <= x /\ x <= (inject_Z m + 1) * u)%Q
  end.

Definition round_bit (l : location) : bool :=
  match l with
  | loc_Inexact Eq | loc_Inexact Gt => true
  | _ => false
  end.

Definition sticky_bit (l : location) : bool :=
  match l with
  | loc_Inexact Lt | loc_Inexact Gt => true
  | _ => false
  end.

(** A non-negative finite float whose value is the integer [n]. *)
Definition represents (z : spec_float) (n : Z) : Prop :=
  nonneg_finite z /\ (magnitude z == inject_Z n)%Q.

Import hostdb.

(** ** Well-formed records and scenarios *)

(** The counters of a record are [uint64] values. *)
Definition counters_in_range (host : HostDBEntry) : Prop :=
  U64.in_range (HistoricSuccessfulInteractions host) /\
  U64.in_range (HistoricFailedInteractions host) /\
  U64.in_range (RecentSuccessfulInteractions host) /\
  U64.in_range (RecentFailedInteractions host).

Definition entry_in_range (host : HostDBEntry) : Prop :=
  counters_in_range host /\ U64.in_range (LastHistoricUpdate host).

Definition counters_nonneg (host : HostDBEntry) : Prop :=
  0 <= HistoricSuccessfulInteractions host /\
  0 <= HistoricFailedInteractions host /\
  0 <= RecentSuccessfulInteractions host /\
  0 <= RecentFailedInteractions host.

(** Successive block heights that never go back, starting from [lo]. *)
Fixpoint ascending (lo : BlockHeight) (l : list interaction) : Prop :=
  match l with
  | [] => True
  | i :: rest => lo <= height_of i /\ ascending (height_of i) rest
  end.

(** Every stored record sits under its own public key. *)
Definition keyed (tree : gmap SiaPublicKey HostDBEntry) : Prop :=
  forall key host, tree !! key = Some host -> PublicKey host = key.

Definition tree_counters_in_range (tree : gmap SiaPublicKey HostDBEntry)
  : Prop :=
  forall key host, tree !! key = Some host -> counters_in_range host.

(** The configuration of scenario A. *)
Definition decay_0_995 : F64.float64 := F64.ratio 995 1000.
Definition limit_500 : F64.float64 := F64.of_uint64 500.
Definition weight_0_01 : F64.float64 := F64.ratio 1 100.

(** [0.01 * 500], folded: 5, which is also what the two floats multiply
    to. *)
Definition product_5 : F64.float64 := F64.of_uint64 5.

Definition one : F64.float64 := F64.of_uint64 1.

Definition entry (hs hf rs rf : Z) (lhu : BlockHeight) : HostDBEntry :=
  {| PublicKey := "host";
     HistoricSuccessfulInteractions := hs;
     HistoricFailedInteractions := hf;
     RecentSuccessfulInteractions := rs;
     RecentFailedInteractions := rf;
     LastHistoricUpdate := lhu |}.


(** A power function that is only right on the special case documented for
    [math.Pow], [Pow(x, 1) = x]; it instantiates statements that rely on
    nothing else. *)
Definition Pow_exponent_one (x y : F64.float64) : F64.float64 :=
  if SFeqb y one then x else S754_nan.

(** A power function that is right at the exponent 1 and gives 0 elsewhere,
    as [math.Pow] does where the power of a base below 1 underflows. *)
Definition Pow_vanishing (x y : F64.float64) : F64.float64 :=
  if SFeqb y one then x else S754_zero false.

(** One admissible outcome of the unrepresentable conversions: the bit
    pattern 2^63, whatever the operand. *)
Definition unrepresentable_indefinite (x : F64.float64) : Z := 2 ^ 63.

Section Collapsed.

Variable math_Pow : F64.float64 -> F64.float64 -> F64.float64.
Variable unrepresentable : F64.float64 -> Z.
Variable historicInteractionDecay : F64.float64.
Variable historicInteractionDecayLimit : F64.float64.
Variable recentInteractionWeightLimit : F64.float64.
Variable weightLimitTimesDecayLimit : F64.float64.

(** The variant the design notes warn against, written after their words to
    be compared with the function of the source: the decay of all the blocks
    that passed, [historicInteractionDecay^passedTime], is applied once,
    before the recent counters are merged, and nothing after. *)
Definition collapsedUpdate (host : HostDBEntry) (bh : BlockHeight)
  : HostDBEntry :=
  let passedTime := U64.sub bh (LastHistoricUpdate host) in
  if passedTime =? 0 then host
  else
    let hsi := F64.of_uint64 (HistoricSuccessfulInteractions host) in
    let hfi := F64.of_uint64 (HistoricFailedInteractions host) in
    let '(hsi, hfi) :=
      if (hsi + hfi > historicInteractionDecayLimit)%f64 then
        let decay :=
          math_Pow historicInteractionDecay (F64.of_uint64 passedTime) in
        ((hsi * decay)%f64, (hfi * decay)%f64)
      else (hsi, hfi) in
    let rsi := F64.of_uint64 (RecentSuccessfulInteractions host) in
    let rfi := F64.of_uint64 (RecentFailedInteractions host) in
    let '(rsi, rfi) :=
      clampRecent historicInteractionDecayLimit recentInteractionWeightLimit
                  weightLimitTimesDecayLimit hsi hfi rsi rfi in
    let hsi := (hsi + rsi)%f64 in
    let hfi := (hfi + rfi)%f64 in
    {| PublicKey := PublicKey host;
       HistoricSuccessfulInteractions := F64.to_uint64 unrepresentable hsi;
       HistoricFailedInteractions := F64.to_uint64 unrepresentable hfi;
       RecentSuccessfulInteractions := 0;
       RecentFailedInteractions := 0;
       LastHistoricUpdate := bh |}.

End Collapsed.

(** The configurations the bound on the recent counters is stated for: the
    three constants are non-negative finite floats, the decay factor and the
    weight limit are at most 1, the decay limit is below 2^1022; the folded
    product of the weight limit and the decay limit is a non-negative finite
    float that exceeds the product of the two floats by no more than
    roundings can (each constant rounded, or the exact product rounded). *)
Definition config_ok (decay limit weight product : F64.float64) : Prop :=
  nonneg_finite decay /\ (magnitude decay <= 1)%Q /\
  nonneg_finite limit /\ (magnitude limit < pow2 1022)%Q /\
  nonneg_finite weight /\ (magnitude weight <= 1)%Q /\
  nonneg_finite product /\
  (magnitude product
   <= magnitude weight * magnitude limit * (1 + pow2 (-50)) + pow2 (-1000))%Q.

(** [WeightLimit * max(DecayLimit, historicTotal)] as the code forms it: the
    maximum is taken by the comparison of line 43; above the decay limit the
    product is a rounded multiplication, below it the folded constant. *)
Definition recentCap (limit weight product hsi hfi : F64.float64)
  : F64.float64 :=
  if F64.gt (F64.add hsi hfi) limit then F64.mul weight (F64.add hsi hfi)
  else product.

(** A tracker at height 1001 that knows the host of scenario A. *)
Definition hdb_scenario (up : bool) : HostDB :=
  {| hostTree := {[ "host" := entry 100 0 10 0 1000 ]};
     blockHeight := 1001;
     online := up |}.

(** A tracker at height 1001 that knows two hosts. *)
Definition hdb_two_hosts : HostDB :=
  {| hostTree :=
       {[ "host" := entry 100 0 10 0 1000;
          "other" := {| PublicKey := "other";
                        HistoricSuccessfulInteractions := 7;
                        HistoricFailedInteractions := 2;
                        RecentSuccessfulInteractions := 1;
                        RecentFailedInteractions := 0;
                        LastHistoricUpdate := 1001 |} ]};
     blockHeight := 1001;
     online := true |}.

(** The host a call is about, if it is about one. *)
Definition key_of (c : call) : option SiaPublicKey :=
  match c with
  | CallSuccessful key | CallFailed key => Some key
  | _ => None
  end.

(** How many of the interactions are successes, and how many are failures. *)
Definition successes (l : list interaction) : Z :=
  Z.of_nat (length (List.filter
    (fun i => match i with Successful _ => true | _ => false end) l)).

Definition failures (l : list interaction) : Z :=
  Z.of_nat (length (List.filter
    (fun i => match i with Failed _ => true | _ => false end) l)).

Import renter.

(** Pieces, files and registries for the scenarios. *)
Definition piece (active : bool) (windowStart : renter.BlockHeight)
  : filePiece :=
  {| Active := active; Repairing := false;
     Contract := {| WindowStart := windowStart |};
     ContractID := "contract"; HostIP := "host:9982";
     StartIndex := 0; EndIndex := 0; PieceIndex := 0;
     PieceChecksum := "" |}.

Definition file_of (required : Z) (pieces : list filePiece) : file :=
  {| Name := "file"; EncryptionKey := ""; Checksum := "";
     ErasureScheme := "reed-solomon";
     PiecesRequired := required; OptimalRecoveryPieces := required;
     TotalPieces := required; Pieces := pieces |}.

Definition registry (names : list string) : Renter :=
  {| files := list_to_map (map (fun n => (n, setName (file_of 1 []) n)) names);
     blockHeight := 0;
     checkpoints := 0 |}.

(** Every file of the registry is stored under its own nickname. *)
Definition named (r : Renter) : Prop :=
  forall name f, files r !! name = Some f -> Nickname f = name.

(** A sequence of renamings, each applied whether or not the one before it
    was refused. *)
Definition renames (r : Renter) (l : list (string * string)) : Renter :=
  fold_left (fun r '(currentName, newName) =>
               fst (Rename r currentName newName)) l r.

(** * Properties *)

(** ** Machine integers *)

Lemma wrap_in_range z : U64.in_range (U64.wrap z).
Proof.
  unfold U64.in_range, U64.wrap, U64.modulus. apply Z.mod_pos_bound. lia.
Qed.

Lemma wrap_small z : U64.in_range z -> U64.wrap z = z.
Proof. unfold U64.in_range, U64.wrap. intros H. apply Z.mod_small. exact H. Qed.

Lemma sub_diag a : U64.sub a a = 0.
Proof. unfold U64.sub, U64.wrap. rewrite Z.sub_diag. reflexivity. Qed.

Lemma sub_small a b :
  U64.in_range a -> U64.in_range b -> b <= a -> U64.sub a b = a - b.
Proof.
  unfold U64.sub. intros Ha Hb Hle. apply wrap_small.
  unfold U64.in_range in *. lia.
Qed.

(** Two heights in range are zero blocks apart only when they are equal. *)
Lemma sub_zero_eq a b :
  U64.in_range a -> U64.in_range b -> U64.sub a b = 0 -> a = b.
Proof.
  unfold U64.sub, U64.wrap, U64.in_range, U64.modulus.
  intros Ha Hb H.
  destruct (Z_le_gt_dec b a) as [Hle|Hgt].
  - rewrite Z.mod_small in H by lia. lia.
  - assert (E : a - b = (a - b + 2 ^ 64) + (-1) * 2 ^ 64) by lia.
    rewrite E, Z.mod_add, Z.mod_small in H by lia. lia.
Qed.

Lemma incr_in_range a : U64.in_range (U64.incr a).
Proof. apply wrap_in_range. Qed.

Lemma to_uint64_in_range unrepresentable x :
  U64.in_range (F64.to_uint64 unrepresentable x).
Proof.
  unfold F64.to_uint64.
  destruct (F64.trunc x) as [z|]; [|apply wrap_in_range].
  destruct (0 <=? z) eqn:H0; destruct (z <? U64.modulus) eqn:H1; simpl;
    try apply wrap_in_range.
  unfold U64.in_range. lia.
Qed.

(** ** Binary64 rounding *)

(** The operations of [SpecFloat] are analysed down to their definitions:
    [binary_round_aux] shifts a mantissa to the exponent of the format with a
    round bit and a sticky bit, rounds to nearest with ties to even, and
    renormalises on a carry.  The outcome is the usual model of a rounded
    operation on non-negative operands that does not overflow: the result is
    a canonical float within a relative 2^-53 and an absolute 2^-1075 of the
    exact value ([rounds_to]). *)

Lemma pow2_pos e : (0 < pow2 e)%Q.
Proof. apply Qpower_0_lt. reflexivity. Qed.

Lemma pow2_add a b : (pow2 (a + b) == pow2 a * pow2 b)%Q.
Proof. unfold pow2. apply Qpower_plus. discriminate. Qed.

Lemma pow2_succ e : (pow2 (e + 1) == 2 * pow2 e)%Q.
Proof. rewrite pow2_add. change (pow2 1) with 2%Q. ring. Qed.

Lemma pow2_pred e : (pow2 (e - 1) == (1 # 2) * pow2 e)%Q.
Proof.
  pose proof (pow2_succ (e - 1)) as H.
  replace (e - 1 + 1) with e in H by lia. lra.
Qed.

Lemma pow2_le a b : a <= b -> (pow2 a <= pow2 b)%Q.
Proof. intros H. apply Qpower_le_compat_l; [exact H | discriminate]. Qed.

Lemma pow2_lt a b : a < b -> (pow2 a < pow2 b)%Q.
Proof. intros H. apply Qpower_lt_compat_l; [exact H | reflexivity]. Qed.

Lemma pow2_lt_inv a b : (pow2 a < pow2 b)%Q -> a < b.
Proof. intros H. apply (Qpower_lt_compat_l_inv 2); [exact H | reflexivity]. Qed.

Lemma pow2_inject n : 0 <= n -> (inject_Z (2 ^ n) == pow2 n)%Q.
Proof.
  intros H. unfold pow2. rewrite Zpower_Qpower by exact H. reflexivity.
Qed.

Lemma inject_Z_le a b : a <= b -> (inject_Z a <= inject_Z b)%Q.
Proof. intros H. rewrite <- Zle_Qle. exact H. Qed.

Lemma inject_Z_lt a b : a < b -> (inject_Z a < inject_Z b)%Q.
Proof. intros H. rewrite <- Zlt_Qlt. exact H. Qed.

(** ** Number of binary digits *)

Lemma digits2_pos_bounds p :
  2 ^ (Zpos (digits2_pos p) - 1) <= Zpos p < 2 ^ Zpos (digits2_pos p).
Proof.
  induction p as [p IH|p IH|]; simpl digits2_pos.
  - rewrite Pos2Z.inj_succ.
    replace (Z.succ (Zpos (digits2_pos p)) - 1)
      with (Z.succ (Zpos (digits2_pos p) - 1)) by lia.
    rewrite !Z.pow_succ_r by lia. lia.
  - rewrite Pos2Z.inj_succ.
    replace (Z.succ (Zpos (digits2_pos p)) - 1)
      with (Z.succ (Zpos (digits2_pos p) - 1)) by lia.
    rewrite !Z.pow_succ_r by lia. lia.
  - simpl. lia.
Qed.

Lemma Zdigits2_nonneg m : 0 <= Zdigits2 m.
Proof. destruct m; simpl; lia. Qed.

Lemma Zdigits2_bounds m :
  0 < m -> 2 ^ (Zdigits2 m - 1) <= m < 2 ^ Zdigits2 m.
Proof. destruct m as [|p|p]; try lia. intros _. apply digits2_pos_bounds. Qed.

Lemma Zdigits2_upper m : 0 <= m -> m < 2 ^ Zdigits2 m.
Proof.
  intros H. destruct (Z.eq_dec m 0) as [->|Hn]; [simpl; lia|].
  apply Zdigits2_bounds. lia.
Qed.

(** The digit count is the only [d] with [2^(d-1) <= m < 2^d]. *)
Lemma Zdigits2_unique m d :
  0 < m -> 2 ^ (d - 1) <= m < 2 ^ d -> Zdigits2 m = d.
Proof.
  intros Hm [Hlo Hhi].
  pose proof (Zdigits2_bounds m Hm) as [Hlo' Hhi'].
  pose proof (Zdigits2_nonneg m) as Hd.
  assert (0 < d).
  { destruct (Z_lt_le_dec 0 d) as [?|Hle]; [assumption|].
    assert (2 ^ d <= 2 ^ 0) by (apply Z.pow_le_mono_r; lia).
    simpl in *. lia. }
  destruct (Z_lt_le_dec (Zdigits2 m) d) as [Hlt|Hge].
  - assert (2 ^ Zdigits2 m <= 2 ^ (d - 1)) by (apply Z.pow_le_mono_r; lia). lia.
  - destruct (Z_lt_le_dec d (Zdigits2 m)) as [Hlt|Hge']; [|lia].
    assert (2 ^ d <= 2 ^ (Zdigits2 m - 1)) by (apply Z.pow_le_mono_r; lia). lia.
Qed.

Lemma Zdigits2_le m d : 0 <= m -> 0 <= d -> m < 2 ^ d -> Zdigits2 m <= d.
Proof.
  intros Hm Hd Hlt.
  destruct (Z.eq_dec m 0) as [->|Hn]; [simpl; lia|].
  pose proof (Zdigits2_bounds m ltac:(lia)) as [Hlo _].
  destruct (Z_le_gt_dec (Zdigits2 m) d) as [?|Hgt]; [assumption|].
  assert (2 ^ d <= 2 ^ (Zdigits2 m - 1)) by (apply Z.pow_le_mono_r; lia). lia.
Qed.

Lemma Zdigits2_ge m d : 2 ^ (d - 1) <= m -> 0 < d -> d <= Zdigits2 m.
Proof.
  intros Hlo Hd.
  assert (0 < m).
  { assert (0 < 2 ^ (d - 1)) by (apply Z.pow_pos_nonneg; lia). lia. }
  pose proof (Zdigits2_bounds m H) as [_ Hhi].
  pose proof (Zdigits2_nonneg m).
  destruct (Z_le_gt_dec d (Zdigits2 m)) as [?|Hgt]; [assumption|].
  assert (2 ^ Zdigits2 m <= 2 ^ (d - 1)) by (apply Z.pow_le_mono_r; lia). lia.
Qed.

(** Dropping [n] low bits drops [n] digits. *)
Lemma Zdigits2_div_pow2 m n :
  0 < m -> 0 <= n -> n < Zdigits2 m ->
  Zdigits2 (m / 2 ^ n) = Zdigits2 m - n.
Proof.
  intros Hm Hn Hlt.
  pose proof (Zdigits2_bounds m Hm) as [Hlo Hhi].
  assert (Hp : 0 < 2 ^ n) by (apply Z.pow_pos_nonneg; lia).
  assert (E1 : 2 ^ (Zdigits2 m - 1) = 2 ^ (Zdigits2 m - n - 1) * 2 ^ n).
  { rewrite <- Z.pow_add_r by lia. f_equal. lia. }
  assert (E2 : 2 ^ Zdigits2 m = 2 ^ (Zdigits2 m - n) * 2 ^ n).
  { rewrite <- Z.pow_add_r by lia. f_equal. lia. }
  assert (Hq1 : 2 ^ (Zdigits2 m - n - 1) <= m / 2 ^ n).
  { apply Z.div_le_lower_bound; [exact Hp|]. lia. }
  assert (Hq2 : m / 2 ^ n < 2 ^ (Zdigits2 m - n)).
  { apply Z.div_lt_upper_bound; [exact Hp|]. lia. }
  apply Zdigits2_unique.
  - assert (0 < 2 ^ (Zdigits2 m - n - 1)) by (apply Z.pow_pos_nonneg; lia). lia.
  - split; assumption.
Qed.

Lemma Zdigits2_div_pow2_zero m n :
  0 <= m -> Zdigits2 m <= n -> m / 2 ^ n = 0.
Proof.
  intros Hm Hle. apply Z.div_small. split; [exact Hm|].
  pose proof (Zdigits2_upper m Hm). pose proof (Zdigits2_nonneg m).
  assert (2 ^ Zdigits2 m <= 2 ^ n) by (apply Z.pow_le_mono_r; lia). lia.
Qed.

(** Adding one adds at most one digit, and only on reaching a power of 2. *)
Lemma Zdigits2_succ m :
  0 < m ->
  Zdigits2 (m + 1) = Zdigits2 m \/
  (Zdigits2 (m + 1) = Zdigits2 m + 1 /\ m + 1 = 2 ^ Zdigits2 m).
Proof.
  intros Hm.
  pose proof (Zdigits2_bounds m Hm) as [Hlo Hhi].
  pose proof (Zdigits2_nonneg m) as Hd.
  destruct (Z.eq_dec (m + 1) (2 ^ Zdigits2 m)) as [E|N].
  - right. split; [|exact E]. apply Zdigits2_unique; [lia|].
    replace (Zdigits2 m + 1 - 1) with (Zdigits2 m) by lia.
    rewrite Z.pow_add_r by lia. simpl (2 ^ 1). lia.
  - left. apply Zdigits2_unique; [lia|]. lia.
Qed.

Lemma Zdigits2_mul_pow2 m n :
  0 < m -> 0 <= n -> Zdigits2 (m * 2 ^ n) = Zdigits2 m + n.
Proof.
  intros Hm Hn.
  pose proof (Zdigits2_bounds m Hm) as [Hlo Hhi].
  pose proof (Zdigits2_nonneg m) as Hd.
  assert (Hd1 : 0 < Zdigits2 m).
  { destruct m; simpl; lia. }
  assert (Hp : 0 < 2 ^ n) by (apply Z.pow_pos_nonneg; lia).
  apply Zdigits2_unique; [nia|].
  replace (Zdigits2 m + n - 1) with (Zdigits2 m - 1 + n) by lia.
  rewrite !Z.pow_add_r by lia. nia.
Qed.

(** ** Shifting right with a round bit and a sticky bit *)

Lemma shr_record_of_loc_bits m l :
  shr_record_of_loc m l =
  {| shr_m := m; shr_r := round_bit l; shr_s := sticky_bit l |}.
Proof. destruct l as [|[| |]]; reflexivity. Qed.

Lemma shr_1_nonneg m r s :
  0 <= m ->
  shr_1 {| shr_m := m; shr_r := r; shr_s := s |} =
  {| shr_m := Z.div2 m; shr_r := Z.odd m; shr_s := r || s |}.
Proof.
  intros Hm. destruct m as [|[p|p|]|p]; try lia; reflexivity.
Qed.

Lemma located_shr_1 x m u r s :
  0 <= m -> (0 <= u)%Q ->
  located x m u r s ->
  located x (Z.div2 m) (2 * u) (Z.odd m) (r || s).
Proof.
  intros Hm Hu H.
  pose proof (Z.div2_odd m) as E.
  assert (Eq : (inject_Z m ==
                2 * inject_Z (Z.div2 m) + inject_Z (Z.b2z (Z.odd m)))%Q).
  { rewrite E at 1. rewrite inject_Z_plus, inject_Z_mult. reflexivity. }
  assert (Hk : (0 <= inject_Z (Z.div2 m) * u)%Q).
  { apply Qmult_le_0_compat; [|exact Hu].
    change 0%Q with (inject_Z 0). apply inject_Z_le.
    apply Z.div2_nonneg. exact Hm. }
  unfold located in *.
  destruct (Z.odd m); simpl Z.b2z in Eq;
    change (inject_Z 1) with 1%Q in Eq; change (inject_Z 0) with 0%Q in Eq;
    destruct r, s; simpl orb; cbv iota; rewrite ?Eq in H; nra.
Qed.

Lemma iter_shr_1 x p : forall m u r s,
  0 <= m -> (0 <= u)%Q ->
  located x m u r s ->
  exists r' s',
    SpecFloat.iter_pos shr_1 p {| shr_m := m; shr_r := r; shr_s := s |} =
      {| shr_m := m / 2 ^ Zpos p; shr_r := r'; shr_s := s' |} /\
    located x (m / 2 ^ Zpos p) (pow2 (Zpos p) * u) r' s'.
Proof.
  assert (Step : forall m u r s, 0 <= m -> (0 <= u)%Q -> located x m u r s ->
            exists r' s',
              shr_1 {| shr_m := m; shr_r := r; shr_s := s |} =
                {| shr_m := m / 2 ^ 1; shr_r := r'; shr_s := s' |} /\
              located x (m / 2 ^ 1) (pow2 1 * u) r' s').
  { intros m u r s Hm Hu H. exists (Z.odd m), (r || s).
    rewrite shr_1_nonneg by exact Hm.
    change (2 ^ 1) with 2. rewrite <- Z.div2_div.
    split; [reflexivity|]. change (pow2 1) with 2%Q.
    apply located_shr_1; assumption. }
  assert (Double : forall q m u r s,
            (forall m u r s, 0 <= m -> (0 <= u)%Q -> located x m u r s ->
               exists r' s',
                 SpecFloat.iter_pos shr_1 q {| shr_m := m; shr_r := r; shr_s := s |} =
                   {| shr_m := m / 2 ^ Zpos q; shr_r := r'; shr_s := s' |} /\
                 located x (m / 2 ^ Zpos q) (pow2 (Zpos q) * u) r' s') ->
            0 <= m -> (0 <= u)%Q -> located x m u r s ->
            exists r' s',
              SpecFloat.iter_pos shr_1 q
                (SpecFloat.iter_pos shr_1 q {| shr_m := m; shr_r := r; shr_s := s |}) =
                {| shr_m := m / 2 ^ Zpos (q~0); shr_r := r'; shr_s := s' |} /\
              located x (m / 2 ^ Zpos (q~0)) (pow2 (Zpos (q~0)) * u) r' s').
  { intros q m u r s IH Hm Hu H.
    destruct (IH m u r s Hm Hu H) as (r1 & s1 & E1 & L1).
    assert (Hp : 0 < 2 ^ Zpos q) by (apply Z.pow_pos_nonneg; lia).
    assert (Hm1 : 0 <= m / 2 ^ Zpos q) by (apply Z.div_pos; lia).
    assert (Hu1 : (0 <= pow2 (Zpos q) * u)%Q).
    { apply Qmult_le_0_compat; [apply Qlt_le_weak, pow2_pos | exact Hu]. }
    destruct (IH _ _ r1 s1 Hm1 Hu1 L1) as (r2 & s2 & E2 & L2).
    exists r2, s2. rewrite E1, E2.
    assert (Ediv : m / 2 ^ Zpos q / 2 ^ Zpos q = m / 2 ^ Zpos (q~0)).
    { rewrite Z.div_div by lia. rewrite <- Z.pow_add_r by lia.
      replace (Zpos q + Zpos q) with (Zpos (q~0)) by lia. reflexivity. }
    rewrite Ediv in *. split; [reflexivity|].
    assert (Epow : (pow2 (Zpos q) * (pow2 (Zpos q) * u) ==
                    pow2 (Zpos (q~0)) * u)%Q).
    { replace (Zpos (q~0)) with (Zpos q + Zpos q) by lia.
      rewrite pow2_add. ring. }
    revert L2. unfold located.
    destruct r2, s2; rewrite Epow; trivial. }
  induction p as [p IH|p IH|]; intros m u r s Hm Hu H; cbn [SpecFloat.iter_pos].
  - destruct (Step m u r s Hm Hu H) as (r0 & s0 & E0 & L0).
    rewrite E0.
    assert (Hm0 : 0 <= m / 2 ^ 1) by (apply Z.div_pos; lia).
    assert (Hu0 : (0 <= pow2 1 * u)%Q).
    { apply Qmult_le_0_compat; [apply Qlt_le_weak, pow2_pos | exact Hu]. }
    destruct (Double p _ _ r0 s0 IH Hm0 Hu0 L0) as (r2 & s2 & E2 & L2).
    exists r2, s2. rewrite E2.
    assert (Ediv : m / 2 ^ 1 / 2 ^ Zpos (p~0) = m / 2 ^ Zpos (p~1)).
    { rewrite Z.div_div by lia. rewrite <- Z.pow_add_r by lia.
      replace (1 + Zpos (p~0)) with (Zpos (p~1)) by lia. reflexivity. }
    rewrite Ediv in *. split; [reflexivity|].
    assert (Epow : (pow2 (Zpos (p~0)) * (pow2 1 * u) ==
                    pow2 (Zpos (p~1)) * u)%Q).
    { replace (Zpos (p~1)) with (Zpos (p~0) + 1) by lia.
      rewrite pow2_add. ring. }
    revert L2. unfold located.
    destruct r2, s2; rewrite Epow; trivial.
  - apply Double; assumption.
  - apply Step; assumption.
Qed.

(** [shr] by [n] places: the mantissa loses its [n] low bits (none when
    [n <= 0]), the exponent gains as much, and [x] stays located. *)
Lemma shr_located x m e r s n :
  0 <= m -> located x m (pow2 e) r s ->
  exists r' s',
    shr {| shr_m := m; shr_r := r; shr_s := s |} e n =
      ({| shr_m := m / 2 ^ Z.max n 0; shr_r := r'; shr_s := s' |},
       e + Z.max n 0) /\
    located x (m / 2 ^ Z.max n 0) (pow2 (e + Z.max n 0)) r' s'.
Proof.
  intros Hm H. destruct n as [|p|p]; simpl shr.
  - exists r, s. simpl Z.max. rewrite Z.div_1_r, Z.add_0_r.
    split; [reflexivity|exact H].
  - destruct (iter_shr_1 x p m (pow2 e) r s Hm
                (Qlt_le_weak _ _ (pow2_pos e)) H) as (r' & s' & E & L).
    exists r', s'. rewrite E.
    replace (Z.max (Zpos p) 0) with (Zpos p) by lia.
    split; [reflexivity|].
    revert L. unfold located.
    destruct r', s'; rewrite (pow2_add e (Zpos p)), (Qmult_comm (pow2 e));
      trivial.
  - exists r, s. replace (Z.max (Zneg p) 0) with 0 by lia.
    simpl (2 ^ 0). rewrite Z.div_1_r, Z.add_0_r. split; [reflexivity|exact H].
Qed.

(** Rounding to nearest, ties to even, moves the mantissa by at most one and
    the value by at most half a unit. *)
Lemma round_nearest_even_located x m u r s :
  (0 <= u)%Q -> located x m u r s ->
  let m1 := round_nearest_even m
              (loc_of_shr_record {| shr_m := m; shr_r := r; shr_s := s |}) in
  (m1 = m \/ m1 = m + 1) /\
  (inject_Z m1 * u <= x + (1 # 2) * u)%Q /\
  (x - (1 # 2) * u <= inject_Z m1 * u)%Q.
Proof.
  intros Hu H. unfold located in H.
  destruct r, s; simpl.
  - split; [right; reflexivity|]. rewrite inject_Z_plus.
    change (inject_Z 1) with 1%Q. split; nra.
  - destruct (Z.even m).
    + split; [left; reflexivity|]. split; nra.
    + split; [right; reflexivity|]. rewrite inject_Z_plus.
      change (inject_Z 1) with 1%Q. split; nra.
  - split; [left; reflexivity|]. split; nra.
  - split; [left; reflexivity|]. split; nra.
Qed.

(** ** Rounding a located value to binary64 *)

Lemma fexp_eq e : fexp 53 1024 e = Z.max (e - 53) (-1074).
Proof. reflexivity. Qed.

Lemma located_lower x m u r s :
  (0 <= u)%Q -> located x m u r s -> (inject_Z m * u <= x)%Q.
Proof. intros Hu H. unfold located in H. destruct r, s; nra. Qed.

Lemma shr_exact m e n :
  0 <= m ->
  exists r' s',
    shr {| shr_m := m; shr_r := false; shr_s := false |} e n =
      ({| shr_m := m / 2 ^ Z.max n 0; shr_r := r'; shr_s := s' |},
       e + Z.max n 0).
Proof.
  intros Hm.
  destruct (shr_located (inject_Z m * pow2 e) m e false false n Hm)
    as (r' & s' & E & _); [simpl; reflexivity|].
  exists r', s'. exact E.
Qed.

Lemma binary_round_aux_correct sx mx ex lx x :
  0 <= mx ->
  located x mx (pow2 ex) (round_bit lx) (sticky_bit lx) ->
  ex <= fexp 53 1024 (Zdigits2 mx + ex) ->
  Zdigits2 mx + ex < 1024 ->
  let z := binary_round_aux 53 1024 sx mx ex lx in
  let h := pow2 (fexp 53 1024 (Zdigits2 mx + ex) - 1) in
  (z = S754_zero sx \/
   exists m e, z = S754_finite sx m e /\ bounded 53 1024 m e = true) /\
  (magnitude z <= x + h)%Q /\ (x - h <= magnitude z)%Q.
Proof.
  intros Hmx Hloc Hn Hmag.
  pose proof (Zdigits2_nonneg mx) as Hd.
  set (d := Zdigits2 mx) in *.
  set (e1 := fexp 53 1024 (d + ex)) in *.
  assert (He1 : e1 = Z.max (d + ex - 53) (-1074)) by apply fexp_eq.
  cbv zeta. unfold binary_round_aux, shr_fexp.
  rewrite shr_record_of_loc_bits. fold d. fold e1.
  destruct (shr_located x mx ex _ _ (e1 - ex) Hmx Hloc)
    as (r' & s' & E & L).
  rewrite E. clear E.
  replace (Z.max (e1 - ex) 0) with (e1 - ex) in * by lia.
  replace (ex + (e1 - ex)) with e1 in * by lia.
  set (m' := mx / 2 ^ (e1 - ex)) in *.
  assert (Hm' : 0 <= m').
  { apply Z.div_pos; [exact Hmx | apply Z.pow_pos_nonneg; lia]. }
  pose proof (pow2_pos e1) as Hu.
  pose proof (pow2_pred e1) as Hh.
  pose proof (located_lower x m' _ r' s' (Qlt_le_weak _ _ Hu) L) as Hx.
  destruct (round_nearest_even_located x m' (pow2 e1) r' s'
              (Qlt_le_weak _ _ Hu) L) as (Hm1 & Hup & Hlo).
  cbn [shr_m].
  set (m1 := round_nearest_even m'
               (loc_of_shr_record
                  {| shr_m := m'; shr_r := r'; shr_s := s' |})) in *.
  rewrite shr_record_of_loc_bits. cbn [round_bit sticky_bit].
  clearbody m1.
  assert (Hm1' : 0 <= m1) by lia.
  destruct (shr_exact m1 e1 (fexp 53 1024 (Zdigits2 m1 + e1) - e1) Hm1')
    as (r'' & s'' & E).
  rewrite E. clear E. cbn [shr_m].
  assert (Hx0 : (0 <= x)%Q).
  { assert (0 <= inject_Z m' * pow2 e1)%Q; [|lra].
    apply Qmult_le_0_compat; [|lra].
    change 0%Q with (inject_Z 0). apply inject_Z_le. exact Hm'. }
  destruct (Z.eq_dec m1 0) as [Z1|NZ1].
  - (* rounded to zero *)
    rewrite Z1 in *. rewrite Z.div_0_l
      by (apply Z.pow_nonzero; lia).
    split; [left; reflexivity|].
    simpl magnitude. change (inject_Z 0) with 0%Q in *. split; lra.
  - assert (Hpos1 : 0 < m1) by lia.
    pose proof (Zdigits2_bounds m1 Hpos1) as Hb1.
    (* the second shift is by 0 or 1 place, and then exact *)
    assert (Hn2 :
      (fexp 53 1024 (Zdigits2 m1 + e1) = e1) \/
      (fexp 53 1024 (Zdigits2 m1 + e1) = e1 + 1 /\
       m1 = 2 * 2 ^ (Zdigits2 m1 - 2) /\ 2 <= Zdigits2 m1)).
    { rewrite fexp_eq.
      destruct (Z.eq_dec m' 0) as [Z'|NZ'].
      - (* all of the mantissa was shifted out *)
        assert (m1 = 1) by lia. subst m1.
        simpl Zdigits2. left.
        assert (d + ex <= e1).
        { destruct (Z.eq_dec mx 0) as [Zx|NZx].
          - subst d. rewrite Zx in *. simpl Zdigits2 in *. lia.
          - destruct (Z_lt_le_dec (e1 - ex) d) as [Hlt|Hge]; [|lia].
            exfalso.
            pose proof (Zdigits2_div_pow2 mx (e1 - ex) ltac:(lia) ltac:(lia)
                          Hlt) as Hdd.
            fold d in Hdd. fold m' in Hdd. rewrite Z' in Hdd.
            simpl in Hdd. lia. }
        lia.
      - assert (Hmxpos : 0 < mx).
        { destruct (Z.eq_dec mx 0) as [Zx|]; [|lia].
          exfalso. apply NZ'. unfold m'. rewrite Zx.
          apply Z.div_0_l, Z.pow_nonzero; lia. }
        assert (Hlt : e1 - ex < d).
        { destruct (Z_lt_le_dec (e1 - ex) d) as [?|Hge]; [assumption|].
          exfalso. apply NZ'.
          apply Zdigits2_div_pow2_zero; [lia | exact Hge]. }
        pose proof (Zdigits2_div_pow2 mx (e1 - ex) Hmxpos ltac:(lia) Hlt)
          as Hd'.
        fold d in Hd'. fold m' in Hd'.
        destruct Hm1 as [Em1|Em1].
        + left. rewrite Em1, Hd'. lia.
        + destruct (Zdigits2_succ m' ltac:(lia)) as [Es|[Es Ep]].
          * left. rewrite Em1, Es, Hd'. lia.
          * rewrite Em1, Es, Hd'.
            destruct (Z.eq_dec (Z.max (d - (e1 - ex) + 1 + e1 - 53) (-1074))
                        e1) as [?|Hne]; [left; assumption|].
            right. split; [lia|].
            split; [|lia].
            rewrite Ep, Hd'.
            replace (d - (e1 - ex)) with (1 + (d - (e1 - ex) + 1 - 2)) at 1
              by lia.
            rewrite Z.pow_add_r by lia. reflexivity. }
    destruct Hn2 as [En2|(En2 & Epow & Hd2)].
    + (* no second shift *)
      rewrite En2. replace (e1 - e1) with 0 by lia.
      change (Z.max 0 0) with 0. change (2 ^ 0) with 1.
      rewrite Z.div_1_r, Z.add_0_r.
      destruct m1 as [|p1|p1]; try lia.
      assert (Hle : (e1 <=? 1024 - 53) = true) by (apply Z.leb_le; lia).
      rewrite Hle.
      split.
      * right. exists p1, e1. split; [reflexivity|].
        unfold bounded, canonical_mantissa.
        change (Zpos (digits2_pos p1)) with (Zdigits2 (Zpos p1)).
        rewrite En2, Z.eqb_refl, Hle. reflexivity.
      * simpl magnitude. split; lra.
    + (* a carry into a new digit: one more place, exactly *)
      rewrite En2. replace (e1 + 1 - e1) with 1 by lia.
      change (Z.max 1 0) with 1. change (2 ^ 1) with 2.
      assert (Ehalf : m1 / 2 = 2 ^ (Zdigits2 m1 - 2)).
      { symmetry. apply Z.div_unique_exact; [lia | exact Epow]. }
      rewrite Ehalf.
      assert (Hpp : 0 < 2 ^ (Zdigits2 m1 - 2))
        by (apply Z.pow_pos_nonneg; lia).
      destruct (2 ^ (Zdigits2 m1 - 2)) as [|p2|p2] eqn:Ep2; try lia.
      assert (Hle : (e1 + 1 <=? 1024 - 53) = true).
      { apply Z.leb_le. rewrite fexp_eq in En2. lia. }
      rewrite Hle.
      assert (Hd2' : Zdigits2 (Zpos p2) = Zdigits2 m1 - 1).
      { rewrite <- Ep2. apply Zdigits2_unique; [lia|].
        replace (Zdigits2 m1 - 1 - 1) with (Zdigits2 m1 - 2) by lia.
        split; [lia|]. apply Z.pow_lt_mono_r; lia. }
      split.
      * right. exists p2, (e1 + 1). split; [reflexivity|].
        unfold bounded, canonical_mantissa.
        change (Zpos (digits2_pos p2)) with (Zdigits2 (Zpos p2)).
        rewrite Hd2'.
        replace (Zdigits2 m1 - 1 + (e1 + 1)) with (Zdigits2 m1 + e1) by lia.
        rewrite En2, Z.eqb_refl, Hle. reflexivity.
      * simpl magnitude.
        assert (Ev : (inject_Z (Zpos p2) * pow2 (e1 + 1) ==
                      inject_Z m1 * pow2 e1)%Q).
        { rewrite pow2_succ, Epow, inject_Z_mult.
          change (inject_Z 2) with 2%Q. ring. }
        rewrite Ev. split; lra.
Qed.

(** Half a unit in the last place is a relative error of at most 2^-53 in
    the normal range, and 2^-1075 below it. *)
Lemma half_ulp_bound mx ex x :
  0 <= mx -> (inject_Z mx * pow2 ex <= x)%Q ->
  ex <= fexp 53 1024 (Zdigits2 mx + ex) ->
  (pow2 (fexp 53 1024 (Zdigits2 mx + ex) - 1)
   <= x * pow2 (-53) + pow2 (-1075))%Q.
Proof.
  intros Hmx Hx Hn. rewrite fexp_eq in *.
  pose proof (pow2_pos ex) as Hpe. pose proof (pow2_pos (-53)) as Hp53.
  pose proof (pow2_pos (-1075)) as Hpm.
  assert (Hx0 : (0 <= x)%Q).
  { assert (0 <= inject_Z mx * pow2 ex)%Q; [|lra].
    apply Qmult_le_0_compat; [|lra].
    change 0%Q with (inject_Z 0). apply inject_Z_le. exact Hmx. }
  destruct (Z_le_gt_dec (Zdigits2 mx + ex - 53) (-1074)) as [Hsub|Hnorm].
  - replace (Z.max (Zdigits2 mx + ex - 53) (-1074)) with (-1074) by lia.
    change (-1074 - 1) with (-1075). nra.
  - replace (Z.max (Zdigits2 mx + ex - 53) (-1074))
      with (Zdigits2 mx + ex - 53) in * by lia.
    assert (Hpos : 0 < mx).
    { destruct (Z.eq_dec mx 0) as [E|]; [|lia].
      rewrite E in Hn. simpl Zdigits2 in Hn. lia. }
    pose proof (Zdigits2_bounds mx Hpos) as [Hlo _].
    pose proof (Zdigits2_nonneg mx) as Hd.
    assert (Hd1 : 1 <= Zdigits2 mx) by (destruct mx; simpl in *; lia).
    assert (Hq : (pow2 (Zdigits2 mx - 1) <= inject_Z mx)%Q).
    { rewrite <- pow2_inject by lia. apply inject_Z_le. exact Hlo. }
    replace (Zdigits2 mx + ex - 53 - 1)
      with ((Zdigits2 mx - 1) + ex + -53) by lia.
    rewrite !pow2_add.
    pose proof (pow2_pos (Zdigits2 mx - 1)) as Hpd.
    assert (pow2 (Zdigits2 mx - 1) * pow2 ex <= x)%Q by nra.
    nra.
Qed.

(** ** Non-negative finite floats *)

Lemma bounded_canonical m e :
  bounded 53 1024 m e = true ->
  fexp 53 1024 (Zdigits2 (Zpos m) + e) = e /\ e <= 971.
Proof.
  unfold bounded, canonical_mantissa. intros H.
  apply andb_true_iff in H as [H1 H2].
  apply Z.eqb_eq in H1. apply Z.leb_le in H2.
  split; [exact H1 | exact H2].
Qed.

Lemma magnitude_nonneg z : (0 <= magnitude z)%Q.
Proof.
  destruct z as [s|s| |s m e]; simpl; try lra.
  apply Qmult_le_0_compat; [|apply Qlt_le_weak, pow2_pos].
  change 0%Q with (inject_Z 0). apply inject_Z_le. lia.
Qed.

Lemma magnitude_finite_pos s m e : (0 < magnitude (S754_finite s m e))%Q.
Proof.
  simpl. apply Qmult_lt_0_compat; [|apply pow2_pos].
  change 0%Q with (inject_Z 0). apply inject_Z_lt. lia.
Qed.

(** A value below [2^k] has its digits below position [k]. *)
Lemma digits_below m e k :
  0 < m -> (inject_Z m * pow2 e < pow2 k)%Q -> Zdigits2 m + e <= k.
Proof.
  intros Hm H.
  pose proof (Zdigits2_bounds m Hm) as [Hlo _].
  assert (Hd1 : 1 <= Zdigits2 m) by (destruct m; simpl in *; lia).
  assert (Hq : (pow2 (Zdigits2 m - 1) <= inject_Z m)%Q).
  { rewrite <- pow2_inject by lia. apply inject_Z_le. exact Hlo. }
  pose proof (pow2_pos e) as Hpe.
  assert (Hlt : (pow2 (Zdigits2 m - 1 + e) < pow2 k)%Q).
  { rewrite pow2_add. nra. }
  apply pow2_lt_inv in Hlt. lia.
Qed.

Lemma binary_round_aux_rounds_to mx ex lx x :
  0 <= mx ->
  located x mx (pow2 ex) (round_bit lx) (sticky_bit lx) ->
  ex <= fexp 53 1024 (Zdigits2 mx + ex) ->
  (x < pow2 1023)%Q ->
  rounds_to (binary_round_aux 53 1024 false mx ex lx) x.
Proof.
  intros Hmx Hloc Hn Hx.
  pose proof (located_lower x mx _ _ _ (Qlt_le_weak _ _ (pow2_pos ex)) Hloc)
    as Hlow.
  assert (Hmag : Zdigits2 mx + ex < 1024).
  { destruct (Z.eq_dec mx 0) as [E|NE].
    - rewrite E in *. simpl Zdigits2 in *. rewrite fexp_eq in Hn. lia.
    - assert (Zdigits2 mx + ex <= 1023); [|lia].
      apply digits_below; [lia|]. lra. }
  destruct (binary_round_aux_correct false mx ex lx x Hmx Hloc Hn Hmag)
    as (Hz & Hup & Hlo).
  pose proof (half_ulp_bound mx ex x Hmx Hlow Hn) as Hh.
  split; [|split; lra].
  destruct Hz as [->|(m & e & -> & Hb)].
  - split; [reflexivity | left; reflexivity].
  - split; [exact Hb | right; eauto].
Qed.

Lemma rounds_to_ext z q q' : (q == q')%Q -> rounds_to z q -> rounds_to z q'.
Proof.
  unfold rounds_to. intros E (H1 & H2 & H3). rewrite <- E.
  split; [exact H1|]. split; assumption.
Qed.

Lemma rounds_to_zero q : (q == 0)%Q -> rounds_to (S754_zero false) q.
Proof.
  intros Hq. split; [split; [reflexivity | left; reflexivity]|].
  pose proof (pow2_pos (-53)). pose proof (pow2_pos (-1075)).
  simpl magnitude. split; nra.
Qed.

Lemma rounds_to_self z q :
  nonneg_finite z -> (q == magnitude z)%Q -> rounds_to z q.
Proof.
  intros Hz Hq. split; [exact Hz|].
  pose proof (magnitude_nonneg z).
  pose proof (pow2_pos (-53)). pose proof (pow2_pos (-1075)).
  split; nra.
Qed.

(** ** Multiplication *)

Lemma SFmul_rounds_to x y :
  nonneg_finite x -> nonneg_finite y ->
  (magnitude x * magnitude y < pow2 1023)%Q ->
  rounds_to (SFmul 53 1024 x y) (magnitude x * magnitude y).
Proof.
  intros [Vx Hx] [Vy Hy] Hlt.
  destruct Hx as [->|(mx & ex & ->)]; destruct Hy as [->|(my & ey & ->)];
    try (apply rounds_to_zero; simpl magnitude; ring).
  simpl SFmul.
  apply bounded_canonical in Vx as [Cx Bx].
  apply bounded_canonical in Vy as [Cy By].
  rewrite fexp_eq in Cx, Cy.
  pose proof (Zdigits2_bounds (Zpos mx) ltac:(lia)) as [Lx Ux].
  pose proof (Zdigits2_bounds (Zpos my) ltac:(lia)) as [Ly Uy].
  assert (Dx : 1 <= Zdigits2 (Zpos mx)) by (simpl; lia).
  assert (Dy : 1 <= Zdigits2 (Zpos my)) by (simpl; lia).
  assert (Hd : Zdigits2 (Zpos mx) + Zdigits2 (Zpos my) - 1
               <= Zdigits2 (Zpos (mx * my))).
  { apply Zdigits2_ge; [|lia].
    replace (Zdigits2 (Zpos mx) + Zdigits2 (Zpos my) - 1 - 1)
      with ((Zdigits2 (Zpos mx) - 1) + (Zdigits2 (Zpos my) - 1)) by lia.
    rewrite Z.pow_add_r by lia. rewrite Pos2Z.inj_mul.
    apply Z.mul_le_mono_nonneg; try lia;
      apply Z.pow_nonneg; lia. }
  apply binary_round_aux_rounds_to.
  - lia.
  - simpl. rewrite Pos2Z.inj_mul, inject_Z_mult, pow2_add. ring.
  - rewrite fexp_eq. lia.
  - exact Hlt.
Qed.

(** ** Alignment, normalisation, addition *)

Lemma pos_iter_xO m d : Zpos (Pos.iter xO m d) = Zpos m * 2 ^ Zpos d.
Proof.
  induction d as [|d IH] using Pos.peano_ind.
  - simpl. lia.
  - rewrite Pos.iter_succ, Pos2Z.inj_xO, IH, Pos2Z.inj_succ.
    rewrite Z.pow_succ_r by lia. lia.
Qed.

Lemma shl_align_spec mx ex ex' :
  snd (shl_align mx ex ex') = Z.min ex ex' /\
  Zpos (fst (shl_align mx ex ex')) = Zpos mx * 2 ^ (ex - Z.min ex ex').
Proof.
  unfold shl_align. destruct (ex' - ex) as [|p|p] eqn:E; simpl fst; simpl snd.
  - replace (Z.min ex ex') with ex by lia. rewrite Z.sub_diag. simpl. lia.
  - replace (Z.min ex ex') with ex by lia. rewrite Z.sub_diag. simpl. lia.
  - replace (Z.min ex ex') with ex' by lia. split; [reflexivity|].
    rewrite pos_iter_xO. replace (ex - ex') with (Zpos p) by lia. reflexivity.
Qed.

Lemma pow2_split e ez : (pow2 e == pow2 (e - ez) * pow2 ez)%Q.
Proof.
  rewrite <- pow2_add. replace (e - ez + ez) with e by lia. reflexivity.
Qed.

Lemma binary_round_rounds_to mx ex :
  (inject_Z (Zpos mx) * pow2 ex < pow2 1023)%Q ->
  rounds_to (binary_round 53 1024 false mx ex) (inject_Z (Zpos mx) * pow2 ex).
Proof.
  intros Hlt. unfold binary_round.
  change (Zpos (digits2_pos mx)) with (Zdigits2 (Zpos mx)).
  set (t := fexp 53 1024 (Zdigits2 (Zpos mx) + ex)).
  destruct (shl_align_spec mx ex t) as [Es Em].
  destruct (shl_align mx ex t) as [mz ez]. simpl fst in Em. simpl snd in Es.
  assert (Hs : 0 <= ex - ez) by lia.
  assert (Hd : Zdigits2 (Zpos mz) = Zdigits2 (Zpos mx) + (ex - ez)).
  { rewrite Em, <- Es. apply Zdigits2_mul_pow2; lia. }
  assert (Ev : (inject_Z (Zpos mz) * pow2 ez ==
                inject_Z (Zpos mx) * pow2 ex)%Q).
  { rewrite Em, <- Es, inject_Z_mult, pow2_inject by lia.
    rewrite (pow2_split ex ez). ring. }
  assert (R : rounds_to (binary_round_aux 53 1024 false (Zpos mz) ez loc_Exact)
                (inject_Z (Zpos mz) * pow2 ez)).
  { apply binary_round_aux_rounds_to.
    - lia.
    - simpl. reflexivity.
    - rewrite Hd. replace (Zdigits2 (Zpos mx) + (ex - ez) + ez)
        with (Zdigits2 (Zpos mx) + ex) by lia.
      fold t. lia.
    - rewrite Ev. exact Hlt. }
  destruct R as (Hz & Hup & Hlo). split; [exact Hz|].
  rewrite Ev in Hup, Hlo. split; assumption.
Qed.

Lemma SFadd_rounds_to x y :
  nonneg_finite x -> nonneg_finite y ->
  (magnitude x + magnitude y < pow2 1023)%Q ->
  rounds_to (SFadd 53 1024 x y) (magnitude x + magnitude y).
Proof.
  intros Hx Hy Hlt.
  destruct Hx as [Vx [->|(mx & ex & ->)]];
    destruct Hy as [Vy [->|(my & ey & ->)]].
  - apply rounds_to_zero. simpl. ring.
  - apply rounds_to_self; [split; [exact Vy | right; eauto]|].
    simpl. ring.
  - apply rounds_to_self; [split; [exact Vx | right; eauto]|].
    simpl. ring.
  - simpl SFadd. unfold cond_Zopp.
    set (ez := Z.min ex ey).
    destruct (shl_align_spec mx ex ez) as [_ Ex].
    destruct (shl_align_spec my ey ez) as [_ Ey].
    replace (Z.min ex ez) with ez in Ex by lia.
    replace (Z.min ey ez) with ez in Ey by lia.
    set (ax := fst (shl_align mx ex ez)) in *.
    set (ay := fst (shl_align my ey ez)) in *.
    change (Zpos ax + Zpos ay) with (Zpos (ax + ay)).
    unfold binary_normalize.
    assert (Ev : (inject_Z (Zpos (ax + ay)) * pow2 ez ==
                  magnitude (S754_finite false mx ex) +
                  magnitude (S754_finite false my ey))%Q).
    { simpl magnitude. rewrite Pos2Z.inj_add, inject_Z_plus, Ex, Ey.
      rewrite !inject_Z_mult, !pow2_inject by lia.
      rewrite (pow2_split ex ez), (pow2_split ey ez). ring. }
    apply (rounds_to_ext _ _ _ Ev).
    apply binary_round_rounds_to. rewrite Ev. exact Hlt.
Qed.

(** Conversion of an unsigned integer. *)
Lemma of_Z_rounds_to n :
  0 <= n < 2 ^ 64 ->
  rounds_to (binary_normalize 53 1024 n 0 false) (inject_Z n).
Proof.
  intros [Hlo Hhi]. destruct n as [|p|p]; try lia.
  - apply rounds_to_zero. reflexivity.
  - simpl binary_normalize.
    assert (Ev : (inject_Z (Zpos p) * pow2 0 == inject_Z (Zpos p))%Q).
    { change (pow2 0) with 1%Q. ring. }
    apply (rounds_to_ext _ _ _ Ev).
    apply binary_round_rounds_to. rewrite Ev.
    apply Qlt_trans with (pow2 64).
    + rewrite <- pow2_inject by lia. apply inject_Z_lt. exact Hhi.
    + apply pow2_lt. lia.
Qed.

(** ** Division *)

(** Where the quotient [(q*b + r) / b] lies in its unit, from the remainder. *)
Lemma new_location_located b r q u x :
  0 < b -> 0 <= r < b -> (0 < u)%Q ->
  (x * inject_Z b == (inject_Z q * inject_Z b + inject_Z r) * u)%Q ->
  located x q u (round_bit (new_location b r))
    (sticky_bit (new_location b r)).
Proof.
  intros Hb [Hr0 Hrb] Hu Hx.
  assert (HB : (0 < inject_Z b)%Q).
  { change 0%Q with (inject_Z 0). apply inject_Z_lt. exact Hb. }
  assert (HR0 : (0 <= inject_Z r)%Q).
  { change 0%Q with (inject_Z 0). apply inject_Z_le. exact Hr0. }
  assert (HRb : (inject_Z r < inject_Z b)%Q) by (apply inject_Z_lt; exact Hrb).
  set (B := inject_Z b) in *. set (R := inject_Z r) in *.
  (* x = (q + rho) u with rho = R / B *)
  set (rho := (R / B)%Q).
  assert (Hrho : (rho * B == R)%Q).
  { unfold rho. field. lra. }
  assert (Hrho0 : (0 <= rho)%Q).
  { destruct (Qlt_le_dec rho 0) as [Hneg|]; [|assumption]. exfalso. nra. }
  assert (Hrho1 : (rho <= 1)%Q).
  { destruct (Qlt_le_dec 1 rho) as [Hbig|]; [|assumption]. exfalso. nra. }
  set (y := (rho * u)%Q).
  assert (Ex : (x == inject_Z q * u + y)%Q).
  { assert (E : (x * B == (inject_Z q * u + y) * B)%Q).
    { rewrite Hx. unfold y. rewrite <- Hrho. ring. }
    apply (Qmult_inj_r _ _ B); [lra | exact E]. }
  assert (Hy0 : (0 <= y)%Q) by (unfold y; nra).
  assert (Hy1 : (y <= u)%Q) by (unfold y; nra).
  assert (Half : forall c : comparison,
            (2 * r ?= b) = c ->
            match c with
            | Lt => (y <= (1 # 2) * u)%Q
            | Eq => (y == (1 # 2) * u)%Q
            | Gt => ((1 # 2) * u <= y)%Q
            end).
  { intros c Hc.
    assert (E2 : (inject_Z (2 * r) == 2 * R)%Q).
    { rewrite inject_Z_mult. reflexivity. }
    destruct c.
    - apply Z.compare_eq in Hc.
      assert (2 * R == B)%Q by (rewrite <- E2, Hc; reflexivity).
      assert (rho == 1 # 2)%Q.
      { apply (Qmult_inj_r _ _ B); [lra|]. nra. }
      unfold y. nra.
    - apply Z.compare_lt_iff in Hc. apply inject_Z_lt in Hc.
      fold B in Hc. rewrite E2 in Hc.
      assert (rho <= 1 # 2)%Q.
      { destruct (Qlt_le_dec (1 # 2) rho) as [Hbig|]; [|assumption].
        exfalso. nra. }
      unfold y. nra.
    - apply Z.compare_gt_iff in Hc. apply inject_Z_lt in Hc.
      fold B in Hc. rewrite E2 in Hc.
      assert ((1 # 2) <= rho)%Q.
      { destruct (Qlt_le_dec rho (1 # 2)) as [Hsmall|]; [|assumption].
        exfalso. nra. }
      unfold y. nra. }
  assert (Hexact : r = 0 -> located x q u false false).
  { intros Z0.
    assert (HR : (R == 0)%Q) by (unfold R; rewrite Z0; reflexivity).
    assert (Hr : (rho == 0)%Q).
    { apply (Qmult_inj_r _ _ B); [lra|]. nra. }
    assert (y == 0)%Q by (unfold y; nra).
    simpl. lra. }
  clearbody y. clear Hrho Hrho0 Hrho1. clearbody rho.
  unfold new_location.
  destruct (Z.even b) eqn:Eb.
  - unfold new_location_even.
    destruct (r =? 0) eqn:Hr; [apply Hexact, Z.eqb_eq, Hr|].
    pose proof (Half (2 * r ?= b) eq_refl) as H.
    destruct (2 * r ?= b); simpl; lra.
  - unfold new_location_odd.
    destruct (r =? 0) eqn:Hr; [apply Hexact, Z.eqb_eq, Hr|].
    destruct (2 * r + 1 ?= b) eqn:Hc.
    + apply Z.compare_eq in Hc.
      assert (Hlt : 2 * r < b) by lia.
      pose proof (Half Lt Hlt) as H. simpl in *. lra.
    + change (2 * r + 1 < b) in Hc.
      assert (Hlt : 2 * r < b) by lia.
      pose proof (Half Lt Hlt) as H. simpl in *. lra.
    + change (2 * r + 1 > b) in Hc.
      assert (Hodd : 2 * r <> b).
      { intros E. rewrite <- E in Eb.
        rewrite Z.even_mul in Eb. discriminate Eb. }
      assert (Hgt : 2 * r > b) by lia.
      pose proof (Half Gt Hgt) as H. simpl in *. lra.
Qed.

Lemma SFdiv_rounds_to x my ey :
  nonneg_finite x ->
  (magnitude x / magnitude (S754_finite false my ey) < pow2 1023)%Q ->
  rounds_to (SFdiv 53 1024 x (S754_finite false my ey))
    (magnitude x / magnitude (S754_finite false my ey)).
Proof.
  intros [Vx Hx] Hlt.
  pose proof (magnitude_finite_pos false my ey) as Hy.
  destruct Hx as [->|(mx & ex & ->)].
  - apply rounds_to_zero. simpl magnitude at 1. field. lra.
  - simpl SFdiv. unfold SFdiv_core_binary.
    set (d1 := Zdigits2 (Zpos mx)). set (d2 := Zdigits2 (Zpos my)).
    set (e' := Z.min (fexp 53 1024 (d1 + ex - (d2 + ey))) (ex - ey)).
    set (s := ex - ey - e').
    assert (Hs : 0 <= s) by (unfold s, e'; lia).
    assert (Em : forall k, 0 <= k ->
                 match k with
                 | 0 => Zpos mx
                 | Zpos _ => Z.shiftl (Zpos mx) k
                 | Zneg _ => 0
                 end = Zpos mx * 2 ^ k).
    { intros [|p|p] Hk; try lia.
      apply Z.shiftl_mul_pow2. lia. }
    rewrite (Em s Hs). clear Em.
    assert (Hp : 0 < 2 ^ s) by (apply Z.pow_pos_nonneg; lia).
    pose proof (Z_div_mod (Zpos mx * 2 ^ s) (Zpos my) ltac:(lia)) as Hdm.
    destruct (Z.div_eucl (Zpos mx * 2 ^ s) (Zpos my)) as [q r].
    destruct Hdm as [Eqr Hr].
    assert (Hq : 0 <= q) by nia.
    pose proof (Zdigits2_bounds (Zpos mx) ltac:(lia)) as [L1 U1].
    pose proof (Zdigits2_bounds (Zpos my) ltac:(lia)) as [L2 U2].
    fold d1 in L1, U1. fold d2 in L2, U2.
    assert (D1 : 1 <= d1) by (unfold d1; simpl; lia).
    assert (D2 : 1 <= d2) by (unfold d2; simpl; lia).
    pose proof (Zdigits2_nonneg q) as Dq.
    assert (Hdq : d1 + s - d2 <= Zdigits2 q).
    { destruct (Z_le_gt_dec (d1 + s - d2) 0) as [?|Hpos]; [lia|].
      apply Zdigits2_ge; [|lia].
      set (k := d1 + s - d2 - 1).
      assert (Hk : 0 <= k) by (unfold k; lia).
      assert (E1 : 2 ^ (d1 - 1) * 2 ^ s = 2 ^ k * 2 ^ d2).
      { rewrite <- !Z.pow_add_r by lia. f_equal. unfold k. lia. }
      assert (Hpk : 0 < 2 ^ k) by (apply Z.pow_pos_nonneg; lia).
      assert (Hpd : 0 < 2 ^ d2) by (apply Z.pow_pos_nonneg; lia).
      assert (2 ^ k * 2 ^ d2 < (q + 1) * 2 ^ d2) by nia.
      assert (2 ^ k < q + 1) by nia. lia. }
    apply binary_round_aux_rounds_to.
    + exact Hq.
    + apply new_location_located; [lia | exact Hr | apply pow2_pos |].
      assert (Eqr' : (inject_Z (Zpos my) * inject_Z q + inject_Z r ==
                      inject_Z (Zpos mx) * pow2 s)%Q).
      { rewrite <- pow2_inject by exact Hs.
        rewrite <- !inject_Z_mult, <- inject_Z_plus, Eqr. reflexivity. }
      simpl magnitude.
      assert (Hpe : (pow2 ex == pow2 s * pow2 e' * pow2 ey)%Q).
      { rewrite <- !pow2_add. replace (s + e' + ey) with ex by (unfold s; lia).
        reflexivity. }
      pose proof (pow2_pos ey). pose proof (pow2_pos e').
      assert (HY : (0 < inject_Z (Zpos my))%Q).
      { change 0%Q with (inject_Z 0). apply inject_Z_lt. lia. }
      rewrite Hpe.
      transitivity ((inject_Z (Zpos my) * inject_Z q + inject_Z r) * pow2 e')%Q;
        [|ring].
      rewrite Eqr'. field. split; lra.
    + assert (He' : e' <= fexp 53 1024 (d1 + ex - (d2 + ey)))
        by (unfold e'; lia).
      assert (Es : s = ex - ey - e') by reflexivity.
      rewrite fexp_eq in *. clearbody s e'. lia.
    + exact Hlt.
Qed.

(** ** Comparison *)

Lemma canonical_lt m1 e1 m2 e2 :
  bounded 53 1024 m1 e1 = true -> bounded 53 1024 m2 e2 = true ->
  e1 < e2 ->
  (inject_Z (Zpos m1) * pow2 e1 < inject_Z (Zpos m2) * pow2 e2)%Q.
Proof.
  intros B1 B2 Hlt.
  apply bounded_canonical in B1 as [C1 _].
  apply bounded_canonical in B2 as [C2 _].
  rewrite fexp_eq in C1, C2.
  pose proof (Zdigits2_bounds (Zpos m1) ltac:(lia)) as [_ U1].
  pose proof (Zdigits2_bounds (Zpos m2) ltac:(lia)) as [L2 _].
  assert (D1 : Zdigits2 (Zpos m1) <= 53) by lia.
  assert (D2 : Zdigits2 (Zpos m2) = 53) by lia.
  rewrite D2 in L2. simpl (53 - 1) in L2.
  assert (H1 : Zpos m1 < 2 ^ 53).
  { assert (2 ^ Zdigits2 (Zpos m1) <= 2 ^ 53)
      by (apply Z.pow_le_mono_r; lia). lia. }
  apply inject_Z_lt in H1. apply inject_Z_le in L2.
  rewrite pow2_inject in H1, L2 by lia.
  assert (A : (inject_Z (Zpos m1) * pow2 e1 < pow2 53 * pow2 e1)%Q).
  { apply Qmult_lt_compat_r; [apply pow2_pos | exact H1]. }
  assert (B : (pow2 52 * pow2 e2 <= inject_Z (Zpos m2) * pow2 e2)%Q).
  { apply Qmult_le_compat_r; [exact L2 | apply Qlt_le_weak, pow2_pos]. }
  assert (C : (pow2 53 * pow2 e1 <= pow2 52 * pow2 e2)%Q).
  { rewrite <- !pow2_add. apply pow2_le. lia. }
  lra.
Qed.

(** On non-negative finite floats, [SFltb] is the order of the values. *)
Lemma SFltb_magnitude x y :
  nonneg_finite x -> nonneg_finite y ->
  (SFltb x y = true <-> (magnitude x < magnitude y)%Q).
Proof.
  intros [Vx Hx] [Vy Hy].
  destruct Hx as [->|(mx & ex & ->)]; destruct Hy as [->|(my & ey & ->)].
  - simpl. split; [discriminate | lra].
  - pose proof (magnitude_finite_pos false my ey) as H.
    unfold SFltb. simpl SFcompare. simpl magnitude at 1.
    split; [intros _; exact H | reflexivity].
  - pose proof (magnitude_finite_pos false mx ex) as H.
    unfold SFltb. simpl SFcompare. simpl magnitude at 2.
    split; [discriminate | lra].
  - unfold SFltb. simpl SFcompare. simpl in Vx, Vy. simpl magnitude.
    destruct (ex ?= ey) eqn:Hc.
    + apply Z.compare_eq in Hc. subst ey.
      change (Pos.compare_cont Eq mx my) with (mx ?= my)%positive.
      pose proof (pow2_pos ex) as Hp.
      destruct (mx ?= my)%positive eqn:Hm.
      * apply Pos.compare_eq in Hm. subst my. split; [discriminate | lra].
      * split; [intros _|reflexivity].
        assert (inject_Z (Zpos mx) < inject_Z (Zpos my))%Q
          by (apply inject_Z_lt; exact Hm).
        nra.
      * split; [discriminate|].
        assert (inject_Z (Zpos my) < inject_Z (Zpos mx))%Q.
        { apply inject_Z_lt. apply Pos.compare_gt_iff in Hm. lia. }
        nra.
    + change (ex < ey) in Hc. split; [intros _|reflexivity].
      apply canonical_lt; assumption.
    + change (ex > ey) in Hc. split; [discriminate|].
      pose proof (canonical_lt my ey mx ex Vy Vx ltac:(lia)). lra.
Qed.

(** ** The algebra of the clamp *)

Section ClampAlgebra.

Local Open Scope Q_scope.

Lemma Qpos_factor (t y : Q) : 0 < t -> 0 <= t * y -> 0 <= y.
Proof.
  intros Ht H. destruct (Qlt_le_dec y 0) as [Hn|]; [|assumption].
  exfalso. nra.
Qed.

(** From [P (1 - u) <= X] to [P <= X (1 + 2u)], for a small [u]. *)
Lemma undo_relative_error (P X u : Q) :
  0 <= X -> 0 <= u -> u <= 1 # 4 -> P - P * u <= X -> P <= X * (1 + 2 * u).
Proof.
  intros HX Hu Hu1 H.
  assert (F : 0 <= X * u * (1 - 2 * u)).
  { apply Qmult_le_0_compat; [apply Qmult_le_0_compat; assumption | lra]. }
  assert (G : 0 <= (1 - u) * (X * (1 + 2 * u) - P)).
  { assert (E : (1 - u) * (X * (1 + 2 * u) - P) ==
                (X - (P - P * u)) + X * u * (1 - 2 * u)) by ring.
    rewrite E. lra. }
  apply Qpos_factor in G; lra.
Qed.

Lemma scaled_algebra (a b R c q j a' b' u eta K : Q) :
  0 <= a -> 0 <= b -> 0 <= c -> 0 < R -> R <= K -> c <= R -> q * R == c ->
  0 < u -> u <= 1 # 16 -> 0 <= eta -> eta <= 1 # 2 ->
  (a + b) - ((a + b) * u + eta) <= R ->
  0 <= j -> j <= q + (q * u + eta) ->
  a' <= a * j + (a * j * u + eta) ->
  b' <= b * j + (b * j * u + eta) ->
  a' + b' <= c * (1 + 8 * u) + eta * (2 * K + 6).
Proof.
  intros Ha Hb Hc HR HK HcR Hq Hu Hu1 He He1 HS Hj0 Hj Ha' Hb'.
  assert (Hq0 : 0 <= q).
  { destruct (Qlt_le_dec q 0) as [Hn|]; [|assumption]. exfalso. nra. }
  assert (Hq1 : q <= 1).
  { destruct (Qlt_le_dec 1 q) as [Hn|]; [|assumption]. exfalso. nra. }
  assert (Hqu : q * u <= u) by nra.
  assert (Hj2 : j <= 2) by lra.
  (* j R <= c (1 + u) + eta R *)
  assert (HjR : j * R <= c * (1 + u) + eta * R).
  { assert (j * R <= (q + (q * u + eta)) * R) by nra.
    assert (E : (q + (q * u + eta)) * R == (q * R) * (1 + u) + eta * R) by ring.
    rewrite E, Hq in H. exact H. }
  set (P := (a + b) * j).
  assert (HP0 : 0 <= P).
  { unfold P. apply Qmult_le_0_compat; lra. }
  assert (H1 : P - P * u <= j * R + eta * j).
  { assert (E : P - P * u == ((a + b) - ((a + b) * u + eta)) * j + eta * j)
      by (unfold P; ring).
    rewrite E.
    assert (((a + b) - ((a + b) * u + eta)) * j <= R * j)
      by (apply Qmult_le_compat_r; assumption).
    lra. }
  assert (HeR : eta * R <= eta * K) by nra.
  assert (Hej : eta * j <= eta * 2) by nra.
  assert (H2 : P - P * u <= c * (1 + u) + eta * (K + 2)) by lra.
  assert (HX : 0 <= c * (1 + u) + eta * (K + 2)).
  { assert (0 <= c * (1 + u)) by (apply Qmult_le_0_compat; lra).
    assert (0 <= eta * (K + 2)) by (apply Qmult_le_0_compat; lra). lra. }
  pose proof (undo_relative_error P _ u HX ltac:(lra) ltac:(lra) H2) as H3.
  assert (H4 : a' + b' <= P * (1 + u) + 2 * eta).
  { unfold P. lra. }
  set (X := c * (1 + u) + eta * (K + 2)) in *.
  assert (H5 : P * (1 + u) <= X * (1 + 2 * u) * (1 + u)).
  { apply Qmult_le_compat_r; lra. }
  (* (1+u)^2 (1+2u) <= 1 + 8u and (1+2u)(1+u) <= 2 *)
  assert (Hcu : 0 <= c * u) by (apply Qmult_le_0_compat; lra).
  assert (Hcu2 : c * u * u <= c * u * (1 # 16)).
  { assert (E : c * u * (1 # 16) - c * u * u == c * u * ((1 # 16) - u)) by ring.
    assert (0 <= c * u * ((1 # 16) - u)) by (apply Qmult_le_0_compat; lra).
    lra. }
  assert (Hcu3 : c * u * u * u <= c * u * (1 # 16) * (1 # 16)).
  { assert (0 <= c * u * u).
    { apply Qmult_le_0_compat; lra. }
    assert (c * u * u * u <= c * u * u * (1 # 16)).
    { assert (E : c * u * u * (1 # 16) - c * u * u * u ==
                  c * u * u * ((1 # 16) - u)) by ring.
      assert (0 <= c * u * u * ((1 # 16) - u))
        by (apply Qmult_le_0_compat; lra).
      lra. }
    lra. }
  assert (HeK : 0 <= eta * (K + 2)) by (apply Qmult_le_0_compat; lra).
  assert (HeKu : eta * (K + 2) * (1 + 2 * u) * (1 + u) <= eta * (K + 2) * 2).
  { assert (E : eta * (K + 2) * 2 - eta * (K + 2) * (1 + 2 * u) * (1 + u) ==
                eta * (K + 2) * (2 - (1 + 2 * u) * (1 + u))) by ring.
    assert (0 <= 2 - (1 + 2 * u) * (1 + u)) by nra.
    assert (0 <= eta * (K + 2) * (2 - (1 + 2 * u) * (1 + u)))
      by (apply Qmult_le_0_compat; assumption).
    lra. }
  assert (E : X * (1 + 2 * u) * (1 + u) ==
              c + 4 * (c * u) + 5 * (c * u * u) + 2 * (c * u * u * u)
              + eta * (K + 2) * (1 + 2 * u) * (1 + u)).
  { unfold X. ring. }
  rewrite E in H5. lra.
Qed.

Lemma unscaled_algebra (a b R c u eta K : Q) :
  0 <= a -> 0 <= b -> 0 <= c -> 0 <= K -> R <= c ->
  0 < u -> u <= 1 # 16 -> 0 <= eta ->
  (a + b) - ((a + b) * u + eta) <= R ->
  a + b <= c * (1 + 8 * u) + eta * (2 * K + 6).
Proof.
  intros Ha Hb Hc HK HR Hu Hu1 He HS.
  assert (H : a + b <= (c + eta) * (1 + 2 * u)).
  { apply undo_relative_error; lra. }
  assert (0 <= c * u) by (apply Qmult_le_0_compat; lra).
  assert (0 <= eta * K) by (apply Qmult_le_0_compat; lra).
  assert (eta * u <= eta * (1 # 16)) by nra.
  lra.
Qed.

End ClampAlgebra.

(** ** The clamp of the recent counters *)

Lemma rounds_to_upper z x k :
  rounds_to z x -> (0 <= x)%Q -> (x < pow2 k)%Q -> -1000 <= k ->
  (magnitude z < pow2 (k + 1))%Q.
Proof.
  intros (_ & Hup & _) Hx Hlt Hk.
  pose proof (pow2_pos (-53)) as Hu.
  assert (A : (x * pow2 (-53) <= pow2 k * pow2 (-53))%Q).
  { apply Qmult_le_compat_r; lra. }
  rewrite <- pow2_add in A.
  assert (B : (pow2 (k + -53) <= pow2 (k - 1))%Q) by (apply pow2_le; lia).
  assert (C : (pow2 (-1075) <= pow2 (k - 1))%Q) by (apply pow2_le; lia).
  pose proof (pow2_pred k) as D. pose proof (pow2_succ k) as E.
  lra.
Qed.

Lemma of_uint64_rounds_to n :
  U64.in_range n ->
  rounds_to (F64.of_uint64 n) (inject_Z n) /\
  (magnitude (F64.of_uint64 n) < pow2 65)%Q.
Proof.
  intros Hn. unfold U64.in_range, U64.modulus in Hn.
  pose proof (of_Z_rounds_to n Hn) as R.
  split; [exact R|].
  apply (rounds_to_upper _ _ 64 R).
  - change 0%Q with (inject_Z 0). apply inject_Z_le. lia.
  - rewrite <- pow2_inject by lia. apply inject_Z_lt. lia.
  - lia.
Qed.

Lemma F64_add_rounds_to x y k :
  nonneg_finite x -> nonneg_finite y ->
  (magnitude x < pow2 k)%Q -> (magnitude y < pow2 k)%Q ->
  -1000 <= k <= 1000 ->
  rounds_to (F64.add x y) (magnitude x + magnitude y) /\
  (magnitude (F64.add x y) < pow2 (k + 2))%Q.
Proof.
  intros Hx Hy Bx By Hk.
  pose proof (pow2_succ k) as E.
  assert (Hs : (magnitude x + magnitude y < pow2 (k + 1))%Q) by lra.
  assert (R : rounds_to (F64.add x y) (magnitude x + magnitude y)).
  { apply SFadd_rounds_to; try assumption.
    apply Qlt_le_trans with (pow2 (k + 1)); [exact Hs|].
    apply pow2_le. lia. }
  split; [exact R|].
  replace (k + 2) with (k + 1 + 1) by lia.
  apply (rounds_to_upper _ _ _ R); [|exact Hs|lia].
  pose proof (magnitude_nonneg x). pose proof (magnitude_nonneg y). lra.
Qed.

(** Multiplying by a factor of at most 1. *)
Lemma F64_mul_fraction_rounds_to x w k :
  nonneg_finite x -> nonneg_finite w ->
  (magnitude x < pow2 k)%Q -> (magnitude w <= 1)%Q ->
  -1000 <= k <= 1022 ->
  rounds_to (F64.mul x w) (magnitude x * magnitude w) /\
  (magnitude (F64.mul x w) < pow2 (k + 1))%Q.
Proof.
  intros Hx Hw Bx Bw Hk.
  pose proof (magnitude_nonneg x) as Px. pose proof (magnitude_nonneg w) as Pw.
  assert (Hp : (magnitude x * magnitude w <= magnitude x)%Q) by nra.
  assert (R : rounds_to (F64.mul x w) (magnitude x * magnitude w)).
  { apply SFmul_rounds_to; try assumption.
    apply Qle_lt_trans with (magnitude x); [exact Hp|].
    apply Qlt_le_trans with (pow2 k); [exact Bx|].
    apply pow2_le. lia. }
  split; [exact R|].
  apply (rounds_to_upper _ _ _ R); [|lra|lia].
  apply Qmult_le_0_compat; assumption.
Qed.

Lemma gt_magnitude x y :
  nonneg_finite x -> nonneg_finite y ->
  (F64.gt x y = true <-> (magnitude y < magnitude x)%Q).
Proof. intros Hx Hy. unfold F64.gt. apply SFltb_magnitude; assumption. Qed.

Lemma tolerance_constants (c : Q) :
  (0 <= c)%Q ->
  (c * (1 + 8 * pow2 (-53)) + pow2 (-1075) * (2 * pow2 67 + 6)
   <= c * (1 + pow2 (-50)) + pow2 (-1000))%Q.
Proof.
  intros Hc.
  assert (E1 : (pow2 (-50) == 8 * pow2 (-53))%Q).
  { replace (-50) with (3 + -53) by lia. rewrite pow2_add. reflexivity. }
  assert (E2 : (pow2 (-1075) * (2 * pow2 67 + 6) <= pow2 (-1000))%Q).
  { assert (A : (2 * pow2 67 + 6 <= pow2 69)%Q).
    { assert (H68 : (pow2 68 == 2 * pow2 67)%Q) by (apply (pow2_succ 67)).
      assert (H69 : (pow2 69 == 2 * pow2 68)%Q) by (apply (pow2_succ 68)).
      assert (H3 : (pow2 3 <= pow2 67)%Q) by (apply pow2_le; lia).
      change (pow2 3) with 8%Q in H3. lra. }
    assert (B : (pow2 (-1075) * (2 * pow2 67 + 6)
                 <= pow2 (-1075) * pow2 69)%Q).
    { apply Qmult_le_l; [apply pow2_pos | exact A]. }
    rewrite <- pow2_add in B.
    assert (C : (pow2 (-1075 + 69) <= pow2 (-1000))%Q) by (apply pow2_le; lia).
    lra. }
  rewrite E1. lra.
Qed.

Lemma unit_roundoff_small : (0 < pow2 (-53) /\ pow2 (-53) <= 1 # 16)%Q.
Proof.
  split; [apply pow2_pos|].
  assert (H : (pow2 (-53) <= pow2 (-4))%Q) by (apply pow2_le; lia).
  exact H.
Qed.

Lemma underflow_unit_small : (0 <= pow2 (-1075) /\ pow2 (-1075) <= 1 # 2)%Q.
Proof.
  split; [apply Qlt_le_weak, pow2_pos|].
  assert (H : (pow2 (-1075) <= pow2 (-1))%Q) by (apply pow2_le; lia).
  exact H.
Qed.

(** The clamp of lines 44-48 and 50-54, for whatever cap. *)
Lemma clamp_bound cap rs rf :
  nonneg_finite cap -> nonneg_finite rs -> nonneg_finite rf ->
  (magnitude rs < pow2 65)%Q -> (magnitude rf < pow2 65)%Q ->
  let clamped :=
    if F64.gt (F64.add rs rf) cap then
      (F64.mul rs (F64.div cap (F64.add rs rf)),
       F64.mul rf (F64.div cap (F64.add rs rf)))
    else (rs, rf) in
  nonneg_finite (fst clamped) /\ nonneg_finite (snd clamped) /\
  (magnitude (fst clamped) < pow2 67)%Q /\
  (magnitude (snd clamped) < pow2 67)%Q /\
  (magnitude (fst clamped) + magnitude (snd clamped)
   <= magnitude cap * (1 + pow2 (-50)) + pow2 (-1000))%Q.
Proof.
  intros Hcap Hrs Hrf Brs Brf.
  assert (Hmono : (pow2 65 <= pow2 67)%Q) by (apply pow2_le; lia).
  destruct (F64_add_rounds_to rs rf 65 Hrs Hrf Brs Brf ltac:(lia))
    as [RR BR].
  change (65 + 2) with 67 in BR.
  set (R := F64.add rs rf) in *.
  pose proof (magnitude_nonneg rs) as Prs.
  pose proof (magnitude_nonneg rf) as Prf.
  pose proof (magnitude_nonneg cap) as Pcap.
  destruct unit_roundoff_small as [Hu0 Hu1].
  destruct underflow_unit_small as [He0 He1].
  pose proof (pow2_pos 67) as HK.
  destruct RR as (HR & _ & HRlo).
  cbv zeta.
  destruct (F64.gt R cap) eqn:Hgt.
  - apply (gt_magnitude R cap HR Hcap) in Hgt.
    (* R is a positive number *)
    destruct HR as [VR [EZ|(mR & eR & ER)]].
    { rewrite EZ in Hgt. simpl magnitude in Hgt. lra. }
    set (q := (magnitude cap / magnitude R)%Q).
    assert (HqR : (q * magnitude R == magnitude cap)%Q).
    { unfold q. field. lra. }
    assert (Hq1 : (q <= 1)%Q).
    { destruct (Qlt_le_dec 1 q) as [Hn|]; [|assumption]. exfalso. nra. }
    assert (Hq0 : (0 <= q)%Q).
    { destruct (Qlt_le_dec q 0) as [Hn|]; [|assumption]. exfalso. nra. }
    assert (Radj : rounds_to (F64.div cap R) q).
    { unfold q. rewrite ER. apply SFdiv_rounds_to; [exact Hcap|].
      rewrite <- ER. fold q.
      apply Qle_lt_trans with 1%Q; [exact Hq1|].
      change 1%Q with (pow2 0). apply pow2_lt. lia. }
    assert (Badj : (magnitude (F64.div cap R) < pow2 1)%Q).
    { apply (rounds_to_upper _ _ 0 Radj); [exact Hq0 | | lia].
      destruct (Qlt_le_dec q 1) as [?|Hge]; [assumption|].
      (* q = 1 would mean cap = R *)
      exfalso. nra. }
    set (adj := F64.div cap R) in *.
    destruct Radj as (Hadj & Hadj_up & _).
    pose proof (magnitude_nonneg adj) as Padj.
    assert (Mul : forall r, nonneg_finite r -> (magnitude r < pow2 65)%Q ->
              rounds_to (F64.mul r adj) (magnitude r * magnitude adj) /\
              (magnitude (F64.mul r adj) < pow2 67)%Q).
    { intros r Hr Br.
      pose proof (magnitude_nonneg r).
      assert (Hp : (magnitude r * magnitude adj < pow2 65 * pow2 1)%Q) by nra.
      rewrite <- pow2_add in Hp. change (65 + 1) with 66 in Hp.
      assert (Rm : rounds_to (F64.mul r adj) (magnitude r * magnitude adj)).
      { apply SFmul_rounds_to; try assumption.
        apply Qlt_trans with (pow2 66); [exact Hp|].
        apply pow2_lt. lia. }
      split; [exact Rm|].
      apply (rounds_to_upper _ _ 66 Rm); [|exact Hp|lia].
      apply Qmult_le_0_compat; assumption. }
    destruct (Mul rs Hrs Brs) as ((H1 & H1up & _) & B1).
    destruct (Mul rf Hrf Brf) as ((H2 & H2up & _) & B2).
    simpl fst. simpl snd.
    split; [exact H1|]. split; [exact H2|].
    split; [exact B1|]. split; [exact B2|].
    apply Qle_trans with
      (magnitude cap * (1 + 8 * pow2 (-53))
       + pow2 (-1075) * (2 * pow2 67 + 6))%Q;
      [|apply tolerance_constants; exact Pcap].
    apply (scaled_algebra (magnitude rs) (magnitude rf) (magnitude R)
             (magnitude cap) q (magnitude adj)); try assumption; try lra.
  - assert (Hle : (magnitude R <= magnitude cap)%Q).
    { destruct (Qlt_le_dec (magnitude cap) (magnitude R)) as [Hlt|];
        [|assumption].
      apply (gt_magnitude R cap HR Hcap) in Hlt. congruence. }
    simpl fst. simpl snd.
    split; [exact Hrs|]. split; [exact Hrf|].
    split; [lra|]. split; [lra|].
    apply Qle_trans with
      (magnitude cap * (1 + 8 * pow2 (-53))
       + pow2 (-1075) * (2 * pow2 67 + 6))%Q;
      [|apply tolerance_constants; exact Pcap].
    apply (unscaled_algebra (magnitude rs) (magnitude rf) (magnitude R));
      try assumption; try lra.
Qed.

Lemma F64_fraction_mul_rounds_to w x k :
  nonneg_finite w -> nonneg_finite x ->
  (magnitude w <= 1)%Q -> (magnitude x < pow2 k)%Q ->
  -1000 <= k <= 1022 ->
  rounds_to (F64.mul w x) (magnitude w * magnitude x) /\
  (magnitude (F64.mul w x) < pow2 (k + 1))%Q.
Proof.
  intros Hw Hx Bw Bx Hk.
  pose proof (magnitude_nonneg x) as Px. pose proof (magnitude_nonneg w) as Pw.
  assert (Hp : (magnitude w * magnitude x <= magnitude x)%Q) by nra.
  assert (R : rounds_to (F64.mul w x) (magnitude w * magnitude x)).
  { apply SFmul_rounds_to; try assumption.
    apply Qle_lt_trans with (magnitude x); [exact Hp|].
    apply Qlt_le_trans with (pow2 k); [exact Bx|].
    apply pow2_le. lia. }
  split; [exact R|].
  apply (rounds_to_upper _ _ _ R); [|lra|lia].
  apply Qmult_le_0_compat; assumption.
Qed.

Lemma decayOneBlock_bounds decay limit host :
  nonneg_finite decay -> (magnitude decay <= 1)%Q ->
  counters_in_range host ->
  nonneg_finite (fst (decayOneBlock decay limit host)) /\
  nonneg_finite (snd (decayOneBlock decay limit host)) /\
  (magnitude (fst (decayOneBlock decay limit host)) < pow2 66)%Q /\
  (magnitude (snd (decayOneBlock decay limit host)) < pow2 66)%Q.
Proof.
  intros Hd Bd (Hs & Hf & _ & _).
  destruct (of_uint64_rounds_to _ Hs) as [[Vs _] Bs].
  destruct (of_uint64_rounds_to _ Hf) as [[Vf _] Bf].
  assert (Hmono : (pow2 65 <= pow2 66)%Q) by (apply pow2_le; lia).
  unfold decayOneBlock.
  destruct (F64.gt _ limit).
  - destruct (F64_mul_fraction_rounds_to _ decay 65 Vs Hd Bs Bd ltac:(lia))
      as [[V1 _] B1].
    destruct (F64_mul_fraction_rounds_to _ decay 65 Vf Hd Bf Bd ltac:(lia))
      as [[V2 _] B2].
    simpl fst. simpl snd. tauto.
  - simpl fst. simpl snd.
    split; [exact Vs|]. split; [exact Vf|]. split; lra.
Qed.

Lemma clampRecent_bounds limit weight product hsi hfi rs rf :
  nonneg_finite limit -> (magnitude limit < pow2 1022)%Q ->
  nonneg_finite weight -> (magnitude weight <= 1)%Q ->
  nonneg_finite product ->
  nonneg_finite hsi -> nonneg_finite hfi ->
  (magnitude hsi < pow2 66)%Q -> (magnitude hfi < pow2 66)%Q ->
  nonneg_finite rs -> nonneg_finite rf ->
  (magnitude rs < pow2 65)%Q -> (magnitude rf < pow2 65)%Q ->
  let recent := clampRecent limit weight product hsi hfi rs rf in
  let cap := recentCap limit weight product hsi hfi in
  nonneg_finite cap /\
  nonneg_finite (fst recent) /\ nonneg_finite (snd recent) /\
  (magnitude (fst recent) < pow2 67)%Q /\
  (magnitude (snd recent) < pow2 67)%Q /\
  (magnitude (fst recent) + magnitude (snd recent)
   <= magnitude cap * (1 + pow2 (-50)) + pow2 (-1000))%Q.
Proof.
  intros Hl Bl Hw Bw Hp V1 V2 B1 B2 Vrs Vrf Brs Brf. cbv zeta.
  destruct (F64_add_rounds_to hsi hfi 66 V1 V2 B1 B2 ltac:(lia))
    as [[VS _] BS].
  change (66 + 2) with 68 in BS.
  assert (Hcap : nonneg_finite (recentCap limit weight product hsi hfi)).
  { unfold recentCap. destruct (F64.gt _ limit).
    - apply (F64_fraction_mul_rounds_to weight _ 68 Hw VS Bw BS ltac:(lia)).
    - exact Hp. }
  split; [exact Hcap|].
  unfold clampRecent, recentCap in *.
  destruct (F64.gt (F64.add hsi hfi) limit).
  - pose proof (clamp_bound _ _ _ Hcap Vrs Vrf Brs Brf) as H.
    cbv zeta in H.
    destruct (F64.gt _ (F64.mul weight (F64.add hsi hfi)));
      simpl fst in *; simpl snd in *; exact H.
  - pose proof (clamp_bound _ _ _ Hcap Vrs Vrf Brs Brf) as H.
    cbv zeta in H.
    destruct (F64.gt _ product);
      simpl fst in *; simpl snd in *; exact H.
Qed.


(** The conversion to [uint64] of a float below 2^64 discards the fraction:
    it never exceeds the value. *)
Lemma to_uint64_le_magnitude unrepresentable x :
  nonneg_finite x -> (magnitude x < pow2 64)%Q ->
  (inject_Z (F64.to_uint64 unrepresentable x) <= magnitude x)%Q.
Proof.
  intros [_ [->|(m & e & ->)]] Hlt.
  - change (inject_Z 0 <= 0)%Q. apply Qle_refl.
  - unfold F64.to_uint64, F64.trunc.
    set (a := match e with
              | Zneg p => Z.shiftr (Zpos m) (Zpos p)
              | _ => Z.shiftl (Zpos m) e
              end).
    assert (Ha : 0 <= a /\ (inject_Z a <= magnitude (S754_finite false m e))%Q).
    { unfold a. simpl magnitude. destruct e as [|p|p].
      - change (Z.shiftl (Zpos m) 0) with (Zpos m).
        change (pow2 0) with 1%Q. split; [lia | lra].
      - rewrite Z.shiftl_mul_pow2 by lia.
        assert (0 < 2 ^ Zpos p) by (apply Z.pow_pos_nonneg; lia).
        split; [lia|].
        rewrite inject_Z_mult, pow2_inject by lia. lra.
      - rewrite Z.shiftr_div_pow2 by lia.
        assert (Hp : 0 < 2 ^ Zpos p) by (apply Z.pow_pos_nonneg; lia).
        split; [apply Z.div_pos; lia|].
        pose proof (Z.mul_div_le (Zpos m) (2 ^ Zpos p) Hp) as Hle.
        apply inject_Z_le in Hle.
        rewrite inject_Z_mult, pow2_inject in Hle by lia.
        pose proof (pow2_pos (Zneg p)) as Hn.
        assert (E : (pow2 (Zpos p) * pow2 (Zneg p) == 1)%Q).
        { rewrite <- pow2_add. replace (Zpos p + Zneg p) with 0 by lia.
          reflexivity. }
        set (q := inject_Z (Zpos m / 2 ^ Zpos p)) in *.
        assert (Hq : (pow2 (Zpos p) * q * pow2 (Zneg p)
                      <= inject_Z (Zpos m) * pow2 (Zneg p))%Q).
        { apply Qmult_le_compat_r; [exact Hle | lra]. }
        assert (E' : (pow2 (Zpos p) * q * pow2 (Zneg p) ==
                      q * (pow2 (Zpos p) * pow2 (Zneg p)))%Q) by ring.
        rewrite E', E in Hq. lra. }
    destruct Ha as [Ha0 Hale].
    assert (Hhi : a < U64.modulus).
    { unfold U64.modulus. rewrite Zlt_Qlt.
      rewrite pow2_inject by lia. lra. }
    assert (Hin : (0 <=? a) && (a <? U64.modulus) = true).
    { apply andb_true_iff. split; [apply Z.leb_le | apply Z.ltb_lt]; lia. }
    cbv zeta. rewrite Hin. exact Hale.
Qed.

Lemma update_merge math_Pow unrepresentable decay limit weight product host bh :
  U64.sub bh (LastHistoricUpdate host) <> 0 ->
  updateHostHistoricInteractions math_Pow unrepresentable decay limit weight
    product
    host bh
  = let hist := decayOneBlock decay limit host in
    let recent :=
      clampRecent limit weight product (fst hist) (snd hist)
        (F64.of_uint64 (RecentSuccessfulInteractions host))
        (F64.of_uint64 (RecentFailedInteractions host)) in
    let final :=
      decayRest math_Pow decay limit (U64.sub bh (LastHistoricUpdate host))
        (F64.add (fst hist) (fst recent)) (F64.add (snd hist) (snd recent)) in
    {| PublicKey := PublicKey host;
       HistoricSuccessfulInteractions :=
         F64.to_uint64 unrepresentable (fst final);
       HistoricFailedInteractions :=
         F64.to_uint64 unrepresentable (snd final);
       RecentSuccessfulInteractions := 0;
       RecentFailedInteractions := 0;
       LastHistoricUpdate := bh |}.
Proof.
  intros Hne. unfold updateHostHistoricInteractions.
  apply Z.eqb_neq in Hne. rewrite Hne. cbv zeta.
  destruct (decayOneBlock decay limit host) as [hsi hfi]. simpl fst. simpl snd.
  destruct (clampRecent limit weight product hsi hfi _ _) as [rsi rfi].
  simpl fst. simpl snd.
  destruct (decayRest math_Pow decay limit _ _ _) as [hsi' hfi'].
  reflexivity.
Qed.

Lemma scenario_A_config : config_ok decay_0_995 limit_500 weight_0_01 product_5.
Proof.
  unfold config_ok, nonneg_finite.
  split; [split; [vm_compute; reflexivity
                 | right; eexists; eexists; vm_compute; reflexivity]|].
  split; [vm_compute; intros H; discriminate H|].
  split; [split; [vm_compute; reflexivity
                 | right; eexists; eexists; vm_compute; reflexivity]|].
  split; [vm_compute; reflexivity|].
  split; [split; [vm_compute; reflexivity
                 | right; eexists; eexists; vm_compute; reflexivity]|].
  split; [vm_compute; intros H; discriminate H|].
  split; [split; [vm_compute; reflexivity
                 | right; eexists; eexists; vm_compute; reflexivity]|].
  vm_compute; intros H; discriminate H.
Defined.

Lemma scenario_A_counters : counters_in_range (entry 100 0 10 0 1000).
Proof.
  unfold counters_in_range, U64.in_range, U64.modulus. simpl. lia.
Defined.

(** ** The decay update *)

Section DecayProperties.

Variable math_Pow : F64.float64 -> F64.float64 -> F64.float64.
Variable unrepresentable : F64.float64 -> Z.
Variables decay limit weight product : F64.float64.

Abbreviation update :=
  (updateHostHistoricInteractions math_Pow unrepresentable decay limit weight
    product).
Abbreviation successful :=
  (recordSuccessful math_Pow unrepresentable decay limit weight product).
Abbreviation failed :=
  (recordFailed math_Pow unrepresentable decay limit weight product).

(** The update either leaves the record alone (no block passed) or rewrites
    it from the merged floats. *)
Lemma update_cases host bh :
  (U64.sub bh (LastHistoricUpdate host) = 0 /\ update host bh = host) \/
  (U64.sub bh (LastHistoricUpdate host) <> 0 /\
   exists hsi hfi,
     update host bh =
       {| PublicKey := PublicKey host;
          HistoricSuccessfulInteractions := F64.to_uint64 unrepresentable hsi;
          HistoricFailedInteractions := F64.to_uint64 unrepresentable hfi;
          RecentSuccessfulInteractions := 0;
          RecentFailedInteractions := 0;
          LastHistoricUpdate := bh |}).
Proof.
  unfold updateHostHistoricInteractions.
  destruct (U64.sub bh (LastHistoricUpdate host) =? 0) eqn:E.
  - left. split; [lia | reflexivity].
  - right. split; [lia|].
    destruct (decayOneBlock decay limit host) as [hsi hfi].
    destruct (clampRecent limit weight product hsi hfi _ _) as [rsi rfi].
    destruct (decayRest math_Pow decay limit _ _ _) as [hsi' hfi'].
    exists hsi', hfi'. reflexivity.
Qed.

Lemma update_PublicKey host bh : PublicKey (update host bh) = PublicKey host.
Proof.
  destruct (update_cases host bh) as [[_ ->]|[_ (hsi & hfi & ->)]]; reflexivity.
Qed.

Lemma update_counters_in_range host bh :
  counters_in_range host -> counters_in_range (update host bh).
Proof.
  intros H.
  destruct (update_cases host bh) as [[_ ->]|[_ (hsi & hfi & ->)]]; [exact H|].
  unfold counters_in_range, U64.in_range, U64.modulus; simpl.
  pose proof (to_uint64_in_range unrepresentable hsi) as H1.
  pose proof (to_uint64_in_range unrepresentable hfi) as H2.
  unfold U64.in_range, U64.modulus in H1, H2. lia.
Qed.

(** After an update at a height in range the record carries that height. *)
Lemma update_LastHistoricUpdate host bh :
  U64.in_range bh -> U64.in_range (LastHistoricUpdate host) ->
  LastHistoricUpdate (update host bh) = bh.
Proof.
  intros Hbh Hl.
  destruct (update_cases host bh) as [[E ->]|[_ (hsi & hfi & ->)]];
    [|reflexivity].
  symmetry. apply sub_zero_eq; assumption.
Qed.

Lemma interact_counters_in_range host i :
  counters_in_range host ->
  counters_in_range
    (interact math_Pow unrepresentable decay limit weight product host i).
Proof.
  intros H. destruct i as [bh|bh|bh]; simpl.
  - apply update_counters_in_range, H.
  - pose proof (update_counters_in_range host bh H) as (H1 & H2 & H3 & H4).
    unfold recordSuccessful, counters_in_range; simpl.
    split; [exact H1|]. split; [exact H2|].
    split; [apply incr_in_range|exact H4].
  - pose proof (update_counters_in_range host bh H) as (H1 & H2 & H3 & H4).
    unfold recordFailed, counters_in_range; simpl.
    split; [exact H1|]. split; [exact H2|].
    split; [exact H3|apply incr_in_range].
Qed.

Lemma interact_LastHistoricUpdate host i :
  U64.in_range (height_of i) -> U64.in_range (LastHistoricUpdate host) ->
  LastHistoricUpdate
    (interact math_Pow unrepresentable decay limit weight product host i)
  = height_of i.
Proof.
  intros Hbh Hl. destruct i as [bh|bh|bh]; simpl in *;
    apply update_LastHistoricUpdate; assumption.
Qed.

End DecayProperties.

(** ** Sequences of interactions with one record *)

Section Sequences.

Variable math_Pow : F64.float64 -> F64.float64 -> F64.float64.
Variable unrepresentable : F64.float64 -> Z.
Variables decay limit weight product : F64.float64.

Abbreviation update :=
  (updateHostHistoricInteractions math_Pow unrepresentable decay limit weight
    product).
Abbreviation run :=
  (interactions math_Pow unrepresentable decay limit weight product).
Abbreviation step :=
  (interact math_Pow unrepresentable decay limit weight product).

Lemma run_app host l1 l2 : run host (l1 ++ l2) = run (run host l1) l2.
Proof. unfold interactions. apply fold_left_app. Qed.

Lemma run_counters_in_range l : forall host,
  counters_in_range host -> counters_in_range (run host l).
Proof.
  induction l as [|i l IH]; intros host H; simpl; [exact H|].
  apply IH, interact_counters_in_range, H.
Qed.

Lemma run_LastHistoricUpdate_in_range l : forall host,
  Forall (fun i => U64.in_range (height_of i)) l ->
  U64.in_range (LastHistoricUpdate host) ->
  U64.in_range (LastHistoricUpdate (run host l)).
Proof.
  induction l as [|i l IH]; intros host Hl H; simpl; [exact H|].
  inversion Hl as [|? ? Hi Hl']; subst.
  apply IH; [exact Hl'|].
  rewrite interact_LastHistoricUpdate by assumption. exact Hi.
Qed.

(** With heights that never go back, the height carried by the record only
    grows along the sequence. *)
Lemma run_ascending l : forall host,
  Forall (fun i => U64.in_range (height_of i)) l ->
  U64.in_range (LastHistoricUpdate host) ->
  ascending (LastHistoricUpdate host) l ->
  LastHistoricUpdate host <= LastHistoricUpdate (run host l) /\
  forall l1 l2, l = l1 ++ l2 -> ascending (LastHistoricUpdate (run host l1)) l2.
Proof.
  induction l as [|i l IH]; intros host Hl H Ha; simpl.
  - split; [lia|]. intros l1 l2 E. symmetry in E.
    apply app_eq_nil in E as [-> ->]. exact I.
  - inversion Hl as [|? ? Hi Hl']; subst. destruct Ha as [Hlo Ha].
    pose proof (interact_LastHistoricUpdate math_Pow unrepresentable
                  decay limit weight product host i Hi H) as E.
    destruct (IH (step host i) Hl') as [Hle Hsplit].
    + rewrite E. exact Hi.
    + rewrite E. exact Ha.
    + split; [rewrite E in Hle; lia|].
      intros [|j l1] l2 E'; simpl in E'.
      * subst l2. simpl. split; assumption.
      * injection E' as -> ->. simpl. apply Hsplit. reflexivity.
Qed.

End Sequences.

(** ** The tracker *)

Section Tracker.

Variable math_Pow : F64.float64 -> F64.float64 -> F64.float64.
Variable unrepresentable : F64.float64 -> Z.
Variables decay limit weight product : F64.float64.

Abbreviation update :=
  (updateHostHistoricInteractions math_Pow unrepresentable decay limit weight
    product).
Abbreviation successful :=
  (recordSuccessful math_Pow unrepresentable decay limit weight product).
Abbreviation failed :=
  (recordFailed math_Pow unrepresentable decay limit weight product).
Abbreviation IncrementSuccessful :=
  (IncrementSuccessfulInteractions math_Pow unrepresentable decay limit weight
    product).
Abbreviation IncrementFailed :=
  (IncrementFailedInteractions math_Pow unrepresentable decay limit weight
    product).

Lemma IncrementFailed_offline hdb key :
  online hdb = false -> IncrementFailed hdb key = hdb.
Proof.
  intros Hoff. unfold IncrementFailedInteractions.
  destruct (Select (hostTree hdb) key); [|reflexivity].
  rewrite Hoff. reflexivity.
Qed.

(** C9. Run at the block height the record already carries, the decay update
    returns the record as it is: the four counters and [LastHistoricUpdate]
    are unchanged. *)
Theorem decay_identity host :
  updateHostHistoricInteractions math_Pow unrepresentable decay limit weight
    product
    host (LastHistoricUpdate host)
  = host.
Proof.
  unfold updateHostHistoricInteractions. rewrite sub_diag. reflexivity.
Qed.

(** C5. While the tracker is offline, [IncrementFailedInteractions] returns
    the tracker as it was, for every key, present or not: no record and no
    field of the tracker changes. *)
Theorem failed_offline_noop hdb key :
  online hdb = false ->
  IncrementFailedInteractions math_Pow unrepresentable decay limit weight
    product
    hdb key
  = hdb.
Proof. apply IncrementFailed_offline. Qed.

Lemma Modify_lookup tree host :
  is_Some (tree !! PublicKey host) ->
  Modify tree host = <[PublicKey host := host]> tree.
Proof. intros [h Hh]. unfold Modify. rewrite Hh. reflexivity. Qed.

Lemma successful_PublicKey host bh :
  PublicKey (successful host bh) = PublicKey host.
Proof. unfold recordSuccessful; simpl. apply update_PublicKey. Qed.

Lemma failed_PublicKey host bh :
  PublicKey (failed host bh) = PublicKey host.
Proof. unfold recordFailed; simpl. apply update_PublicKey. Qed.

(** C10. For a key of the directory, [IncrementSuccessfulInteractions] stores
    under that key the record it fetched, decayed to the current height and
    with one more recent success, whatever the connectivity flag; no other
    record, nor the height, nor the flag changes.  Offline, the failed
    counterpart does nothing on the same tracker. *)
Theorem successful_ignores_online hdb key host :
  keyed (hostTree hdb) ->
  hostTree hdb !! key = Some host ->
  let hdb' :=
    IncrementSuccessfulInteractions math_Pow unrepresentable decay limit
      weight product hdb key in
  let host' :=
    updateHostHistoricInteractions math_Pow unrepresentable decay limit
      weight product host (hostdb.blockHeight hdb) in
  hostTree hdb' !! key
    = Some {| PublicKey := PublicKey host';
              HistoricSuccessfulInteractions :=
                HistoricSuccessfulInteractions host';
              HistoricFailedInteractions := HistoricFailedInteractions host';
              RecentSuccessfulInteractions :=
                U64.incr (RecentSuccessfulInteractions host');
              RecentFailedInteractions := RecentFailedInteractions host';
              LastHistoricUpdate := LastHistoricUpdate host' |} /\
  (forall other, other <> key ->
     hostTree hdb' !! other = hostTree hdb !! other) /\
  hostdb.blockHeight hdb' = hostdb.blockHeight hdb /\
  online hdb' = online hdb /\
  (online hdb = false ->
   IncrementFailedInteractions math_Pow unrepresentable decay limit weight
     product
     hdb key
   = hdb).
Proof.
  intros Hk Hh.
  pose proof (Hk key host Hh) as Hpk.
  unfold IncrementSuccessfulInteractions, Select. rewrite Hh. simpl.
  rewrite Modify_lookup
    by (rewrite successful_PublicKey, Hpk, Hh; eauto).
  rewrite successful_PublicKey, Hpk.
  split; [apply lookup_insert_eq|].
  split; [intros other Hne; apply lookup_insert_ne; congruence|].
  split; [reflexivity|]. split; [reflexivity|].
  apply IncrementFailed_offline.
Qed.

(** The directory stays keyed, and its records stay [uint64] records, under
    both calls. *)
Lemma IncrementSuccessful_keyed hdb key :
  keyed (hostTree hdb) -> keyed (hostTree (IncrementSuccessful hdb key)).
Proof.
  intros Hk. unfold IncrementSuccessfulInteractions, Select.
  destruct (hostTree hdb !! key) as [host|] eqn:Hh; [|exact Hk]. simpl.
  pose proof (Hk key host Hh) as Hpk.
  rewrite Modify_lookup
    by (rewrite successful_PublicKey, Hpk, Hh; eauto).
  intros k h. rewrite lookup_insert. case_decide as E.
  - intros [= <-]. exact E.
  - apply Hk.
Qed.

Lemma IncrementFailed_keyed hdb key :
  keyed (hostTree hdb) -> keyed (hostTree (IncrementFailed hdb key)).
Proof.
  intros Hk. unfold IncrementFailedInteractions, Select.
  destruct (hostTree hdb !! key) as [host|] eqn:Hh; [|exact Hk].
  destruct (negb (online hdb)); [exact Hk|]. simpl.
  pose proof (Hk key host Hh) as Hpk.
  rewrite Modify_lookup
    by (rewrite failed_PublicKey, Hpk, Hh; eauto).
  intros k h. rewrite lookup_insert. case_decide as E.
  - intros [= <-]. exact E.
  - apply Hk.
Qed.

Lemma perform_invariant hdb c :
  keyed (hostTree hdb) /\ tree_counters_in_range (hostTree hdb) ->
  keyed (hostTree (perform math_Pow unrepresentable decay limit weight product
    hdb c)) /\
  tree_counters_in_range
    (hostTree (perform math_Pow unrepresentable decay limit weight product hdb
      c)).
Proof.
  intros [Hk Hr]. destruct c as [key|key|bh|b]; simpl; try (split; assumption).
  - split; [apply IncrementSuccessful_keyed, Hk|].
    unfold IncrementSuccessfulInteractions, Select.
    destruct (hostTree hdb !! key) as [host|] eqn:Hh; [|exact Hr]. simpl.
    pose proof (Hk key host Hh) as Hpk.
    rewrite Modify_lookup
      by (rewrite successful_PublicKey, Hpk, Hh; eauto).
    intros k h. rewrite lookup_insert. case_decide as E; [|apply Hr].
    intros [= <-].
    apply (interact_counters_in_range math_Pow unrepresentable decay limit
             weight product host (Successful (hostdb.blockHeight hdb))), (Hr
               key host Hh).
  - split; [apply IncrementFailed_keyed, Hk|].
    unfold IncrementFailedInteractions, Select.
    destruct (hostTree hdb !! key) as [host|] eqn:Hh; [|exact Hr].
    destruct (negb (online hdb)); [exact Hr|]. simpl.
    pose proof (Hk key host Hh) as Hpk.
    rewrite Modify_lookup
      by (rewrite failed_PublicKey, Hpk, Hh; eauto).
    intros k h. rewrite lookup_insert. case_decide as E; [|apply Hr].
    intros [= <-].
    apply (interact_counters_in_range math_Pow unrepresentable decay limit
             weight product host (Failed (hostdb.blockHeight hdb))), (Hr key
               host Hh).
Qed.

(** Whatever calls the tracker serves, and however its height and its flag
    are set in between, every record of the directory keeps counters in the
    range of [uint64]. *)
Lemma calls_counters_in_range l : forall hdb,
  keyed (hostTree hdb) -> tree_counters_in_range (hostTree hdb) ->
  tree_counters_in_range
    (hostTree (calls math_Pow unrepresentable decay limit weight product hdb
      l)).
Proof.
  induction l as [|c l IH]; intros hdb Hk Hr; simpl; [exact Hr|].
  destruct (perform_invariant hdb c (conj Hk Hr)) as [Hk' Hr'].
  apply IH; assumption.
Qed.

End Tracker.

(** ** Non-negative counters, heights that never go back *)

Section Invariants.

Variable math_Pow : F64.float64 -> F64.float64 -> F64.float64.
Variable unrepresentable : F64.float64 -> Z.
Variables decay limit weight product : F64.float64.

(** Along every sequence of decay applications and increments applied to a
    record whose fields are [uint64] values, the four interaction counters
    stay non-negative; and when the block heights of the sequence are
    [uint64] values that never go back, starting at or above the height the
    record carries, what [LastHistoricUpdate] is after any prefix of the
    sequence lies between what it was at the start and what it is after the
    whole.  In the tracker, whatever calls are served and however its height
    and flag are set in between, every record of the directory keeps
    non-negative counters. *)
Theorem counters_nonneg_and_height_monotone host l :
  entry_in_range host ->
  counters_nonneg
    (interactions math_Pow unrepresentable decay limit weight product host l) /\
  (Forall (fun i => U64.in_range (height_of i)) l ->
   ascending (LastHistoricUpdate host) l ->
   forall l1 l2, l = l1 ++ l2 ->
     LastHistoricUpdate host <=
       LastHistoricUpdate
         (interactions math_Pow unrepresentable decay limit weight product host
           l1) /\
     LastHistoricUpdate
       (interactions math_Pow unrepresentable decay limit weight product host
         l1) <=
       LastHistoricUpdate
         (interactions math_Pow unrepresentable decay limit weight product host
           l)) /\
  (forall hdb cs key stored,
     keyed (hostTree hdb) -> tree_counters_in_range (hostTree hdb) ->
     hostTree (calls math_Pow unrepresentable decay limit weight product hdb cs)
       !! key = Some stored ->
     counters_nonneg stored).
Proof.
  intros [Hc Hh]. split; [|split].
  - destruct (run_counters_in_range math_Pow unrepresentable decay limit
                weight product l host Hc) as (H1 & H2 & H3 & H4).
    unfold counters_nonneg, U64.in_range in *. lia.
  - intros Hl Ha l1 l2 ->.
    apply Forall_app in Hl as [Hl1 Hl2].
    destruct (run_ascending math_Pow unrepresentable decay limit weight product
                (l1 ++ l2) host) as [_ Hsplit];
      [apply Forall_app; split; assumption | assumption | assumption |].
    specialize (Hsplit l1 l2 eq_refl).
    destruct (run_ascending math_Pow unrepresentable decay limit weight product
                l1 host Hl1 Hh) as [Hle _].
    { clear - Ha. revert Ha. generalize (LastHistoricUpdate host).
      induction l1 as [|i l1 IH]; intros lo Ha; simpl in *; [exact I|].
      destruct Ha as [Hlo Ha]. split; [exact Hlo|]. apply IH, Ha. }
    split; [exact Hle|].
    rewrite run_app.
    apply run_ascending; try assumption.
    apply run_LastHistoricUpdate_in_range; assumption.
  - intros hdb cs key stored Hk Hr Hlook.
    destruct (calls_counters_in_range math_Pow unrepresentable decay limit
                weight product cs hdb Hk Hr key stored Hlook) as (H1 & H2 & H3
                  & H4).
    unfold counters_nonneg, U64.in_range in *. lia.
Qed.

End Invariants.

Lemma counters_nonneg_and_height_monotone_witness :
  entry_in_range (entry 100 0 10 0 1000) /\
  counters_nonneg
    (interactions Pow_exponent_one unrepresentable_indefinite
       decay_0_995 limit_500 weight_0_01 product_5
       (entry 100 0 10 0 1000) [Successful 1001; Failed 1001; Decay 1003]) /\
  LastHistoricUpdate
    (interactions Pow_exponent_one unrepresentable_indefinite
       decay_0_995 limit_500 weight_0_01 product_5
       (entry 100 0 10 0 1000) [Successful 1001; Failed 1001]) <=
  LastHistoricUpdate
    (interactions Pow_exponent_one unrepresentable_indefinite
       decay_0_995 limit_500 weight_0_01 product_5
       (entry 100 0 10 0 1000) [Successful 1001; Failed 1001; Decay 1003]).
Proof.
  assert (H : entry_in_range (entry 100 0 10 0 1000)).
  { unfold entry_in_range, counters_in_range, U64.in_range, U64.modulus.
    simpl. lia. }
  destruct (counters_nonneg_and_height_monotone
              Pow_exponent_one unrepresentable_indefinite
              decay_0_995 limit_500 weight_0_01 product_5
              (entry 100 0 10 0 1000)
              [Successful 1001; Failed 1001; Decay 1003] H)
    as (Hnn & Hmono & _).
  split; [exact H|]. split; [exact Hnn|].
  apply (Hmono
           ltac:(repeat constructor; unfold U64.in_range, U64.modulus;
                 simpl; lia)
           ltac:(simpl; lia)
           [Successful 1001; Failed 1001] [Decay 1003] eq_refl).
Defined.

(** The height carried by a record goes back when the update is run at a
    lower block height than the record carries. *)
Lemma height_not_monotone :
  ~ (LastHistoricUpdate (entry 100 0 10 0 1000) <=
     LastHistoricUpdate
       (interactions Pow_exponent_one unrepresentable_indefinite
          decay_0_995 limit_500 weight_0_01 product_5
          (entry 100 0 10 0 1000) [Decay 999])).
Proof. vm_compute. intros H. apply H. reflexivity. Qed.

Lemma failed_offline_noop_witness :
  IncrementFailedInteractions Pow_exponent_one unrepresentable_indefinite
    decay_0_995 limit_500 weight_0_01 product_5 (hdb_scenario false) "host"
  = hdb_scenario false.
Proof.
  apply (failed_offline_noop Pow_exponent_one unrepresentable_indefinite
           decay_0_995 limit_500 weight_0_01 product_5 (hdb_scenario false)
             "host").
  reflexivity.
Defined.

Lemma hdb_scenario_keyed up : keyed (hostTree (hdb_scenario up)).
Proof.
  intros key host. simpl. rewrite lookup_singleton. case_decide as E.
  - intros [= <-]. exact E.
  - discriminate.
Qed.

Lemma successful_ignores_online_witness :
  hostTree
    (IncrementSuccessfulInteractions Pow_exponent_one
       unrepresentable_indefinite decay_0_995 limit_500 weight_0_01 product_5
       (hdb_scenario false) "host") !! "host"
  = Some (entry 105 0 1 0 1001).
Proof.
  exact (proj1 (successful_ignores_online Pow_exponent_one
                  unrepresentable_indefinite decay_0_995 limit_500 weight_0_01
                    product_5
                  (hdb_scenario false) "host" (entry 100 0 10 0 1000)
                  (hdb_scenario_keyed false) eq_refl)).
Defined.

(** ** Files *)

Lemma activeCount_cons p pieces :
  activeCount (p :: pieces) =
  (if Active p then 1 else 0) + activeCount pieces.
Proof.
  unfold activeCount. rewrite filter_cons.
  destruct (Active p); case_decide; try congruence; simpl length; lia.
Qed.

Lemma activeCount_nonneg pieces : 0 <= activeCount pieces.
Proof. unfold activeCount. lia. Qed.

Lemma activeCount_Permutation pieces pieces' :
  pieces ≡ₚ pieces' -> activeCount pieces = activeCount pieces'.
Proof. intros H. unfold activeCount. rewrite H. reflexivity. Qed.

(** The loop answers true exactly when it runs over at least one piece and
    the count it started from plus the active pieces reach the quorum. *)
Lemma Available_loop_spec required pieces : forall active,
  Available_loop required active pieces = true <->
  pieces <> [] /\ required <= active + activeCount pieces.
Proof.
  induction pieces as [|p pieces IH]; intros active; simpl.
  - split; [discriminate | intros [H _]; congruence].
  - rewrite activeCount_cons.
    pose proof (activeCount_nonneg pieces) as Hn.
    destruct (Active p); simpl.
    + destruct (required <=? active + 1) eqn:E.
      * split; [intros _; split; [discriminate | lia] | reflexivity].
      * rewrite IH. split.
        -- intros [_ H]. split; [discriminate | lia].
        -- intros [_ H]. split; [|lia].
           intros ->. unfold activeCount in H. simpl in H. lia.
    + destruct (required <=? active) eqn:E.
      * split; [intros _; split; [discriminate | lia] | reflexivity].
      * rewrite IH. split.
        -- intros [_ H]. split; [discriminate | lia].
        -- intros [_ H]. split; [|lia].
           intros ->. unfold activeCount in H. simpl in H. lia.
Qed.

(** C2. [Available] answers true exactly when the file has at least
    one piece and the number of its active pieces is at least
    [PiecesRequired]; so, for a file with a piece or with a positive
    [PiecesRequired], exactly when the count reaches the quorum.  The answer
    depends on the pieces only through that count: files with the same quorum
    whose pieces are a rearrangement of each other get the same answer. *)
Theorem Available_quorum f :
  (Available f = true <->
   Pieces f <> [] /\ PiecesRequired f <= activeCount (Pieces f)) /\
  (Pieces f <> [] \/ 1 <= PiecesRequired f ->
   (Available f = true <-> PiecesRequired f <= activeCount (Pieces f))) /\
  (forall g, PiecesRequired g = PiecesRequired f ->
             Pieces g ≡ₚ Pieces f -> Available g = Available f).
Proof.
  assert (Hspec : forall h, Available h = true <->
            Pieces h <> [] /\ PiecesRequired h <= activeCount (Pieces h)).
  { intros h. unfold Available. rewrite Available_loop_spec.
    rewrite Z.add_0_l. reflexivity. }
  split; [apply Hspec|]. split.
  - intros Hne. rewrite Hspec. split; [tauto|].
    intros H. split; [|exact H].
    destruct Hne as [Hne|Hpos]; [exact Hne|].
    intros E. rewrite E in H. unfold activeCount in H. simpl in H. lia.
  - intros g Hq Hp.
    apply eq_true_iff_eq. rewrite !Hspec, Hq.
    rewrite (activeCount_Permutation _ _ Hp).
    split; intros [Hne Hc]; (split; [|exact Hc]); intros E; apply Hne.
    + rewrite E in Hp. apply Permutation_nil_r in Hp. exact Hp.
    + rewrite E in Hp. symmetry in Hp. apply Permutation_nil_r in Hp. exact Hp.
Qed.

Lemma Available_quorum_witness :
  Available (file_of 3 [piece true 0; piece false 0; piece true 0;
                        piece false 0; piece true 0]) = true /\
  Available (file_of 3 [piece false 0; piece true 0; piece true 0;
                        piece false 0; piece true 0]) = true /\
  Available (file_of 3 [piece true 0; piece false 0; piece false 0;
                        piece false 0; piece true 0]) = false.
Proof.
  pose (f := file_of 3 [piece true 0; piece false 0; piece true 0;
                        piece false 0; piece true 0]).
  pose (g := file_of 3 [piece false 0; piece true 0; piece true 0;
                        piece false 0; piece true 0]).
  pose (h := file_of 3 [piece true 0; piece false 0; piece false 0;
                        piece false 0; piece true 0]).
  destruct (Available_quorum f) as (_ & Hq & Hperm).
  destruct (Available_quorum h) as (_ & Hq' & _).
  assert (Hf : Available f = true).
  { apply Hq; [right; simpl; lia | vm_compute; discriminate]. }
  split; [exact Hf|]. split.
  - fold g. rewrite (Hperm g); [exact Hf | reflexivity |].
    simpl. apply Permutation_swap.
  - fold h.
    assert (Himp : Available h = true ->
                   PiecesRequired h <= activeCount (Pieces h)).
    { apply Hq'. right. simpl. lia. }
    destruct (Available h); [|reflexivity].
    exfalso. specialize (Himp eq_refl).
    vm_compute in Himp. apply Himp. reflexivity.
Defined.

(** A file without pieces is not available, although its zero active pieces
    reach a quorum of zero. *)
Lemma Available_empty_quorum_zero :
  ~ (Available (file_of 0 []) = true <->
     PiecesRequired (file_of 0 []) <= activeCount (Pieces (file_of 0 []))).
Proof.
  intros [_ H]. assert (E : Available (file_of 0 []) = true).
  { apply H. vm_compute. discriminate. }
  discriminate E.
Qed.

(** C6. [TimeRemaining] is 0 for a file without pieces; otherwise only the
    window start of the first piece's contract counts: 0 when it is below the
    current height, their difference otherwise.  With a single piece whose
    window starts at 2000, that is 0 at height 2500 and 200 at height 1800. *)
Theorem TimeRemaining_first_piece f bh :
  (Pieces f = [] -> TimeRemaining f bh = 0) /\
  (forall p rest, Pieces f = p :: rest ->
     U64.in_range (WindowStart (Contract p)) -> U64.in_range bh ->
     TimeRemaining f bh =
       if WindowStart (Contract p) <? bh then 0
       else WindowStart (Contract p) - bh) /\
  (forall p, Pieces f = [p] -> WindowStart (Contract p) = 2000 ->
     TimeRemaining f 2500 = 0 /\ TimeRemaining f 1800 = 200).
Proof.
  unfold TimeRemaining. split; [intros ->; reflexivity|]. split.
  - intros p rest -> Hw Hb.
    destruct (WindowStart (Contract p) <? bh) eqn:E; [reflexivity|].
    apply sub_small; try assumption. lia.
  - intros p -> ->. split; reflexivity.
Qed.

Lemma TimeRemaining_first_piece_witness :
  TimeRemaining (file_of 1 [piece true 2000]) 2500 = 0 /\
  TimeRemaining (file_of 1 [piece true 2000]) 1800 = 200 /\
  TimeRemaining (file_of 1 [piece true 2000; piece true 5000]) 1500 = 500 /\
  TimeRemaining (file_of 1 []) 1800 = 0.
Proof.
  destruct (TimeRemaining_first_piece (file_of 1 [piece true 2000]) 0)
    as (_ & _ & H).
  destruct (H (piece true 2000) eq_refl eq_refl) as [H1 H2].
  split; [exact H1|]. split; [exact H2|]. split.
  - destruct (TimeRemaining_first_piece
                (file_of 1 [piece true 2000; piece true 5000]) 1500)
      as (_ & H3 & _).
    rewrite (H3 (piece true 2000) [piece true 5000] eq_refl).
    + reflexivity.
    + unfold U64.in_range, U64.modulus. simpl. lia.
    + unfold U64.in_range, U64.modulus. lia.
  - apply (proj1 (TimeRemaining_first_piece (file_of 1 []) 1800)).
    reflexivity.
Defined.

(** ** The file registry *)

(** C8. [Rename] returns the not-found error and the renter as it
    was when [currentName] is absent, whether or not [newName] is in use; it
    returns the already-exists error and the renter as it was when
    [currentName] is present and [newName] is in use.  Whenever it returns an
    error the renter is unchanged, so the registry changes only when it
    returns none; then the entry has moved to [newName] with its name
    updated, and one checkpoint was taken. *)
Theorem Rename_errors r currentName newName :
  (files r !! currentName = None ->
   Rename r currentName newName = (r, Some ErrNotFound)) /\
  (is_Some (files r !! currentName) -> is_Some (files r !! newName) ->
   Rename r currentName newName = (r, Some ErrAlreadyExists)) /\
  (forall e, snd (Rename r currentName newName) = Some e ->
             fst (Rename r currentName newName) = r) /\
  (fst (Rename r currentName newName) <> r ->
   snd (Rename r currentName newName) = None) /\
  (forall entry, files r !! currentName = Some entry ->
     files r !! newName = None ->
     Rename r currentName newName =
       ({| files := <[newName := setName entry newName]>
                      (delete currentName (files r));
           blockHeight := blockHeight r;
           checkpoints := S (checkpoints r) |}, None)).
Proof.
  unfold Rename.
  destruct (files r !! currentName) as [entry|] eqn:Hc;
    [destruct (files r !! newName) as [taken|] eqn:Hn|]; simpl.
  - split; [discriminate|]. split; [reflexivity|]. split; [reflexivity|].
    split; [congruence|]. discriminate.
  - split; [discriminate|].
    split; [intros _ [x Hx]; discriminate|].
    split; [discriminate|]. split; [reflexivity|].
    intros entry' [= <-] _. reflexivity.
  - split; [reflexivity|].
    split; [intros [x Hx]; discriminate|].
    split; [reflexivity|]. split; [congruence|]. discriminate.
Qed.

Lemma Rename_errors_witness :
  Rename (registry ["a"; "b"]) "a" "b"
    = (registry ["a"; "b"], Some ErrAlreadyExists) /\
  Rename (registry ["a"; "b"]) "c" "d"
    = (registry ["a"; "b"], Some ErrNotFound) /\
  snd (Rename (registry ["a"; "b"]) "a" "c") = None.
Proof.
  destruct (Rename_errors (registry ["a"; "b"]) "a" "b") as (_ & H1 & _).
  destruct (Rename_errors (registry ["a"; "b"]) "c" "d") as (H2 & _).
  destruct (Rename_errors (registry ["a"; "b"]) "a" "c")
    as (_ & _ & _ & _ & H3).
  split; [apply H1; vm_compute; eauto|].
  split; [apply H2; vm_compute; reflexivity|].
  rewrite (H3 (setName (file_of 1 []) "a")); reflexivity.
Defined.

(** Renaming an absent file to a name in use reports the absent source, not
    the taken destination. *)
Lemma Rename_absent_source_taken_destination :
  ~ (is_Some (files (registry ["b"]) !! "b") ->
     snd (Rename (registry ["b"]) "a" "b") = Some ErrAlreadyExists).
Proof.
  intros H.
  assert (E : snd (Rename (registry ["b"]) "a" "b") = Some ErrAlreadyExists).
  { apply H. vm_compute. eauto. }
  vm_compute in E. discriminate E.
Qed.

(** ** Scenario A and the order of the two decays *)

(** C1. With [DecayLimit = 500], [WeightLimit = 0.01], [DecayFactor = 0.995],
    the update of a record with historic counters (100, 0), recent counters
    (10, 0) and last update 1000, run at height 1001, gives historic counters
    (105, 0), recent counters (0, 0) and last update 1001. *)
Theorem scenario_A (math_Pow : F64.float64 -> F64.float64 -> F64.float64)
        (unrepresentable : F64.float64 -> Z) :
  updateHostHistoricInteractions math_Pow unrepresentable
    decay_0_995 limit_500 weight_0_01 product_5 (entry 100 0 10 0 1000) 1001
  = entry 105 0 0 0 1001.
Proof. vm_compute. reflexivity. Qed.

Section TwoPhase.

Variable math_Pow : F64.float64 -> F64.float64 -> F64.float64.
Variable unrepresentable : F64.float64 -> Z.

(** The documented special case [Pow(x, 1) = x]. *)
Hypothesis Pow_one : forall x, math_Pow x one = x.

(** The update only looks at the power function at the decay factor and the
    number of remaining blocks. *)
Lemma update_Pow_ext pow' decay limit weight product host bh :
  math_Pow decay
    (F64.of_uint64 (U64.sub (U64.sub bh (LastHistoricUpdate host)) 1))
  = pow' decay
      (F64.of_uint64 (U64.sub (U64.sub bh (LastHistoricUpdate host)) 1)) ->
  updateHostHistoricInteractions math_Pow unrepresentable decay limit weight
    product
    host bh
  = updateHostHistoricInteractions pow' unrepresentable decay limit weight
    product
      host bh.
Proof.
  intros E. unfold updateHostHistoricInteractions, decayRest.
  rewrite E. reflexivity.
Qed.

Lemma collapsed_one_block decay limit weight product host bh :
  U64.sub bh (LastHistoricUpdate host) = 1 ->
  updateHostHistoricInteractions math_Pow unrepresentable decay limit weight
    product
    host bh
  = collapsedUpdate math_Pow unrepresentable decay limit weight product host bh.
Proof.
  intros E.
  unfold updateHostHistoricInteractions, collapsedUpdate, decayOneBlock,
    decayRest.
  rewrite E. change (F64.of_uint64 1) with one. rewrite Pow_one.
  change (1 =? 0) with false. change (1 <? 1) with false. cbv iota.
  destruct (F64.gt (F64.add
                      (F64.of_uint64 (HistoricSuccessfulInteractions host))
                      (F64.of_uint64 (HistoricFailedInteractions host)))
                   limit);
    match goal with
    | |- context [clampRecent ?l ?w ?p ?a ?b ?c ?d] =>
        destruct (clampRecent l w p a b c d) as [rsi rfi]
    end; reflexivity.
Qed.

(** When neither decay test fires (a thin history, before and after the
    merge), no decay is applied by either computation. *)
Lemma collapsed_thin_history decay limit weight product host bh :
  F64.gt (F64.add (F64.of_uint64 (HistoricSuccessfulInteractions host))
                  (F64.of_uint64 (HistoricFailedInteractions host)))
         limit = false ->
  (let recent :=
     clampRecent limit weight product
       (F64.of_uint64 (HistoricSuccessfulInteractions host))
       (F64.of_uint64 (HistoricFailedInteractions host))
       (F64.of_uint64 (RecentSuccessfulInteractions host))
       (F64.of_uint64 (RecentFailedInteractions host)) in
   F64.gt (F64.add
             (F64.add (F64.of_uint64 (HistoricSuccessfulInteractions host))
                      (fst recent))
             (F64.add (F64.of_uint64 (HistoricFailedInteractions host))
                      (snd recent)))
          limit = false) ->
  updateHostHistoricInteractions math_Pow unrepresentable decay limit weight
    product
    host bh
  = collapsedUpdate math_Pow unrepresentable decay limit weight product host bh.
Proof.
  cbv zeta. intros H0 H1.
  unfold updateHostHistoricInteractions, collapsedUpdate, decayOneBlock,
    decayRest.
  destruct (U64.sub bh (LastHistoricUpdate host) =? 0); [reflexivity|].
  rewrite H0.
  destruct (clampRecent limit weight product _ _ _ _) as [rsi rfi].
  simpl fst in H1. simpl snd in H1. rewrite H1, andb_false_r. reflexivity.
Qed.

(** C4. The two-phase decay and the decay collapsed into a single
    [DecayFactor^passedTime] before the merge are not the same computation:
    with the configuration of scenario A, on the record with historic
    counters (500, 0), recent counters (10, 0) and last update 1000, at
    height 1002, the first gives 502 successful interactions and the second
    505.  They do not differ on every record with recent counters: when one
    block passed they agree on every record, under every configuration, and
    so they do, however many blocks passed, when the historic total is not
    above the decay limit before the merge nor after it. *)
Theorem two_phase_not_collapsed :
  (updateHostHistoricInteractions math_Pow unrepresentable
     decay_0_995 limit_500 weight_0_01 product_5 (entry 500 0 10 0 1000) 1002
   = entry 502 0 0 0 1002 /\
   collapsedUpdate math_Pow unrepresentable
     decay_0_995 limit_500 weight_0_01 product_5 (entry 500 0 10 0 1000) 1002
   = entry 505 0 0 0 1002) /\
  (forall decay limit weight product host bh,
     U64.sub bh (LastHistoricUpdate host) = 1 ->
     updateHostHistoricInteractions math_Pow unrepresentable decay limit weight
       product
       host bh
     = collapsedUpdate math_Pow unrepresentable decay limit weight product host
       bh) /\
  (forall decay limit weight product host bh,
     F64.gt (F64.add (F64.of_uint64 (HistoricSuccessfulInteractions host))
                     (F64.of_uint64 (HistoricFailedInteractions host)))
            limit = false ->
     (let recent :=
        clampRecent limit weight product
          (F64.of_uint64 (HistoricSuccessfulInteractions host))
          (F64.of_uint64 (HistoricFailedInteractions host))
          (F64.of_uint64 (RecentSuccessfulInteractions host))
          (F64.of_uint64 (RecentFailedInteractions host)) in
      F64.gt (F64.add
                (F64.add (F64.of_uint64 (HistoricSuccessfulInteractions host))
                         (fst recent))
                (F64.add (F64.of_uint64 (HistoricFailedInteractions host))
                         (snd recent)))
             limit = false) ->
     updateHostHistoricInteractions math_Pow unrepresentable decay limit weight
       product
       host bh
     = collapsedUpdate math_Pow unrepresentable decay limit weight product host
       bh).
Proof.
  split; [split|split].
  - rewrite (update_Pow_ext Pow_exponent_one).
    + vm_compute. reflexivity.
    + change (F64.of_uint64
                (U64.sub (U64.sub 1002
                   (LastHistoricUpdate (entry 500 0 10 0 1000))) 1))
        with one.
      rewrite Pow_one. vm_compute. reflexivity.
  - vm_compute. reflexivity.
  - apply collapsed_one_block.
  - apply collapsed_thin_history.
Qed.

End TwoPhase.

Lemma Pow_exponent_one_one x : Pow_exponent_one x one = x.
Proof. reflexivity. Qed.

Lemma two_phase_not_collapsed_witness :
  updateHostHistoricInteractions Pow_exponent_one unrepresentable_indefinite
    decay_0_995 limit_500 weight_0_01 product_5 (entry 500 0 10 0 1000) 1002
  <> collapsedUpdate Pow_exponent_one unrepresentable_indefinite
       decay_0_995 limit_500 weight_0_01 product_5 (entry 500 0 10 0 1000) 1002
         /\
  updateHostHistoricInteractions Pow_exponent_one unrepresentable_indefinite
    decay_0_995 limit_500 weight_0_01 product_5 (entry 1000 0 10 0 1000) 1001
  = collapsedUpdate Pow_exponent_one unrepresentable_indefinite
      decay_0_995 limit_500 weight_0_01 product_5 (entry 1000 0 10 0 1000) 1001
        /\
  updateHostHistoricInteractions Pow_exponent_one unrepresentable_indefinite
    decay_0_995 limit_500 weight_0_01 product_5 (entry 100 0 10 0 1000) 1005
  = collapsedUpdate Pow_exponent_one unrepresentable_indefinite
      decay_0_995 limit_500 weight_0_01 product_5 (entry 100 0 10 0 1000) 1005.
Proof.
  destruct (two_phase_not_collapsed Pow_exponent_one
              unrepresentable_indefinite Pow_exponent_one_one)
    as ([E1 E2] & Hone & Hthin).
  split; [rewrite E1, E2; discriminate|]. split.
  - apply Hone. reflexivity.
  - apply Hthin; vm_compute; reflexivity.
Defined.

(** A record with recent counters on which both computations give the same
    result, five blocks after its last update: its history is thin. *)
Lemma collapsed_agrees_with_recent_counters :
  ~ (RecentSuccessfulInteractions (entry 100 0 10 0 1000) <> 0 ->
     updateHostHistoricInteractions Pow_exponent_one
       unrepresentable_indefinite decay_0_995 limit_500 weight_0_01 product_5
       (entry 100 0 10 0 1000) 1005
     <> collapsedUpdate Pow_exponent_one unrepresentable_indefinite
          decay_0_995 limit_500 weight_0_01 product_5 (entry 100 0 10 0 1000)
            1005).
Proof.
  intros H. apply H; [discriminate | vm_compute; reflexivity].
Qed.

(** ** The update, once a block passed *)

Section UpdateProperties.

Variable math_Pow : F64.float64 -> F64.float64 -> F64.float64.
Variable unrepresentable : F64.float64 -> Z.
Variables decay limit weight product : F64.float64.

Abbreviation update :=
  (updateHostHistoricInteractions math_Pow unrepresentable decay limit weight
    product).
Abbreviation run :=
  (interactions math_Pow unrepresentable decay limit weight product).
Abbreviation step :=
  (interact math_Pow unrepresentable decay limit weight product).

(** X1. The update is idempotent: run again at the same height, it changes
    nothing, whatever the record and the height. *)
Theorem update_idempotent host bh :
  updateHostHistoricInteractions math_Pow unrepresentable decay limit weight
    product
    (updateHostHistoricInteractions math_Pow unrepresentable decay limit
       weight product host bh) bh
  = updateHostHistoricInteractions math_Pow unrepresentable decay limit weight
    product
      host bh.
Proof.
  destruct (update_cases math_Pow unrepresentable decay limit weight product
    host bh)
    as [[_ E]|[_ (hsi & hfi & E)]]; rewrite E.
  - exact E.
  - unfold updateHostHistoricInteractions at 1.
    cbn [LastHistoricUpdate]. rewrite sub_diag. reflexivity.
Qed.

(** X2. At a height other than the one the record carries, heights being
    [uint64] values, the update empties both recent counters, stamps the
    record with the height and keeps its public key; and the counters it
    stores are [uint64] values, whatever the record held. *)
Theorem update_folds_recent host bh :
  U64.in_range bh -> U64.in_range (LastHistoricUpdate host) ->
  bh <> LastHistoricUpdate host ->
  let host' :=
    updateHostHistoricInteractions math_Pow unrepresentable decay limit
      weight product host bh in
  RecentSuccessfulInteractions host' = 0 /\
  RecentFailedInteractions host' = 0 /\
  LastHistoricUpdate host' = bh /\
  PublicKey host' = PublicKey host /\
  counters_in_range host'.
Proof.
  intros Hbh Hl Hne. cbv zeta.
  destruct (update_cases math_Pow unrepresentable decay limit weight product
    host bh)
    as [[E _]|[_ (hsi & hfi & E)]].
  - exfalso. apply Hne. apply sub_zero_eq; assumption.
  - rewrite E. cbn.
    split; [reflexivity|]. split; [reflexivity|]. split; [reflexivity|].
    split; [reflexivity|].
    unfold counters_in_range. cbn.
    split; [apply to_uint64_in_range|]. split; [apply to_uint64_in_range|].
    unfold U64.in_range, U64.modulus. lia.
Qed.

Lemma wrap_add_wrap a b : U64.wrap (U64.wrap a + b) = U64.wrap (a + b).
Proof.
  unfold U64.wrap, U64.modulus. rewrite Zplus_mod_idemp_l. reflexivity.
Qed.

(** X3. Interactions recorded at the height the record carries only count:
    no decay is applied, the historic counters and the height stay what they
    were, and each recent counter grows by the number of its interactions,
    modulo 2^64. *)
Theorem same_height_accumulates l : forall host,
  counters_in_range host ->
  Forall (fun i => height_of i = LastHistoricUpdate host) l ->
  let host' :=
    interactions math_Pow unrepresentable decay limit weight product host l in
  PublicKey host' = PublicKey host /\
  HistoricSuccessfulInteractions host' = HistoricSuccessfulInteractions host /\
  HistoricFailedInteractions host' = HistoricFailedInteractions host /\
  RecentSuccessfulInteractions host' =
    U64.wrap (RecentSuccessfulInteractions host + successes l) /\
  RecentFailedInteractions host' =
    U64.wrap (RecentFailedInteractions host + failures l) /\
  LastHistoricUpdate host' = LastHistoricUpdate host.
Proof.
  cbv zeta. induction l as [|i l IH]; intros host Hc Hl.
  - destruct Hc as (_ & _ & H3 & H4).
    unfold successes, failures. simpl. rewrite !Z.add_0_r.
    rewrite !wrap_small by assumption. tauto.
  - inversion Hl as [|? ? Hi Hl']; subst.
    assert (Hup : update host (height_of i) = host).
    { unfold updateHostHistoricInteractions. rewrite Hi, sub_diag.
      reflexivity. }
    assert (Hstep : LastHistoricUpdate (step host i)
                    = LastHistoricUpdate host).
    { destruct i; simpl in *; unfold recordSuccessful, recordFailed;
        rewrite ?Hup; reflexivity. }
    pose proof (interact_counters_in_range math_Pow unrepresentable decay
                  limit weight product host i Hc) as Hc'.
    rewrite <- Hstep in Hl'.
    destruct (IH (step host i) Hc' Hl') as (K0 & K1 & K2 & K3 & K4 & K5).
    simpl. rewrite K0, K1, K2, K3, K4, K5, Hstep.
    unfold successes, failures in *.
    destruct i as [bh|bh|bh]; simpl in Hup |- *;
      unfold recordSuccessful, recordFailed; rewrite Hup; cbn;
      unfold U64.incr, U64.add; rewrite ?wrap_add_wrap;
      repeat (split; [first [reflexivity | f_equal; lia]|]);
      reflexivity.
Qed.

End UpdateProperties.

Lemma same_height_accumulates_witness :
  RecentSuccessfulInteractions
    (interactions Pow_exponent_one unrepresentable_indefinite
       decay_0_995 limit_500 weight_0_01 product_5 (entry 100 0 10 0 1000)
       [Successful 1000; Failed 1000; Successful 1000; Decay 1000])
  = U64.wrap (10 + 2).
Proof.
  refine (proj1 (proj2 (proj2 (proj2
            (same_height_accumulates Pow_exponent_one
               unrepresentable_indefinite decay_0_995 limit_500 weight_0_01
                 product_5
               [Successful 1000; Failed 1000; Successful 1000; Decay 1000]
               (entry 100 0 10 0 1000) scenario_A_counters _))))).
  repeat constructor.
Defined.

Lemma update_folds_recent_witness :
  RecentSuccessfulInteractions
    (updateHostHistoricInteractions Pow_exponent_one
       unrepresentable_indefinite decay_0_995 limit_500 weight_0_01 product_5
       (entry 100 0 10 0 1000) 1003) = 0 /\
  LastHistoricUpdate
    (updateHostHistoricInteractions Pow_exponent_one
       unrepresentable_indefinite decay_0_995 limit_500 weight_0_01 product_5
       (entry 100 0 10 0 1000) 1003) = 1003.
Proof.
  destruct (update_folds_recent Pow_exponent_one unrepresentable_indefinite
              decay_0_995 limit_500 weight_0_01 product_5 (entry 100 0 10 0
                1000) 1003)
    as (H1 & _ & H2 & _).
  - unfold U64.in_range, U64.modulus. lia.
  - unfold U64.in_range, U64.modulus. simpl. lia.
  - simpl. lia.
  - split; [exact H1 | exact H2].
Defined.

(** ** What the update depends on *)

(** X20. The update looks at the two heights only through the number of
    blocks that passed, and at the power function only through its value at
    the decay factor and that number less one, when more than one block
    passed: two records with the same public key and counters, updated
    after the same number of blocks, with power functions that agree there,
    come out with the same public key and counters. *)
Theorem update_depends_on_elapsed
        pow pow' unrepresentable decay limit weight product host host' bh bh' :
  PublicKey host = PublicKey host' ->
  HistoricSuccessfulInteractions host = HistoricSuccessfulInteractions host' ->
  HistoricFailedInteractions host = HistoricFailedInteractions host' ->
  RecentSuccessfulInteractions host = RecentSuccessfulInteractions host' ->
  RecentFailedInteractions host = RecentFailedInteractions host' ->
  U64.sub bh (LastHistoricUpdate host)
    = U64.sub bh' (LastHistoricUpdate host') ->
  (1 < U64.sub bh (LastHistoricUpdate host) ->
   pow decay
     (F64.of_uint64 (U64.sub (U64.sub bh (LastHistoricUpdate host)) 1))
   = pow' decay
       (F64.of_uint64 (U64.sub (U64.sub bh (LastHistoricUpdate host)) 1))) ->
  let after :=
    updateHostHistoricInteractions pow unrepresentable decay limit weight
      product
      host bh in
  let after' :=
    updateHostHistoricInteractions pow' unrepresentable decay limit weight
      product
      host' bh' in
  PublicKey after = PublicKey after' /\
  HistoricSuccessfulInteractions after
    = HistoricSuccessfulInteractions after' /\
  HistoricFailedInteractions after = HistoricFailedInteractions after' /\
  RecentSuccessfulInteractions after = RecentSuccessfulInteractions after' /\
  RecentFailedInteractions after = RecentFailedInteractions after'.
Proof.
  intros Ek E1 E2 E3 E4 Et Hpow. cbv zeta.
  unfold updateHostHistoricInteractions, decayOneBlock, decayRest.
  rewrite <- Et, <- Ek, <- E1, <- E2, <- E3, <- E4.
  destruct (U64.sub bh (LastHistoricUpdate host) =? 0); [tauto|].
  destruct (F64.gt _ limit);
    match goal with
    | |- context [clampRecent ?l ?w ?p ?a ?b ?c ?d] =>
        destruct (clampRecent l w p a b c d) as [rsi rfi]
    end;
    (destruct (1 <? U64.sub bh (LastHistoricUpdate host)) eqn:G;
     [apply Z.ltb_lt in G; rewrite (Hpow G); cbn [andb];
      destruct (F64.gt _ limit)
     | cbn [andb]];
     cbn; tauto).
Qed.

Lemma update_depends_on_elapsed_witness :
  HistoricSuccessfulInteractions
    (updateHostHistoricInteractions Pow_exponent_one
       unrepresentable_indefinite decay_0_995 limit_500 weight_0_01 product_5
       (entry 1000 0 10 0 1000) 1002)
  = HistoricSuccessfulInteractions
      (updateHostHistoricInteractions (fun x _ => x)
         unrepresentable_indefinite decay_0_995 limit_500 weight_0_01 product_5
         (entry 1000 0 10 0 7000) 7002).
Proof.
  refine (proj1 (proj2
            (update_depends_on_elapsed Pow_exponent_one (fun x _ => x)
               unrepresentable_indefinite decay_0_995 limit_500 weight_0_01
                 product_5
               (entry 1000 0 10 0 1000) (entry 1000 0 10 0 7000) 1002 7002
               eq_refl eq_refl eq_refl eq_refl eq_refl eq_refl _))).
  intros _. reflexivity.
Defined.

(** ** Integers that binary64 holds exactly *)

Lemma inject_Z_eq a b : (inject_Z a == inject_Z b)%Q -> a = b.
Proof. unfold Qeq. simpl. lia. Qed.

(** The mantissa of a float whose value is an integer. *)
Lemma integer_mantissa m e n :
  (inject_Z m * pow2 e == inject_Z n)%Q ->
  (0 <= e /\ n = m * 2 ^ e) \/ (e < 0 /\ m = n * 2 ^ (- e)).
Proof.
  intros H. destruct (Z_lt_le_dec e 0) as [Hneg|Hpos].
  - right. split; [exact Hneg|]. apply inject_Z_eq.
    rewrite inject_Z_mult, pow2_inject by lia. rewrite <- H.
    assert (E : (pow2 e * pow2 (- e) == 1)%Q).
    { rewrite <- pow2_add. replace (e + - e) with 0 by lia. reflexivity. }
    rewrite <- Qmult_assoc, E. ring.
  - left. split; [exact Hpos|]. apply inject_Z_eq.
    rewrite inject_Z_mult, pow2_inject by lia. symmetry. exact H.
Qed.

Lemma trunc_integer m e n :
  (inject_Z (Zpos m) * pow2 e == inject_Z n)%Q ->
  F64.trunc (S754_finite false m e) = Some n.
Proof.
  intros H. unfold F64.trunc. f_equal.
  destruct (integer_mantissa _ _ _ H) as [[He ->]|[He Hm]].
  - destruct e as [|p|p]; try lia.
    + rewrite Z.shiftl_mul_pow2 by lia. reflexivity.
    + rewrite Z.shiftl_mul_pow2 by lia. reflexivity.
  - destruct e as [|p|p]; try lia.
    rewrite Z.shiftr_div_pow2 by lia. rewrite Hm.
    change (- Zneg p) with (Zpos p).
    apply Z.div_mul. apply Z.pow_nonzero; lia.
Qed.

Lemma to_uint64_represents unrepresentable z n :
  represents z n -> 0 <= n < 2 ^ 64 ->
  F64.to_uint64 unrepresentable z = n.
Proof.
  intros [[_ [->|(m & e & ->)]] Hv] Hn.
  - simpl in Hv. change 0%Q with (inject_Z 0) in Hv.
    apply inject_Z_eq in Hv. subst n. reflexivity.
  - unfold F64.to_uint64. rewrite (trunc_integer m e n Hv).
    unfold U64.modulus.
    destruct (0 <=? n) eqn:E0; [|lia].
    destruct (n <? 2 ^ 64) eqn:E1; [|lia]. reflexivity.
Qed.

(** Rounding a value that is an integer below 2^53: nothing is lost. *)
Lemma binary_round_aux_exact mx ex n :
  0 < n < 2 ^ 53 -> 0 < mx ->
  (inject_Z mx * pow2 ex == inject_Z n)%Q ->
  ex <= fexp 53 1024 (Zdigits2 mx + ex) ->
  represents (binary_round_aux 53 1024 false mx ex loc_Exact) n.
Proof.
  intros Hn Hmx Hv Hex.
  assert (HD : Zdigits2 mx + ex <= 53).
  { apply digits_below; [exact Hmx|]. rewrite Hv.
    rewrite <- pow2_inject by lia. apply inject_Z_lt. lia. }
  rewrite fexp_eq in Hex.
  assert (Hd1 : 1 <= Zdigits2 mx) by (destruct mx; simpl in *; lia).
  assert (Hneg : ex <= 0) by lia.
  assert (Em : mx = n * 2 ^ (- ex)).
  { destruct (integer_mantissa _ _ _ Hv) as [[He E]|[He E]]; [|exact E].
    replace ex with 0 in * by lia. simpl in *. lia. }
  assert (Edn : Zdigits2 mx = Zdigits2 n + - ex).
  { rewrite Em. apply Zdigits2_mul_pow2; lia. }
  assert (Hdn : 1 <= Zdigits2 n) by (destruct n; simpl in *; lia).
  set (t := Zdigits2 n - 53).
  assert (Et : fexp 53 1024 (Zdigits2 mx + ex) = t).
  { rewrite fexp_eq. unfold t. lia. }
  assert (Ht : t <= 0) by (unfold t; lia).
  assert (Hk : 0 <= t - ex) by (unfold t; lia).
  unfold binary_round_aux, shr_fexp.
  rewrite shr_record_of_loc_bits. cbn [round_bit sticky_bit]. rewrite Et.
  assert (Hloc : located (inject_Z n) mx (pow2 ex) false false).
  { simpl. symmetry. exact Hv. }
  destruct (shr_located (inject_Z n) mx ex _ _ (t - ex) ltac:(lia) Hloc)
    as (r' & s' & E & L).
  rewrite E. clear E.
  replace (Z.max (t - ex) 0) with (t - ex) in * by lia.
  replace (ex + (t - ex)) with t in * by lia.
  assert (Em' : mx / 2 ^ (t - ex) = n * 2 ^ (- t)).
  { rewrite Em. replace (- ex) with (- t + (t - ex)) by lia.
    rewrite Z.pow_add_r by lia. rewrite Z.mul_assoc.
    apply Z.div_mul. apply Z.pow_nonzero; lia. }
  rewrite Em' in *.
  set (m' := n * 2 ^ (- t)) in *.
  assert (Hm' : 0 < m').
  { unfold m'. apply Z.mul_pos_pos; [lia|]. apply Z.pow_pos_nonneg; lia. }
  pose proof (pow2_pos t) as Hu.
  assert (Ev : (inject_Z m' * pow2 t == inject_Z n)%Q).
  { unfold m'. rewrite inject_Z_mult, pow2_inject by lia.
    assert (E : (pow2 (- t) * pow2 t == 1)%Q).
    { rewrite <- pow2_add. replace (- t + t) with 0 by lia. reflexivity. }
    rewrite <- Qmult_assoc, E. ring. }
  destruct (round_nearest_even_located (inject_Z n) m' (pow2 t) r' s'
              (Qlt_le_weak _ _ Hu) L) as (Hm1 & Hup & Hlo).
  cbn [shr_m].
  set (m1 := round_nearest_even m'
               (loc_of_shr_record
                  {| shr_m := m'; shr_r := r'; shr_s := s' |})) in *.
  assert (E1 : m1 = m').
  { destruct Hm1 as [?|E1]; [assumption|]. exfalso.
    rewrite E1, inject_Z_plus in Hup. change (inject_Z 1) with 1%Q in Hup.
    nra. }
  clearbody m1. subst m1.
  assert (Edm : Zdigits2 m' = 53).
  { unfold m'. rewrite Zdigits2_mul_pow2 by lia. unfold t. lia. }
  rewrite shr_record_of_loc_bits. cbn [round_bit sticky_bit shr_m].
  rewrite Edm.
  assert (Et2 : fexp 53 1024 (53 + t) = t).
  { rewrite fexp_eq. unfold t. lia. }
  rewrite Et2.
  destruct (shr_exact m' t (t - t) ltac:(lia)) as (r'' & s'' & E).
  rewrite E. clear E. cbn [shr_m].
  replace (t - t) with 0 by lia. change (Z.max 0 0) with 0.
  change (2 ^ 0) with 1. rewrite Z.div_1_r, Z.add_0_r.
  destruct m' as [|p|p] eqn:Ep; try lia.
  assert (Hle : (t <=? 1024 - 53) = true) by (apply Z.leb_le; lia).
  rewrite Hle.
  split; [split; [|right; eauto]|exact Ev].
  unfold valid_binary, bounded, canonical_mantissa.
  change (Zpos (digits2_pos p)) with (Zdigits2 (Zpos p)).
  rewrite Edm, Et2, Z.eqb_refl, Hle. reflexivity.
Qed.

Lemma binary_round_exact mx ex n :
  0 < n < 2 ^ 53 ->
  (inject_Z (Zpos mx) * pow2 ex == inject_Z n)%Q ->
  represents (binary_round 53 1024 false mx ex) n.
Proof.
  intros Hn Hv. unfold binary_round.
  change (Zpos (digits2_pos mx)) with (Zdigits2 (Zpos mx)).
  set (t := fexp 53 1024 (Zdigits2 (Zpos mx) + ex)).
  destruct (shl_align_spec mx ex t) as [Es Em].
  destruct (shl_align mx ex t) as [mz ez]. simpl fst in Em. simpl snd in Es.
  assert (Hs : 0 <= ex - ez) by lia.
  assert (Hd : Zdigits2 (Zpos mz) = Zdigits2 (Zpos mx) + (ex - ez)).
  { rewrite Em, <- Es. apply Zdigits2_mul_pow2; lia. }
  assert (Ev : (inject_Z (Zpos mz) * pow2 ez ==
                inject_Z (Zpos mx) * pow2 ex)%Q).
  { rewrite Em, <- Es, inject_Z_mult, pow2_inject by lia.
    rewrite (pow2_split ex ez). ring. }
  apply binary_round_aux_exact.
  - exact Hn.
  - lia.
  - rewrite Ev. exact Hv.
  - rewrite Hd. replace (Zdigits2 (Zpos mx) + (ex - ez) + ez)
      with (Zdigits2 (Zpos mx) + ex) by lia.
    fold t. lia.
Qed.

Lemma represents_zero : represents (S754_zero false) 0.
Proof. split; [split; [reflexivity | left; reflexivity] | reflexivity]. Qed.

Lemma represents_zero_inv n : represents (S754_zero false) n -> n = 0.
Proof.
  intros [_ H]. simpl in H. change 0%Q with (inject_Z 0) in H.
  apply inject_Z_eq in H. congruence.
Qed.

Lemma represents_finite_pos m e n :
  represents (S754_finite false m e) n -> 0 < n.
Proof.
  intros [_ H]. pose proof (magnitude_finite_pos false m e) as Hp.
  rewrite H in Hp. change 0%Q with (inject_Z 0) in Hp.
  rewrite <- Zlt_Qlt in Hp. exact Hp.
Qed.

(** [float64(n)] is exact below 2^53. *)
Lemma of_uint64_represents n :
  0 <= n < 2 ^ 53 -> represents (F64.of_uint64 n) n.
Proof.
  intros Hn. unfold F64.of_uint64. destruct n as [|p|p]; try lia.
  - apply represents_zero.
  - simpl binary_normalize. apply binary_round_exact; [lia|].
    change (pow2 0) with 1%Q. ring.
Qed.

(** The sum of two integers is exact when it is below 2^53. *)
Lemma add_represents x y a b :
  represents x a -> represents y b -> a + b < 2 ^ 53 ->
  represents (F64.add x y) (a + b).
Proof.
  intros Hx Hy Hlt.
  pose proof Hx as [[Vx [Ex|(mx & ex & Ex)]] Mx];
    pose proof Hy as [[Vy [Ey|(my & ey & Ey)]] My]; subst x y.
  - apply represents_zero_inv in Hx, Hy. subst a b. apply represents_zero.
  - apply represents_zero_inv in Hx. subst a. exact Hy.
  - apply represents_zero_inv in Hy. subst b. rewrite Z.add_0_r. exact Hx.
  - apply represents_finite_pos in Hx, Hy.
    unfold F64.add. simpl SFadd. unfold cond_Zopp.
    set (ez := Z.min ex ey).
    destruct (shl_align_spec mx ex ez) as [_ Eax].
    destruct (shl_align_spec my ey ez) as [_ Eay].
    replace (Z.min ex ez) with ez in Eax by lia.
    replace (Z.min ey ez) with ez in Eay by lia.
    set (ax := fst (shl_align mx ex ez)) in *.
    set (ay := fst (shl_align my ey ez)) in *.
    change (Zpos ax + Zpos ay) with (Zpos (ax + ay)).
    unfold binary_normalize.
    apply binary_round_exact; [lia|].
    rewrite inject_Z_plus, <- Mx, <- My. simpl magnitude.
    rewrite Pos2Z.inj_add, inject_Z_plus, Eax, Eay.
    rewrite !inject_Z_mult, !pow2_inject by lia.
    rewrite (pow2_split ex ez), (pow2_split ey ez). ring.
Qed.

(** X4. A [uint64] below 2^53 survives the conversion to [float64] and
    back. *)
Theorem uint64_float64_round_trip unrepresentable n :
  0 <= n < 2 ^ 53 ->
  F64.to_uint64 unrepresentable (F64.of_uint64 n) = n /\
  (magnitude (F64.of_uint64 n) == inject_Z n)%Q.
Proof.
  intros Hn. pose proof (of_uint64_represents n Hn) as H. split.
  - apply to_uint64_represents; [exact H | lia].
  - apply H.
Qed.

Lemma uint64_float64_round_trip_witness :
  F64.to_uint64 unrepresentable_indefinite
    (F64.of_uint64 9007199254740991) = 9007199254740991.
Proof.
  apply (uint64_float64_round_trip unrepresentable_indefinite
           9007199254740991).
  lia.
Defined.

(** ** Hosts with a thin history *)

Lemma gt_represents_false x n limit :
  represents x n -> nonneg_finite limit ->
  (inject_Z n <= magnitude limit)%Q ->
  F64.gt x limit = false.
Proof.
  intros [Hx Hv] Hl Hle.
  destruct (F64.gt x limit) eqn:E; [|reflexivity].
  apply (gt_magnitude x limit Hx Hl) in E. rewrite Hv in E. lra.
Qed.

(** X5. A record with natural counters whose interactions, historic and
    recent together, are fewer than 2^53 and do not exceed the decay limit,
    and whose recent interactions do not exceed the value of the constant
    expression [recentInteractionWeightLimit * historicInteractionDecayLimit]:
    at any height other than the one it carries, the update adds each recent
    counter to its historic counter, exactly; no decay, no clamp and no
    rounding take anything away. *)
Theorem thin_history_exact_merge
        math_Pow unrepresentable decay limit weight product host bh :
  config_ok decay limit weight product ->
  counters_nonneg host ->
  HistoricSuccessfulInteractions host + HistoricFailedInteractions host
  + RecentSuccessfulInteractions host + RecentFailedInteractions host
  < 2 ^ 53 ->
  (inject_Z (HistoricSuccessfulInteractions host
             + HistoricFailedInteractions host
             + RecentSuccessfulInteractions host
             + RecentFailedInteractions host) <= magnitude limit)%Q ->
  (inject_Z (RecentSuccessfulInteractions host
             + RecentFailedInteractions host)
   <= magnitude product)%Q ->
  U64.sub bh (LastHistoricUpdate host) <> 0 ->
  updateHostHistoricInteractions math_Pow unrepresentable decay limit weight
    product
    host bh
  = {| PublicKey := PublicKey host;
       HistoricSuccessfulInteractions :=
         HistoricSuccessfulInteractions host
         + RecentSuccessfulInteractions host;
       HistoricFailedInteractions :=
         HistoricFailedInteractions host + RecentFailedInteractions host;
       RecentSuccessfulInteractions := 0;
       RecentFailedInteractions := 0;
       LastHistoricUpdate := bh |}.
Proof.
  intros Hcfg (N1 & N2 & N3 & N4) Hlt Hlim Hcap Hne.
  destruct Hcfg as (_ & _ & Vl & _ & _ & _ & Vcap & _).
  rewrite update_merge by exact Hne. cbv zeta.
  set (hs := HistoricSuccessfulInteractions host) in *.
  set (hf := HistoricFailedInteractions host) in *.
  set (rs := RecentSuccessfulInteractions host) in *.
  set (rf := RecentFailedInteractions host) in *.
  pose proof (of_uint64_represents hs ltac:(lia)) as Rhs.
  pose proof (of_uint64_represents hf ltac:(lia)) as Rhf.
  pose proof (of_uint64_represents rs ltac:(lia)) as Rrs.
  pose proof (of_uint64_represents rf ltac:(lia)) as Rrf.
  assert (Hle : forall n, n <= hs + hf + rs + rf ->
            (inject_Z n <= magnitude limit)%Q).
  { intros n Hn. apply Qle_trans with (inject_Z (hs + hf + rs + rf));
      [apply inject_Z_le; exact Hn | exact Hlim]. }
  assert (G0 : F64.gt (F64.add (F64.of_uint64 hs) (F64.of_uint64 hf)) limit
               = false).
  { apply (gt_represents_false _ (hs + hf)); [|exact Vl|apply Hle; lia].
    apply add_represents; [assumption|assumption|lia]. }
  assert (G1 : F64.gt (F64.add (F64.of_uint64 rs) (F64.of_uint64 rf))
                 product = false).
  { apply (gt_represents_false _ (rs + rf)); [|exact Vcap|exact Hcap].
    apply add_represents; [assumption|assumption|lia]. }
  pose proof (add_represents _ _ _ _ Rhs Rrs ltac:(lia)) as Rs.
  pose proof (add_represents _ _ _ _ Rhf Rrf ltac:(lia)) as Rf.
  assert (G2 : F64.gt (F64.add (F64.add (F64.of_uint64 hs) (F64.of_uint64 rs))
                               (F64.add (F64.of_uint64 hf) (F64.of_uint64 rf)))
                 limit = false).
  { apply (gt_represents_false _ ((hs + rs) + (hf + rf)));
      [|exact Vl|apply Hle; lia].
    apply add_represents; [assumption|assumption|lia]. }
  unfold decayOneBlock. fold hs hf. rewrite G0. cbn [fst snd].
  unfold clampRecent. rewrite G0, G1. cbn [fst snd].
  unfold decayRest. rewrite G2, andb_false_r. cbn [fst snd].
  rewrite (to_uint64_represents unrepresentable _ _ Rs) by lia.
  rewrite (to_uint64_represents unrepresentable _ _ Rf) by lia.
  reflexivity.
Qed.

Lemma thin_history_exact_merge_witness :
  updateHostHistoricInteractions Pow_exponent_one unrepresentable_indefinite
    decay_0_995 limit_500 weight_0_01 product_5 (entry 100 20 3 1 1000) 1007
  = entry 103 21 0 0 1007.
Proof.
  apply (thin_history_exact_merge Pow_exponent_one unrepresentable_indefinite
           decay_0_995 limit_500 weight_0_01 product_5 (entry 100 20 3 1 1000)
             1007).
  - exact scenario_A_config.
  - unfold counters_nonneg. simpl. lia.
  - simpl. lia.
  - vm_compute. intros H. discriminate H.
  - vm_compute. intros H. discriminate H.
  - vm_compute. intros H. discriminate H.
Defined.

(** ** Decay without recent interactions *)

Lemma gt_zero_false cap :
  nonneg_finite cap -> F64.gt (S754_zero false) cap = false.
Proof.
  intros Hc. destruct (F64.gt (S754_zero false) cap) eqn:E; [|reflexivity].
  apply (gt_magnitude _ cap) in E; [|destruct represents_zero; assumption
                                    |exact Hc].
  pose proof (magnitude_nonneg cap). simpl magnitude in E. lra.
Qed.

Lemma add_zero_r x :
  nonneg_finite x -> F64.add x (S754_zero false) = x.
Proof. intros [_ [->|(m & e & ->)]]; reflexivity. Qed.

(** Without recent interactions nothing is merged, whatever the cap. *)
Lemma clampRecent_zero limit weight product hsi hfi :
  nonneg_finite limit -> (magnitude limit < pow2 1022)%Q ->
  nonneg_finite weight -> (magnitude weight <= 1)%Q ->
  nonneg_finite product ->
  nonneg_finite hsi -> nonneg_finite hfi ->
  (magnitude hsi < pow2 66)%Q -> (magnitude hfi < pow2 66)%Q ->
  clampRecent limit weight product hsi hfi (S754_zero false) (S754_zero false)
  = (S754_zero false, S754_zero false).
Proof.
  intros Hl Bl Hw Bw Hp V1 V2 B1 B2.
  destruct represents_zero as [Vz _].
  assert (Bz : (magnitude (S754_zero false) < pow2 65)%Q) by apply pow2_pos.
  destruct (clampRecent_bounds limit weight product hsi hfi _ _
              Hl Bl Hw Bw Hp V1 V2 B1 B2 Vz Vz Bz Bz) as (Hcap & _).
  unfold recentCap in Hcap. unfold clampRecent.
  change (F64.add (S754_zero false) (S754_zero false))
    with (S754_zero false).
  destruct (F64.gt (F64.add hsi hfi) limit);
    rewrite (gt_zero_false _ Hcap); reflexivity.
Qed.

(** One multiplication by a factor of at most 1. *)
Lemma fraction_step x w (X : Q) :
  nonneg_finite x -> nonneg_finite w -> (magnitude w <= 1)%Q ->
  (magnitude x <= X)%Q -> (X < pow2 60)%Q ->
  nonneg_finite (F64.mul x w) /\
  (magnitude (F64.mul x w) <= X + (X * pow2 (-53) + pow2 (-1075)))%Q.
Proof.
  intros Hx Hw Bw Bx BX.
  destruct (F64_mul_fraction_rounds_to x w 60 Hx Hw ltac:(lra) Bw ltac:(lia))
    as [(Hz & Hup & _) _].
  split; [exact Hz|].
  pose proof (magnitude_nonneg x) as Px. pose proof (magnitude_nonneg w) as Pw.
  pose proof (pow2_pos (-53)) as Hu.
  assert (Hp : (magnitude x * magnitude w <= X)%Q) by nra.
  assert (Hpu : (magnitude x * magnitude w * pow2 (-53) <= X * pow2 (-53))%Q).
  { apply Qmult_le_compat_r; lra. }
  lra.
Qed.

(** Two roundings up of a counter below 2^52 stay below the next integer. *)
Lemma two_roundings_below_next (H u eta X1 X2 : Q) :
  (0 <= H -> H * u <= (1 # 2) - u -> 0 < u -> u <= 1 # 16 ->
   0 <= eta -> 4 * eta <= u ->
   X1 == H + (H * u + eta) -> X2 == X1 + (X1 * u + eta) ->
   X1 <= X2 /\ X2 < H + 1)%Q.
Proof.
  intros HH Ha Hu Hu1 He He4 E1 E2.
  set (a := (H * u)%Q) in *.
  assert (A1 : (a * u <= (1 # 2) * u)%Q).
  { apply Qmult_le_compat_r; lra. }
  assert (A2 : (eta * u <= eta)%Q) by nra.
  assert (A0 : (0 <= a)%Q) by (unfold a; nra).
  assert (E3 : (X1 * u == a + a * u + eta * u)%Q).
  { rewrite E1. unfold a. ring. }
  assert (P1 : (0 <= X1)%Q) by lra.
  assert (P2 : (0 <= X1 * u)%Q) by nra.
  split; lra.
Qed.

Lemma counter_not_raised unrepresentable n z (X1 : Q) :
  0 <= n < 2 ^ 52 -> nonneg_finite z ->
  (X1 == inject_Z n + (inject_Z n * pow2 (-53) + pow2 (-1075)))%Q ->
  (magnitude z <= X1 + (X1 * pow2 (-53) + pow2 (-1075)))%Q ->
  F64.to_uint64 unrepresentable z <= n.
Proof.
  intros Hn Hz E1 Hm.
  assert (Hn52 : (inject_Z n <= pow2 52 - 1)%Q).
  { assert (H1 : (inject_Z (n + 1) <= inject_Z (2 ^ 52))%Q)
      by (apply inject_Z_le; lia).
    rewrite inject_Z_plus, pow2_inject in H1 by lia.
    change (inject_Z 1) with 1%Q in H1. lra. }
  assert (Hu52 : (pow2 52 * pow2 (-53) == 1 # 2)%Q).
  { rewrite <- pow2_add. reflexivity. }
  destruct unit_roundoff_small as [Hu0 Hu1].
  pose proof (pow2_pos (-1075)) as He.
  assert (He4 : (4 * pow2 (-1075) <= pow2 (-53))%Q).
  { assert (E : (pow2 (-1073) == pow2 2 * pow2 (-1075))%Q)
      by (rewrite <- pow2_add; reflexivity).
    change (pow2 2) with 4%Q in E.
    assert (pow2 (-1073) <= pow2 (-53))%Q by (apply pow2_le; lia). lra. }
  assert (H0 : (0 <= inject_Z n)%Q).
  { change 0%Q with (inject_Z 0). apply inject_Z_le. lia. }
  assert (Ha : (inject_Z n * pow2 (-53) <= (1 # 2) - pow2 (-53))%Q).
  { assert ((inject_Z n) * pow2 (-53) <= (pow2 52 - 1) * pow2 (-53))%Q
      by (apply Qmult_le_compat_r; lra).
    lra. }
  destruct (two_roundings_below_next (inject_Z n) (pow2 (-53)) (pow2 (-1075))
              X1 (X1 + (X1 * pow2 (-53) + pow2 (-1075)))%Q
              H0 Ha Hu0 Hu1 ltac:(lra) He4 E1 ltac:(reflexivity))
    as [_ Hlt].
  assert (B64 : (magnitude z < pow2 64)%Q).
  { assert (pow2 52 <= pow2 64)%Q by (apply pow2_le; lia). lra. }
  pose proof (to_uint64_le_magnitude unrepresentable z Hz B64) as Hle.
  assert (Hq : (inject_Z (F64.to_uint64 unrepresentable z)
                < inject_Z (n + 1))%Q).
  { rewrite inject_Z_plus. change (inject_Z 1) with 1%Q. lra. }
  rewrite <- Zlt_Qlt in Hq. lia.
Qed.

(** X6. Without recent interactions the update never raises a historic
    counter: with a decay factor of at most 1, and a power of it that is at
    most 1 when more than one block passed, a record with no recent
    interactions and historic counters below 2^52 comes out of the update,
    at whatever height, with historic counters that are at most what they
    were. *)
Theorem decay_never_raises
        math_Pow unrepresentable decay limit weight product host bh :
  config_ok decay limit weight product ->
  0 <= HistoricSuccessfulInteractions host < 2 ^ 52 ->
  0 <= HistoricFailedInteractions host < 2 ^ 52 ->
  RecentSuccessfulInteractions host = 0 ->
  RecentFailedInteractions host = 0 ->
  (1 < U64.sub bh (LastHistoricUpdate host) ->
   nonneg_finite
     (math_Pow decay
        (F64.of_uint64 (U64.sub (U64.sub bh (LastHistoricUpdate host)) 1))) /\
   (magnitude
      (math_Pow decay
         (F64.of_uint64 (U64.sub (U64.sub bh (LastHistoricUpdate host)) 1)))
    <= 1)%Q) ->
  let host' :=
    updateHostHistoricInteractions math_Pow unrepresentable decay limit
      weight product host bh in
  HistoricSuccessfulInteractions host'
    <= HistoricSuccessfulInteractions host /\
  HistoricFailedInteractions host' <= HistoricFailedInteractions host.
Proof.
  intros Hcfg Hs Hf Ers Erf HPow. cbv zeta.
  destruct (Z.eq_dec (U64.sub bh (LastHistoricUpdate host)) 0) as [Hz|Hne].
  { unfold updateHostHistoricInteractions. rewrite Hz. simpl. lia. }
  rewrite update_merge by exact Hne. cbv zeta.
  cbn [HistoricSuccessfulInteractions HistoricFailedInteractions].
  rewrite Ers, Erf. change (F64.of_uint64 0) with (S754_zero false).
  pose proof Hcfg as (Hd & Bd & Hl & Bl & Hw & Bw & Hp & _).
  assert (Hrange : counters_in_range host).
  { unfold counters_in_range, U64.in_range, U64.modulus.
    rewrite Ers, Erf. lia. }
  destruct (decayOneBlock_bounds decay limit host Hd Bd Hrange)
    as (V1 & V2 & B1 & B2).
  rewrite (clampRecent_zero limit weight product _ _
             Hl Bl Hw Bw Hp V1 V2 B1 B2).
  cbn [fst snd]. rewrite !add_zero_r by assumption.
  set (hs := HistoricSuccessfulInteractions host) in *.
  set (hf := HistoricFailedInteractions host) in *.
  pose proof (of_uint64_represents hs ltac:(lia)) as [Vs Ms].
  pose proof (of_uint64_represents hf ltac:(lia)) as [Vf Mf].
  pose proof (pow2_pos (-53)) as Hu. pose proof (pow2_pos (-1075)) as He.
  set (Xs := (inject_Z hs + (inject_Z hs * pow2 (-53) + pow2 (-1075)))%Q).
  set (Xf := (inject_Z hf + (inject_Z hf * pow2 (-53) + pow2 (-1075)))%Q).
  assert (P0 : forall n, 0 <= n < 2 ^ 52 ->
            (0 <= inject_Z n /\ inject_Z n < pow2 52)%Q).
  { intros n Hn. split.
    - change 0%Q with (inject_Z 0). apply inject_Z_le. lia.
    - rewrite <- pow2_inject by lia. apply inject_Z_lt. lia. }
  destruct (P0 hs Hs) as [Ps0 Ps52]. destruct (P0 hf Hf) as [Pf0 Pf52].
  assert (M60 : (pow2 52 <= pow2 58)%Q) by (apply pow2_le; lia).
  assert (M59 : (pow2 59 == 2 * pow2 58)%Q) by (apply (pow2_succ 58)).
  assert (M60' : (pow2 60 == 2 * pow2 59)%Q) by (apply (pow2_succ 59)).
  assert (Hu16 : (pow2 (-53) <= 1 # 16)%Q) by apply unit_roundoff_small.
  assert (He2 : (pow2 (-1075) <= 1 # 2)%Q) by apply underflow_unit_small.
  assert (A1 : nonneg_finite (fst (decayOneBlock decay limit host)) /\
               (magnitude (fst (decayOneBlock decay limit host)) <= Xs)%Q /\
               nonneg_finite (snd (decayOneBlock decay limit host)) /\
               (magnitude (snd (decayOneBlock decay limit host)) <= Xf)%Q).
  { split; [exact V1|]. split; [|split; [exact V2|]].
    - unfold decayOneBlock. fold hs hf. destruct (F64.gt _ limit); cbn [fst].
      + apply (fraction_step _ decay (inject_Z hs) Vs Hd Bd); lra.
      + unfold Xs. rewrite Ms. nra.
    - unfold decayOneBlock. fold hs hf. destruct (F64.gt _ limit); cbn [snd].
      + apply (fraction_step _ decay (inject_Z hf) Vf Hd Bd); lra.
      + unfold Xf. rewrite Mf. nra. }
  destruct A1 as (_ & A1 & _ & A2).
  assert (M1 : (1 <= pow2 59)%Q).
  { change 1%Q with (pow2 0). apply pow2_le. lia. }
  assert (Su : (inject_Z hs * pow2 (-53) <= inject_Z hs)%Q) by nra.
  assert (Fu : (inject_Z hf * pow2 (-53) <= inject_Z hf)%Q) by nra.
  assert (Xs60 : (Xs < pow2 60)%Q) by (unfold Xs; lra).
  assert (Xf60 : (Xf < pow2 60)%Q) by (unfold Xf; lra).
  set (h1 := fst (decayOneBlock decay limit host)) in *.
  set (h2 := snd (decayOneBlock decay limit host)) in *.
  assert (A3 :
    nonneg_finite
      (fst (decayRest math_Pow decay limit
              (U64.sub bh (LastHistoricUpdate host)) h1 h2)) /\
    (magnitude
       (fst (decayRest math_Pow decay limit
               (U64.sub bh (LastHistoricUpdate host)) h1 h2))
     <= Xs + (Xs * pow2 (-53) + pow2 (-1075)))%Q /\
    nonneg_finite
      (snd (decayRest math_Pow decay limit
              (U64.sub bh (LastHistoricUpdate host)) h1 h2)) /\
    (magnitude
       (snd (decayRest math_Pow decay limit
               (U64.sub bh (LastHistoricUpdate host)) h1 h2))
     <= Xf + (Xf * pow2 (-53) + pow2 (-1075)))%Q).
  { assert (Xs0 : (0 <= Xs * pow2 (-53))%Q) by (unfold Xs; nra).
    assert (Xf0 : (0 <= Xf * pow2 (-53))%Q) by (unfold Xf; nra).
    unfold decayRest.
    destruct (1 <? U64.sub bh (LastHistoricUpdate host)) eqn:E1; cbn [andb].
    - apply Z.ltb_lt in E1. destruct (HPow E1) as [Vp Bp].
      destruct (F64.gt (F64.add h1 h2) limit); cbn [fst snd].
      + destruct (fraction_step h1 _ Xs V1 Vp Bp A1 Xs60) as [K1 K2].
        destruct (fraction_step h2 _ Xf V2 Vp Bp A2 Xf60) as [K3 K4].
        tauto.
      + split; [exact V1|]. split; [lra|]. split; [exact V2|lra].
    - cbn [fst snd].
      split; [exact V1|]. split; [lra|]. split; [exact V2|lra]. }
  destruct A3 as (W1 & C1 & W2 & C2).
  split.
  - apply (counter_not_raised unrepresentable hs _ Xs Hs W1);
      [reflexivity | exact C1].
  - apply (counter_not_raised unrepresentable hf _ Xf Hf W2);
      [reflexivity | exact C2].
Qed.

Lemma decay_never_raises_witness :
  HistoricSuccessfulInteractions
    (updateHostHistoricInteractions Pow_exponent_one
       unrepresentable_indefinite decay_0_995 limit_500 weight_0_01 product_5
       (entry 1000 300 0 0 1000) 1002) <= 1000.
Proof.
  refine (proj1 (decay_never_raises Pow_exponent_one
                   unrepresentable_indefinite decay_0_995 limit_500
                   weight_0_01 product_5 (entry 1000 300 0 0 1000) 1002
                   scenario_A_config _ _ eq_refl eq_refl _)).
  - simpl. lia.
  - simpl. lia.
  - intros _. destruct scenario_A_config as (Hd & Bd & _).
    split; [exact Hd | exact Bd].
Defined.

(** ** The recency clamp *)

(** The rounded product of the two constants is one admissible value of the
    folded product. *)
Lemma config_ok_rounded_product decay limit weight :
  nonneg_finite decay -> (magnitude decay <= 1)%Q ->
  nonneg_finite limit -> (magnitude limit < pow2 1022)%Q ->
  nonneg_finite weight -> (magnitude weight <= 1)%Q ->
  config_ok decay limit weight (F64.mul weight limit).
Proof.
  intros Hd Bd Hl Bl Hw Bw.
  destruct (F64_fraction_mul_rounds_to weight limit 1022 Hw Hl Bw Bl
              ltac:(lia)) as [(Hp & Hup & _) _].
  repeat (split; [assumption|]).
  pose proof (magnitude_nonneg weight). pose proof (magnitude_nonneg limit).
  assert (P : (0 <= magnitude weight * magnitude limit)%Q)
    by (apply Qmult_le_0_compat; assumption).
  assert (U : (pow2 (-53) <= pow2 (-50))%Q) by (apply pow2_le; lia).
  assert (E : (pow2 (-1075) <= pow2 (-1000))%Q) by (apply pow2_le; lia).
  assert (PU : (magnitude weight * magnitude limit * pow2 (-53)
                <= magnitude weight * magnitude limit * pow2 (-50))%Q).
  { nra. }
  lra.
Qed.










(** ** An update below the height the record carries *)

(** C7. Run at a height below the one the record carries, the update takes
    the difference of the two heights modulo 2^64 for the number of blocks
    that passed: at height 999, on a record last updated at height 1000, it
    is 2^64 - 1.  [LastHistoricUpdate] goes back to 999 and, the power of
    the decay factor over that many blocks being zero, a history of 1000
    successes and 300 failures is erased.  At whatever lower height the
    update is run, [LastHistoricUpdate] goes back to that height. *)
Theorem update_below_carried_height math_Pow unrepresentable :
  math_Pow decay_0_995 (F64.of_uint64 (2 ^ 64 - 2)) = S754_zero false ->
  U64.sub 999 (LastHistoricUpdate (entry 1000 300 0 0 1000)) = 2 ^ 64 - 1 /\
  updateHostHistoricInteractions math_Pow unrepresentable
    decay_0_995 limit_500 weight_0_01 product_5 (entry 1000 300 0 0 1000) 999
  = entry 0 0 0 0 999 /\
  (forall decay limit weight product host bh,
     U64.in_range bh -> U64.in_range (LastHistoricUpdate host) ->
     bh < LastHistoricUpdate host ->
     LastHistoricUpdate
       (updateHostHistoricInteractions math_Pow unrepresentable decay limit
          weight product host bh)
     = bh /\
     LastHistoricUpdate
       (updateHostHistoricInteractions math_Pow unrepresentable decay limit
          weight product host bh)
     < LastHistoricUpdate host).
Proof.
  intros HPow. split; [reflexivity|]. split.
  - rewrite (update_Pow_ext math_Pow unrepresentable Pow_vanishing).
    + vm_compute. reflexivity.
    + change (F64.of_uint64
                (U64.sub
                   (U64.sub 999 (LastHistoricUpdate (entry 1000 300 0 0 1000)))
                   1))
        with (F64.of_uint64 (2 ^ 64 - 2)).
      rewrite HPow. reflexivity.
  - intros decay limit weight product host bh Hbh Hl Hlt.
    rewrite (update_LastHistoricUpdate math_Pow unrepresentable decay limit
               weight product host bh Hbh Hl).
    split; [reflexivity | exact Hlt].
Qed.

Lemma update_below_carried_height_witness :
  updateHostHistoricInteractions Pow_vanishing unrepresentable_indefinite
    decay_0_995 limit_500 weight_0_01 product_5 (entry 1000 300 0 0 1000) 999
  = entry 0 0 0 0 999.
Proof.
  exact (proj1 (proj2 (update_below_carried_height Pow_vanishing
                         unrepresentable_indefinite eq_refl))).
Defined.

(** ** The directory under the two calls *)

Section Directory.

Variable math_Pow : F64.float64 -> F64.float64 -> F64.float64.
Variable unrepresentable : F64.float64 -> Z.
Variables decay limit weight product : F64.float64.

Abbreviation IncrementSuccessful :=
  (IncrementSuccessfulInteractions math_Pow unrepresentable decay limit weight
    product).
Abbreviation IncrementFailed :=
  (IncrementFailedInteractions math_Pow unrepresentable decay limit weight
    product).
Abbreviation serve :=
  (perform math_Pow unrepresentable decay limit weight product).

Lemma Modify_is_Some tree host key :
  is_Some (Modify tree host !! key) <-> is_Some (tree !! key).
Proof.
  unfold Modify. destruct (tree !! PublicKey host) as [h|] eqn:E; [|tauto].
  rewrite lookup_insert. case_decide as Hk; [|tauto].
  subst key. rewrite E. split; eauto.
Qed.

Lemma perform_fields hdb c :
  (forall key, is_Some (hostTree (serve hdb c) !! key) <->
               is_Some (hostTree hdb !! key)) /\
  (key_of c <> None ->
   hostdb.blockHeight (serve hdb c) = hostdb.blockHeight hdb /\
   online (serve hdb c) = online hdb).
Proof.
  destruct c as [k|k|bh|b]; simpl.
  - unfold IncrementSuccessfulInteractions.
    destruct (Select (hostTree hdb) k); simpl.
    + split; [intros key; apply Modify_is_Some | tauto].
    + tauto.
  - unfold IncrementFailedInteractions.
    destruct (Select (hostTree hdb) k); [|tauto].
    destruct (negb (online hdb)); simpl; [tauto|].
    split; [intros key; apply Modify_is_Some | tauto].
  - split; [tauto | congruence].
  - split; [tauto | congruence].
Qed.

(** X7. The two calls never add a host to the directory nor remove one, and
    they never touch the block height or the connectivity flag of the
    tracker; so the hosts of the directory are the same after any sequence
    of calls and of changes of the height and the flag. *)
Theorem calls_keep_hosts l : forall hdb,
  (forall key,
     is_Some (hostTree (calls math_Pow unrepresentable decay limit weight
       product
                          hdb l) !! key)
     <-> is_Some (hostTree hdb !! key)) /\
  (Forall (fun c => key_of c <> None) l ->
   hostdb.blockHeight (calls math_Pow unrepresentable decay limit weight
     product hdb l)
     = hostdb.blockHeight hdb /\
   online (calls math_Pow unrepresentable decay limit weight product hdb l)
     = online hdb).
Proof.
  induction l as [|c l IH]; intros hdb; simpl.
  - tauto.
  - destruct (IH (serve hdb c)) as [IH1 IH2].
    destruct (perform_fields hdb c) as [P1 P2].
    split.
    + intros key. rewrite IH1. apply P1.
    + intros Hl. inversion Hl as [|? ? Hc Hl']; subst.
      destruct (IH2 Hl') as [-> ->]. apply P2, Hc.
Qed.

(** X8. Online, for a key of the directory, [IncrementFailedInteractions]
    stores under that key the record it fetched, decayed to the current
    height and with one more recent failure; no other record changes. *)
Theorem failed_online_records hdb key host :
  keyed (hostTree hdb) -> online hdb = true ->
  hostTree hdb !! key = Some host ->
  let hdb' :=
    IncrementFailedInteractions math_Pow unrepresentable decay limit weight
      product
      hdb key in
  let host' :=
    updateHostHistoricInteractions math_Pow unrepresentable decay limit
      weight product host (hostdb.blockHeight hdb) in
  hostTree hdb' !! key
    = Some {| PublicKey := PublicKey host';
              HistoricSuccessfulInteractions :=
                HistoricSuccessfulInteractions host';
              HistoricFailedInteractions := HistoricFailedInteractions host';
              RecentSuccessfulInteractions :=
                RecentSuccessfulInteractions host';
              RecentFailedInteractions :=
                U64.incr (RecentFailedInteractions host');
              LastHistoricUpdate := LastHistoricUpdate host' |} /\
  (forall other, other <> key ->
     hostTree hdb' !! other = hostTree hdb !! other).
Proof.
  intros Hk Hon Hh.
  pose proof (Hk key host Hh) as Hpk.
  unfold IncrementFailedInteractions, Select. rewrite Hh, Hon. simpl.
  rewrite Modify_lookup
    by (rewrite failed_PublicKey, Hpk, Hh; eauto).
  rewrite failed_PublicKey, Hpk.
  split; [apply lookup_insert_eq|].
  intros other Hne. apply lookup_insert_ne. congruence.
Qed.

Lemma serve_keyed hdb c :
  keyed (hostTree hdb) -> keyed (hostTree (serve hdb c)).
Proof.
  intros Hk. destruct c; simpl; try exact Hk.
  - apply IncrementSuccessful_keyed, Hk.
  - apply IncrementFailed_keyed, Hk.
Qed.

(** A call about a host of a keyed directory is an insertion under its key,
    or nothing. *)
Lemma serve_insert hdb c key :
  keyed (hostTree hdb) -> key_of c = Some key ->
  serve hdb c =
    match hostTree hdb !! key with
    | Some host =>
        if match c with CallFailed _ => online hdb | _ => true end then
          {| hostTree :=
               <[key := match c with
                        | CallFailed _ =>
                            recordFailed math_Pow unrepresentable decay limit
                              weight product host (hostdb.blockHeight hdb)
                        | _ =>
                            recordSuccessful math_Pow unrepresentable decay
                              limit weight product host (hostdb.blockHeight hdb)
                        end]> (hostTree hdb);
             hostdb.blockHeight := hostdb.blockHeight hdb;
             online := online hdb |}
        else hdb
    | None => hdb
    end.
Proof.
  intros Hk Hc. destruct c as [k|k|?|?]; try discriminate;
    injection Hc as ->; simpl.
  - unfold IncrementSuccessfulInteractions, Select.
    destruct (hostTree hdb !! key) as [host|] eqn:Hh; [|reflexivity].
    pose proof (Hk key host Hh) as Hpk.
    rewrite Modify_lookup by (rewrite successful_PublicKey, Hpk, Hh; eauto).
    rewrite successful_PublicKey, Hpk. reflexivity.
  - unfold IncrementFailedInteractions, Select.
    destruct (hostTree hdb !! key) as [host|] eqn:Hh; [|reflexivity].
    destruct (online hdb); [|reflexivity]. simpl.
    pose proof (Hk key host Hh) as Hpk.
    rewrite Modify_lookup by (rewrite failed_PublicKey, Hpk, Hh; eauto).
    rewrite failed_PublicKey, Hpk. reflexivity.
Qed.

(** X9. Calls about two different hosts do not interfere: served in either
    order they leave the same tracker. *)
Theorem calls_commute hdb c1 c2 key1 key2 :
  keyed (hostTree hdb) ->
  key_of c1 = Some key1 -> key_of c2 = Some key2 -> key1 <> key2 ->
  perform math_Pow unrepresentable decay limit weight product
    (perform math_Pow unrepresentable decay limit weight product hdb c1) c2
  = perform math_Pow unrepresentable decay limit weight product
      (perform math_Pow unrepresentable decay limit weight product hdb c2) c1.
Proof.
  intros Hk H1 H2 Hne.
  rewrite (serve_insert (serve hdb c1) c2 key2 (serve_keyed hdb c1 Hk) H2).
  rewrite (serve_insert (serve hdb c2) c1 key1 (serve_keyed hdb c2 Hk) H1).
  rewrite (serve_insert hdb c1 key1 Hk H1), (serve_insert hdb c2 key2 Hk H2).
  destruct (hostTree hdb !! key1) as [h1|] eqn:E1;
    destruct (hostTree hdb !! key2) as [h2|] eqn:E2;
    destruct (match c1 with CallFailed _ => online hdb | _ => true end) eqn:G1;
    destruct (match c2 with CallFailed _ => online hdb | _ => true end) eqn:G2;
    cbn [hostTree hostdb.blockHeight online];
    rewrite ?lookup_insert_ne by congruence;
    rewrite ?E1, ?E2, ?G1, ?G2; try reflexivity.
  f_equal. apply insert_insert_ne. congruence.
Qed.

End Directory.

Lemma hdb_two_hosts_keyed : keyed (hostTree hdb_two_hosts).
Proof.
  intros key host. unfold hdb_two_hosts. cbn [hostTree].
  rewrite lookup_insert. case_decide as E.
  - intros [= <-]. exact E.
  - rewrite lookup_singleton. case_decide as E'.
    + intros [= <-]. exact E'.
    + discriminate.
Qed.

Lemma calls_commute_witness :
  perform Pow_exponent_one unrepresentable_indefinite
    decay_0_995 limit_500 weight_0_01 product_5
    (perform Pow_exponent_one unrepresentable_indefinite
       decay_0_995 limit_500 weight_0_01 product_5 hdb_two_hosts
       (CallSuccessful "host")) (CallFailed "other")
  = perform Pow_exponent_one unrepresentable_indefinite
      decay_0_995 limit_500 weight_0_01 product_5
      (perform Pow_exponent_one unrepresentable_indefinite
         decay_0_995 limit_500 weight_0_01 product_5 hdb_two_hosts
         (CallFailed "other")) (CallSuccessful "host").
Proof.
  apply (calls_commute Pow_exponent_one unrepresentable_indefinite
           decay_0_995 limit_500 weight_0_01 product_5 hdb_two_hosts
           (CallSuccessful "host") (CallFailed "other") "host" "other"
           hdb_two_hosts_keyed eq_refl eq_refl).
  discriminate.
Defined.

Lemma failed_online_records_witness :
  hostTree
    (IncrementFailedInteractions Pow_exponent_one
       unrepresentable_indefinite decay_0_995 limit_500 weight_0_01 product_5
       (hdb_scenario true) "host") !! "host"
  = Some (entry 105 0 0 1 1001).
Proof.
  exact (proj1 (failed_online_records Pow_exponent_one
                  unrepresentable_indefinite decay_0_995 limit_500 weight_0_01
                    product_5
                  (hdb_scenario true) "host" (entry 100 0 10 0 1000)
                  (hdb_scenario_keyed true) eq_refl eq_refl)).
Defined.

(** ** Repairs *)

Lemma Repairing_loop_spec pieces :
  Repairing_loop pieces = true <->
  exists p, In p pieces /\ Repairing p = true.
Proof.
  induction pieces as [|q pieces IH]; simpl.
  - split; [discriminate | intros (p & [] & _)].
  - destruct (Repairing q) eqn:E.
    + split; [intros _; exists q; auto | reflexivity].
    + rewrite IH. split.
      * intros (p & Hin & Hp). exists p. auto.
      * intros (p & [<-|Hin] & Hp); [congruence | exists p; auto].
Qed.

(** X10. [Repairing] answers true exactly when some piece of the file is being
    repaired, wherever it sits among the pieces: files whose pieces are a
    rearrangement of each other get the same answer, and pieces added to a
    file under repair leave it under repair. *)
Theorem Repairing_some_piece f :
  (IsRepairing f = true <->
   exists p, In p (Pieces f) /\ Repairing p = true) /\
  (IsRepairing f = false <->
   forall p, In p (Pieces f) -> Repairing p = false) /\
  (forall g, Pieces g ≡ₚ Pieces f -> IsRepairing g = IsRepairing f) /\
  (forall g more, Pieces g = Pieces f ++ more ->
     IsRepairing g = IsRepairing f || Repairing_loop more).
Proof.
  unfold IsRepairing. split; [apply Repairing_loop_spec|]. split; [|split].
  - rewrite <- not_true_iff_false, Repairing_loop_spec. split.
    + intros H p Hin. apply not_true_iff_false. intros Hp. apply H. eauto.
    + intros H (p & Hin & Hp). rewrite (H p Hin) in Hp. discriminate.
  - intros g Hp. apply eq_true_iff_eq. rewrite !Repairing_loop_spec.
    split; intros (p & Hin & Hr); exists p; (split; [|exact Hr]).
    + apply (Permutation_in _ Hp), Hin.
    + apply (Permutation_in _ (Permutation_sym Hp)), Hin.
  - intros g more ->. induction (Pieces f) as [|q l IH]; simpl.
    + reflexivity.
    + destruct (Repairing q); [reflexivity | exact IH].
Qed.

(** ** Availability *)

Lemma activeCount_le_length pieces :
  activeCount pieces <= Z.of_nat (length pieces).
Proof.
  induction pieces as [|p pieces IH]; [unfold activeCount; simpl; lia|].
  rewrite activeCount_cons. simpl length. destruct (Active p); lia.
Qed.

Lemma activeCount_app l1 l2 :
  activeCount (l1 ++ l2) = activeCount l1 + activeCount l2.
Proof.
  induction l1 as [|p l1 IH]; simpl.
  - unfold activeCount at 2. simpl. lia.
  - rewrite !activeCount_cons, IH. lia.
Qed.

(** X11. An available file has at least [PiecesRequired] pieces; and it stays
    available when pieces are added to it, in whatever order the pieces then
    come, and when its quorum is lowered. *)
Theorem Available_monotone f :
  Available f = true ->
  PiecesRequired f <= Z.of_nat (length (Pieces f)) /\
  (forall g more,
     PiecesRequired g <= PiecesRequired f ->
     Pieces g ≡ₚ Pieces f ++ more ->
     Available g = true).
Proof.
  unfold Available. rewrite Available_loop_spec. intros [Hne Hq]. split.
  - pose proof (activeCount_le_length (Pieces f)). lia.
  - intros g more Hr Hp. apply Available_loop_spec. split.
    + intros E. rewrite E in Hp. symmetry in Hp.
      apply Permutation_nil_r in Hp. apply app_eq_nil in Hp as [? _].
      contradiction.
    + rewrite (activeCount_Permutation _ _ Hp), activeCount_app.
      pose proof (activeCount_nonneg more). lia.
Qed.

Lemma Available_monotone_witness :
  Available (file_of 2 [piece true 0; piece false 0; piece true 0]) = true /\
  Available (file_of 1 [piece false 0; piece true 0; piece false 0;
                        piece true 0]) = true.
Proof.
  assert (H : Available (file_of 2 [piece true 0; piece false 0; piece true 0])
              = true) by reflexivity.
  split; [exact H|].
  apply (proj2 (Available_monotone _ H)
           (file_of 1 [piece false 0; piece true 0; piece false 0;
                       piece true 0])
           [piece false 0]).
  - simpl. lia.
  - apply (Permutation_cons_append
             [piece true 0; piece false 0; piece true 0] (piece false 0)).
Defined.

(** ** Expiry *)

(** X12. The time remaining is a [uint64] value.  For a file whose first
    contract opens its window at a height [w], with heights that are
    [uint64] values: it never exceeds [w]; it is 0 exactly from height [w]
    on; before that, the current height plus the time remaining is [w]; and
    it never grows as the height grows. *)
Theorem TimeRemaining_bounds f bh :
  U64.in_range (TimeRemaining f bh) /\
  (forall p rest, Pieces f = p :: rest ->
     U64.in_range (WindowStart (Contract p)) -> U64.in_range bh ->
     TimeRemaining f bh <= WindowStart (Contract p) /\
     (TimeRemaining f bh = 0 <-> WindowStart (Contract p) <= bh) /\
     (bh <= WindowStart (Contract p) ->
      bh + TimeRemaining f bh = WindowStart (Contract p)) /\
     (forall bh', U64.in_range bh' -> bh <= bh' ->
        TimeRemaining f bh' <= TimeRemaining f bh)).
Proof.
  unfold TimeRemaining. split.
  - destruct (Pieces f) as [|p rest]; [unfold U64.in_range, U64.modulus; lia|].
    destruct (_ <? bh); [unfold U64.in_range, U64.modulus; lia|].
    apply wrap_in_range.
  - intros p rest -> Hw Hb.
    assert (Hsub : forall h, U64.in_range h -> h <= WindowStart (Contract p) ->
              U64.sub (WindowStart (Contract p)) h
              = WindowStart (Contract p) - h).
    { intros h Hh Hle. apply sub_small; assumption. }
    unfold U64.in_range in *.
    split; [|split; [|split]].
    + destruct (_ <? bh) eqn:E; [lia|].
      rewrite Hsub by (unfold U64.in_range; lia). lia.
    + destruct (_ <? bh) eqn:E; [lia|].
      rewrite Hsub by (unfold U64.in_range; lia). lia.
    + intros Hle. destruct (_ <? bh) eqn:E; [lia|].
      rewrite Hsub by (unfold U64.in_range; lia). lia.
    + intros bh' Hb' Hle.
      destruct (_ <? bh') eqn:E'; destruct (_ <? bh) eqn:E;
        rewrite ?Hsub by (unfold U64.in_range; lia); lia.
Qed.

Lemma TimeRemaining_bounds_witness :
  TimeRemaining (file_of 1 [piece true 2000; piece true 5000]) 1800 <= 2000 /\
  1800 + TimeRemaining (file_of 1 [piece true 2000; piece true 5000]) 1800
    = 2000 /\
  TimeRemaining (file_of 1 [piece true 2000; piece true 5000]) 1900
    <= TimeRemaining (file_of 1 [piece true 2000; piece true 5000]) 1800.
Proof.
  destruct (proj2 (TimeRemaining_bounds
                     (file_of 1 [piece true 2000; piece true 5000]) 1800)
              (piece true 2000) [piece true 5000] eq_refl)
    as (H1 & _ & H2 & H3).
  - unfold U64.in_range, U64.modulus. simpl. lia.
  - unfold U64.in_range, U64.modulus. lia.
  - split; [exact H1|]. split; [apply H2; simpl; lia|].
    apply H3; [unfold U64.in_range, U64.modulus|]; lia.
Defined.

(** ** Renaming *)

Lemma Rename_success r currentName newName entry :
  files r !! currentName = Some entry -> files r !! newName = None ->
  Rename r currentName newName =
    ({| files := <[newName := setName entry newName]>
                   (delete currentName (files r));
        blockHeight := blockHeight r;
        checkpoints := S (checkpoints r) |}, None).
Proof. intros Hc Hn. unfold Rename. rewrite Hc, Hn. reflexivity. Qed.

Lemma Rename_failure r currentName newName e :
  snd (Rename r currentName newName) = Some e ->
  fst (Rename r currentName newName) = r.
Proof.
  unfold Rename. destruct (files r !! currentName); [|reflexivity].
  destruct (files r !! newName); [reflexivity | discriminate].
Qed.

(** X13. After a renaming that succeeds the file is found under its new name,
    with that name as its nickname and its pieces, quorum and keys as they
    were; the old name is free; every other name holds what it held; the
    block height is untouched. *)
Theorem Rename_moves_entry r currentName newName entry :
  files r !! currentName = Some entry -> files r !! newName = None ->
  let r' := fst (Rename r currentName newName) in
  (exists moved,
     files r' !! newName = Some moved /\ Nickname moved = newName /\
     Pieces moved = Pieces entry /\
     PiecesRequired moved = PiecesRequired entry /\
     EncryptionKey moved = EncryptionKey entry /\
     Checksum moved = Checksum entry /\
     Available moved = Available entry /\
     IsRepairing moved = IsRepairing entry /\
     forall bh, TimeRemaining moved bh = TimeRemaining entry bh) /\
  files r' !! currentName = None /\
  (forall name, name <> currentName -> name <> newName ->
     files r' !! name = files r !! name) /\
  blockHeight r' = blockHeight r.
Proof.
  intros Hc Hn. rewrite (Rename_success _ _ _ _ Hc Hn). simpl.
  assert (Hne : currentName <> newName) by congruence.
  split; [|split; [|split]].
  - exists (setName entry newName). rewrite lookup_insert_eq.
    repeat (split; [reflexivity|]). reflexivity.
  - rewrite lookup_insert_ne by congruence. apply lookup_delete_eq.
  - intros name H1 H2.
    rewrite lookup_insert_ne by congruence.
    apply lookup_delete_ne. congruence.
  - reflexivity.
Qed.

Lemma Rename_moves_entry_witness :
  files (fst (Rename (registry ["a"; "b"]) "a" "c")) !! "a" = None /\
  files (fst (Rename (registry ["a"; "b"]) "a" "c")) !! "b"
    = files (registry ["a"; "b"]) !! "b".
Proof.
  destruct (Rename_moves_entry (registry ["a"; "b"]) "a" "c"
              (setName (file_of 1 []) "a") eq_refl eq_refl)
    as (_ & H1 & H2 & _).
  split; [exact H1|]. apply H2; discriminate.
Defined.

(** X14. A renaming succeeds exactly when the current name is in use and the
    new one is free, so never when the two names are the same; it takes a
    checkpoint exactly when it succeeds.  Renaming a file to the name it has
    is refused with the already-exists error, and with the not-found error
    when there is no such file. *)
Theorem Rename_succeeds_iff r currentName newName :
  (snd (Rename r currentName newName) = None <->
   is_Some (files r !! currentName) /\ files r !! newName = None) /\
  (snd (Rename r currentName newName) = None -> currentName <> newName) /\
  checkpoints (fst (Rename r currentName newName)) =
    match snd (Rename r currentName newName) with
    | None => S (checkpoints r)
    | Some _ => checkpoints r
    end /\
  Rename r currentName currentName =
    (r, Some (match files r !! currentName with
              | Some _ => ErrAlreadyExists
              | None => ErrNotFound
              end)).
Proof.
  unfold Rename.
  destruct (files r !! currentName) as [entry|] eqn:Hc;
    [destruct (files r !! newName) as [taken|] eqn:Hn|]; simpl.
  - split; [split; [discriminate | intros [_ H]; discriminate]|].
    split; [discriminate|]. split; reflexivity.
  - split; [split; [eauto | reflexivity]|].
    split; [intros _; congruence|]. split; reflexivity.
  - split; [split; [discriminate | intros [[x Hx] _]; discriminate]|].
    split; [discriminate|]. split; reflexivity.
Qed.

Lemma setName_setName entry name :
  setName (setName entry name) (Nickname entry) = entry.
Proof. destruct entry. reflexivity. Qed.

(** X15. Renaming a file that is stored under its own nickname and renaming it
    back both succeed and give back the files and the block height the
    renter had: two checkpoints are all that is left of them. *)
Theorem Rename_round_trip r currentName newName entry :
  files r !! currentName = Some entry -> Nickname entry = currentName ->
  files r !! newName = None ->
  let there := Rename r currentName newName in
  let back := Rename (fst there) newName currentName in
  snd there = None /\ snd back = None /\
  files (fst back) = files r /\
  blockHeight (fst back) = blockHeight r /\
  checkpoints (fst back) = S (S (checkpoints r)).
Proof.
  intros Hc Hname Hn. cbv zeta.
  assert (Hne : currentName <> newName) by congruence.
  rewrite (Rename_success _ _ _ _ Hc Hn). simpl fst. simpl snd.
  rewrite (Rename_success _ newName currentName (setName entry newName)).
  - simpl. split; [reflexivity|]. split; [reflexivity|].
    split; [|split; reflexivity].
    rewrite delete_insert_eq.
    rewrite (delete_id (delete currentName (files r)) newName)
      by (rewrite lookup_delete_ne by congruence; exact Hn).
    rewrite insert_delete_eq.
    replace (setName (setName entry newName) currentName) with entry
      by (rewrite <- Hname; symmetry; apply setName_setName).
    apply insert_id. exact Hc.
  - simpl. apply lookup_insert_eq.
  - simpl. rewrite lookup_insert_ne by congruence. apply lookup_delete_eq.
Qed.

Lemma Rename_round_trip_witness :
  files (fst (Rename (fst (Rename (registry ["a"; "b"]) "a" "c")) "c" "a"))
  = files (registry ["a"; "b"]).
Proof.
  exact (proj1 (proj2 (proj2
           (Rename_round_trip (registry ["a"; "b"]) "a" "c"
              (setName (file_of 1 []) "a") eq_refl eq_refl eq_refl)))).
Defined.

(** ** The registry invariant *)

Lemma Rename_named r currentName newName :
  named r -> named (fst (Rename r currentName newName)).
Proof.
  intros Hr. unfold Rename.
  destruct (files r !! currentName) as [entry|] eqn:Hc; [|exact Hr].
  destruct (files r !! newName) as [taken|] eqn:Hn; [exact Hr|].
  intros name f. simpl. rewrite lookup_insert. case_decide as E.
  - intros [= <-]. exact E.
  - rewrite lookup_delete. case_decide; [discriminate|]. apply Hr.
Qed.

Lemma registry_named names : named (registry names).
Proof.
  unfold named, registry. simpl.
  induction names as [|n names IH]; intros name f; simpl.
  - rewrite lookup_empty. discriminate.
  - rewrite lookup_insert. case_decide as E.
    + intros [= <-]. exact E.
    + apply IH.
Qed.

(** X16. In a registry that stores every file under its own nickname, every
    renaming, refused or not, leaves every file stored under its own
    nickname; and so does every sequence of renamings. *)
Theorem renames_named r l :
  named r -> named (renames r l).
Proof.
  revert r. induction l as [|[currentName newName] l IH]; intros r Hr.
  - exact Hr.
  - simpl. apply IH, Rename_named, Hr.
Qed.

Lemma renames_named_witness :
  named (renames (registry ["a"; "b"]) [("a", "c"); ("b", "c"); ("c", "a")]).
Proof. apply renames_named, registry_named. Defined.

(** ** Listing the files *)

Lemma FileList_In r f :
  In f (FileList r) <-> exists name, files r !! name = Some f.
Proof.
  unfold FileList. rewrite <- list_elem_of_In, list_elem_of_fmap. split.
  - intros ([name g] & -> & Hin). exists name.
    apply elem_of_map_to_list in Hin. exact Hin.
  - intros (name & Hf). exists (name, f). split; [reflexivity|].
    apply elem_of_map_to_list. exact Hf.
Qed.

(** X17. Whatever the order in which the map is run over, [FileList] returns
    the files of the registry and nothing else, one element for each name in
    use. *)
Theorem FileList_files r l :
  l ≡ₚ FileList r ->
  (forall f, In f l <-> exists name, files r !! name = Some f) /\
  length l = size (files r).
Proof.
  intros Hp. split.
  - intros f. rewrite <- FileList_In. split; apply Permutation_in.
    + exact Hp.
    + symmetry. exact Hp.
  - rewrite (Permutation_length Hp). unfold FileList.
    rewrite length_fmap. apply length_map_to_list.
Qed.

Lemma FileList_files_witness :
  length (FileList (registry ["a"; "b"])) = size (files (registry ["a"; "b"])).
Proof.
  exact (proj2 (FileList_files (registry ["a"; "b"])
                  (FileList (registry ["a"; "b"])) (Permutation_refl _))).
Defined.

Lemma FileList_Nickname r :
  named r -> map Nickname (FileList r) = (map_to_list (files r)).*1.
Proof.
  intros Hr. unfold FileList.
  assert (H : forall l : list (string * file),
            (forall name f, In (name, f) l -> Nickname f = name) ->
            map Nickname (l.*2) = l.*1).
  { induction l as [|[name f] l IH]; intros Hl; [reflexivity|].
    simpl. rewrite (Hl name f) by (left; reflexivity).
    f_equal. apply IH. intros n g Hin. apply Hl. right. exact Hin. }
  apply H. intros name f Hin. apply Hr.
  apply elem_of_map_to_list, list_elem_of_In. exact Hin.
Qed.

(** X18. In a registry that stores every file under its own nickname, and so
    after any renamings of such a registry, no two files of the list have
    the same nickname, and the nicknames of the list are the names in use. *)
Theorem FileList_Nicknames r l :
  named r -> l ≡ₚ FileList r ->
  NoDup (map Nickname l) /\
  (forall name, In name (map Nickname l) <-> is_Some (files r !! name)) /\
  (forall renamings l',
     l' ≡ₚ FileList (renames r renamings) -> NoDup (map Nickname l')).
Proof.
  assert (Hnd : forall r0 l0, named r0 -> l0 ≡ₚ FileList r0 ->
            NoDup (map Nickname l0)).
  { intros r0 l0 H0 Hp. rewrite Hp. rewrite (FileList_Nickname r0 H0).
    apply NoDup_fst_map_to_list. }
  intros Hr Hp. split; [apply (Hnd r l Hr Hp)|]. split.
  - intros name. rewrite Hp, (FileList_Nickname r Hr).
    rewrite <- list_elem_of_In, list_elem_of_fmap. split.
    + intros ([n f] & -> & Hin). apply elem_of_map_to_list in Hin.
      simpl. eauto.
    + intros [f Hf]. exists (name, f). split; [reflexivity|].
      apply elem_of_map_to_list. exact Hf.
  - intros renamings l' Hp'.
    apply (Hnd (renames r renamings) l'); [|exact Hp'].
    apply renames_named, Hr.
Qed.

Lemma FileList_Nicknames_witness :
  NoDup (map Nickname (FileList (registry ["a"; "b"]))).
Proof.
  exact (proj1 (FileList_Nicknames (registry ["a"; "b"])
                  (FileList (registry ["a"; "b"]))
                  (registry_named ["a"; "b"]) (Permutation_refl _))).
Defined.

(** X19. A renaming changes the list of files by the renamed file alone: when
    it succeeds, the list before and the list after are the same files, in
    some order, but for the entry, which is listed with its new name; when
    it is refused, the renter and so the list are what they were.  Either
    way the number of files is the same. *)
Theorem Rename_FileList r currentName newName :
  (forall entry,
     files r !! currentName = Some entry -> files r !! newName = None ->
     exists others,
       FileList r ≡ₚ entry :: others /\
       FileList (fst (Rename r currentName newName))
         ≡ₚ setName entry newName :: others) /\
  (forall e, snd (Rename r currentName newName) = Some e ->
     FileList (fst (Rename r currentName newName)) = FileList r) /\
  length (FileList (fst (Rename r currentName newName)))
    = length (FileList r).
Proof.
  assert (Hs : forall entry,
     files r !! currentName = Some entry -> files r !! newName = None ->
     exists others,
       FileList r ≡ₚ entry :: others /\
       FileList (fst (Rename r currentName newName))
         ≡ₚ setName entry newName :: others).
  { intros entry Hc Hn.
    assert (Hne : currentName <> newName) by congruence.
    exists ((map_to_list (delete currentName (files r))).*2). split.
    - unfold FileList.
      rewrite <- (map_to_list_delete (files r) currentName entry Hc).
      reflexivity.
    - rewrite (Rename_success _ _ _ _ Hc Hn). unfold FileList. simpl.
      rewrite map_to_list_insert
        by (rewrite lookup_delete_ne by congruence; exact Hn).
      reflexivity. }
  split; [exact Hs|]. split.
  - intros e He. rewrite (Rename_failure _ _ _ _ He). reflexivity.
  - destruct (files r !! currentName) as [entry|] eqn:Hc;
      [destruct (files r !! newName) as [taken|] eqn:Hn|].
    + unfold Rename. rewrite Hc, Hn. reflexivity.
    + destruct (Hs entry eq_refl eq_refl) as (others & H1 & H2).
      rewrite (Permutation_length H1), (Permutation_length H2). reflexivity.
    + unfold Rename. rewrite Hc. reflexivity.
Qed.
